(** * Proceed: pipeline amendment and step execution

    A shallow embedding of [src/proceed/model.py] and
    [src/proceed/docker_runner.py], and the properties of the amendment
    (argument templates, prototype defaults) and of the step runner
    (skip decision, retry loop, execution record) proved about it.

    Conventions.
    - A Python [str] is a [string]; its bytes are the UTF-8 encoding, so that
      the characters the template scanner looks at ([$], [{], [}], ASCII
      letters, digits, [_]) are single bytes and every other byte is copied.
    - A Python [dict] is an association list in insertion order, updated the
      way a dict is ([dict_set]); a dict built by the program has pairwise
      distinct keys ([dict_wf]).
    - [None] of an optional field is [None] of an [option]. *)

From Stdlib Require Import String Ascii List ZArith Bool Arith Lia DecimalString.

#[local] Set Warnings "-register-all".
Import ListNotations.

Local Open Scope string_scope.
Local Open Scope list_scope.

(* ===================================================================== *)
(** * Part I. Definitions                                                 *)
(* ===================================================================== *)

(** ** Computations with a state that can raise *)

Module StateErr.

(** A computation on a state of type [S]; [None] when an exception
    escapes. *)
Definition SM (S A : Type) : Type := S -> option (A * S).

Definition ret {S A} (a : A) : SM S A := fun st => Some (a, st).

Definition bind {S A B} (m : SM S A) (k : A -> SM S B) : SM S B :=
  fun st => match m st with
            | Some (a, st') => k a st'
            | None => None
            end.

Definition raise {S A} : SM S A := fun _ => None.

(** The computations of a list, one after the other. *)
Fixpoint mapM {S A B} (f : A -> SM S B) (l : list A) : SM S (list B) :=
  match l with
  | [] => ret []
  | a :: r => bind (f a) (fun b => bind (mapM f r) (fun bs => ret (b :: bs)))
  end.

End StateErr.
Import StateErr.

Notation "x <- c ;; k" := (bind c (fun x => k))
  (at level 61, c at next level, right associativity).
Notation "c ;;; k" := (bind c (fun _ => k))
  (at level 61, right associativity).

(** ** Python dictionaries with [str] keys *)

Module PyDict.

Definition dict (V : Type) : Type := list (string * V).

(** [d[k]], [None] standing for [KeyError]. *)
Fixpoint dict_get {V} (d : dict V) (k : string) : option V :=
  match d with
  | [] => None
  | (k', v) :: r => if String.eqb k k' then Some v else dict_get r k
  end.

(** [k in d.keys()]. *)
Definition dict_has {V} (d : dict V) (k : string) : bool :=
  match dict_get d k with Some _ => true | None => false end.

(** [d[k] = v]: an existing key keeps its position, a new key goes last. *)
Fixpoint dict_set {V} (d : dict V) (k : string) (v : V) : dict V :=
  match d with
  | [] => [(k, v)]
  | (k', v') :: r =>
      if String.eqb k k' then (k', v) :: r else (k', v') :: dict_set r k v
  end.

(** The dict built by inserting the items one after the other, as a dict
    display or a dict comprehension does. *)
Definition dict_of_items {V} (items : list (string * V)) : dict V :=
  fold_left (fun acc kv => dict_set acc (fst kv) (snd kv)) items [].

(** [{**a, **b}]. *)
Definition dict_merge {V} (a b : dict V) : dict V :=
  dict_of_items (a ++ b).

Definition keys {V} (d : dict V) : list string := map fst d.

(** Pairwise distinct keys, as a boolean. *)
Fixpoint distinct (l : list string) : bool :=
  match l with
  | [] => true
  | k :: r => negb (existsb (String.eqb k) r) && distinct r
  end.

Definition dict_wf {V} (d : dict V) : bool := distinct (keys d).

(** The dict with the same keys and [g] of the values. *)
Definition map_values {V W} (g : V -> W) (d : dict V) : dict W :=
  map (fun kv => (fst kv, g (snd kv))) d.

End PyDict.
Import PyDict.

(** ** [string.Template.safe_substitute]

    The pattern of [string.Template] is a [$] followed by one of four
    alternatives, tried in this order: the group [escaped], a second [$];
    the group [named], an identifier; the group [braced], an identifier
    between [{] and [}]; the group [invalid], the empty text. An identifier is
    one character of [_a-z] followed by the longest run of characters of
    [_a-z0-9], ASCII only, letters of either case (flag [IGNORECASE]).
    [safe_substitute] is [pattern.sub(convert, template)]. *)

Module Template.

Definition dollar : ascii := "$"%char.
Definition lbrace : ascii := "{"%char.
Definition rbrace : ascii := "}"%char.

Definition in_range (lo hi : nat) (c : ascii) : bool :=
  let n := nat_of_ascii c in Nat.leb lo n && Nat.leb n hi.

(** [[_a-z]] under [IGNORECASE], ASCII only. *)
Definition is_id_start (c : ascii) : bool :=
  Ascii.eqb c "_"%char || in_range 97 122 c || in_range 65 90 c.

(** [[_a-z0-9]] under [IGNORECASE], ASCII only. *)
Definition is_id_char (c : ascii) : bool :=
  is_id_start c || in_range 48 57 c.

(** The longest prefix of characters satisfying [p] (a greedy [*]). *)
Fixpoint take_while (p : ascii -> bool) (s : list ascii) : list ascii :=
  match s with
  | c :: r => if p c then c :: take_while p r else []
  | [] => []
  end.

(** The groups of one match of the pattern. *)
Inductive dmatch : Type :=
| Escaped
| Named (name : list ascii)
| Braced (name : list ascii)
| Invalid.

(** The match that starts at a [$], from the text after it: the group, and
    how many characters after the [$] the match covers. The alternatives
    are tried in the order of the pattern. *)
Definition match_after_dollar (rest : list ascii) : dmatch * nat :=
  match rest with
  | [] => (Invalid, 0)
  | c :: tl =>
      if Ascii.eqb c dollar then (Escaped, 1)
      else if is_id_start c then
        let name := take_while is_id_char rest in (Named name, length name)
      else if Ascii.eqb c lbrace then
        match tl with
        | c2 :: _ =>
            if is_id_start c2 then
              let name := take_while is_id_char tl in
              match skipn (length name) tl with
              | c3 :: _ =>
                  if Ascii.eqb c3 rbrace
                  then (Braced name, length name + 2)
                  else (Invalid, 0)
              | [] => (Invalid, 0)
              end
            else (Invalid, 0)
        | [] => (Invalid, 0)
        end
      else (Invalid, 0)
  end.

(** [mo.group()], the matched text. *)
Definition group0 (m : dmatch) : list ascii :=
  match m with
  | Escaped => [dollar; dollar]
  | Named name => dollar :: name
  | Braced name => dollar :: lbrace :: name ++ [rbrace]
  | Invalid => [dollar]
  end.

(** [convert(mo)] of [safe_substitute]. *)
Definition convert (mapping : dict string) (m : dmatch) : list ascii :=
  match m with
  | Named name | Braced name =>
      match dict_get mapping (string_of_list_ascii name) with
      | Some v => list_ascii_of_string v
      | None => group0 m
      end
  | Escaped => [dollar]
  | Invalid => group0 m
  end.

(** [pattern.sub(convert, template)]: text outside the matches is copied,
    every match is replaced; [skip] counts the characters of the current
    match that are still to be passed over. *)
Fixpoint sub (mapping : dict string) (skip : nat) (s : list ascii)
  : list ascii :=
  match s with
  | [] => []
  | c :: rest =>
      match skip with
      | S k => sub mapping k rest
      | O =>
          if Ascii.eqb c dollar then
            let '(m, n) := match_after_dollar rest in
            convert mapping m ++ sub mapping n rest
          else c :: sub mapping 0 rest
      end
  end.

(** [Template(x).safe_substitute(args)]. *)
Definition safe_substitute (args : dict string) (x : string) : string :=
  string_of_list_ascii (sub args 0 (list_ascii_of_string x)).

End Template.
Import Template.

(** ** [model.py]: values and [apply_args] *)

(** The values [apply_args] is called on: a [str], a [list], a [dict] (with
    [str] keys, as every mapping of a [Step] has), and the scalars that are
    none of these. *)
Inductive pyval : Type :=
| PNone
| PBool (b : bool)
| PInt (z : Z)
| PStr (s : string)
| PList (l : list pyval)
| PDict (d : list (string * pyval)).

(** [apply_args(x, args)]. *)
Fixpoint apply_args (x : pyval) (args : dict string) : pyval :=
  match x with
  | PStr s => PStr (safe_substitute args s)
  | PList l => PList (map (fun e => apply_args e args) l)
  | PDict d =>
      PDict (dict_of_items
               (map (fun kv => match kv with
                               | (k, v) => (safe_substitute args k, apply_args v args)
                               end) d))
  | _ => x
  end.

(** [x or y]: [x] when it is truthy, otherwise [y]. *)
Definition py_or {A} (truthy : A -> bool) (x y : A) : A :=
  if truthy x then x else y.

(** Truth values of the field types of a [Step]. *)
Definition truthy_str (x : option string) : bool :=
  match x with
  | None => false
  | Some s => negb (String.eqb s "")
  end.

Definition truthy_list {A} (x : list A) : bool :=
  match x with [] => false | _ :: _ => true end.

Definition truthy_bool (x : option bool) : bool :=
  match x with Some b => b | None => false end.

(** The value of a volume: a container path, or a detail mapping
    ([bind], [mode]). *)
Inductive volume : Type :=
| VolBind (container_path : string)
| VolDetail (detail : dict string).

(** [user: str|int]. *)
Inductive user_t : Type :=
| UserName (s : string)
| UserId (uid : Z).

Definition truthy_user (x : option user_t) : bool :=
  match x with
  | None => false
  | Some (UserName s) => negb (String.eqb s "")
  | Some (UserId uid) => negb (Z.eqb uid 0)
  end.

(** [apply_args] at the types of the fields of a [Step]
    ([apply_args_agrees] relates them to [apply_args]). *)
Definition apply_args_str (x : option string) (args : dict string)
  : option string :=
  option_map (safe_substitute args) x.

Definition apply_args_strs (x : list string) (args : dict string)
  : list string :=
  map (safe_substitute args) x.

Definition apply_args_env (x : dict string) (args : dict string)
  : dict string :=
  dict_of_items
    (map (fun kv => (safe_substitute args (fst kv), safe_substitute args (snd kv))) x).

Definition apply_args_volume (v : volume) (args : dict string) : volume :=
  match v with
  | VolBind s => VolBind (safe_substitute args s)
  | VolDetail d => VolDetail (apply_args_env d args)
  end.

Definition apply_args_volumes (x : dict volume) (args : dict string)
  : dict volume :=
  dict_of_items
    (map (fun kv => (safe_substitute args (fst kv), apply_args_volume (snd kv) args)) x).

Definition apply_args_user (x : option user_t) (args : dict string)
  : option user_t :=
  match x with
  | Some (UserName s) => Some (UserName (safe_substitute args s))
  | _ => x
  end.

(** The fields of a [Step] as [apply_args] sees them. *)
Definition of_str (x : option string) : pyval :=
  match x with Some s => PStr s | None => PNone end.

Definition of_strs (x : list string) : pyval := PList (map PStr x).

Definition of_env (x : dict string) : pyval :=
  PDict (map (fun kv => (fst kv, PStr (snd kv))) x).

Definition of_volume (v : volume) : pyval :=
  match v with
  | VolBind s => PStr s
  | VolDetail d => of_env d
  end.

Definition of_volumes (x : dict volume) : pyval :=
  PDict (map (fun kv => (fst kv, of_volume (snd kv))) x).

Definition of_bool (x : option bool) : pyval :=
  match x with Some b => PBool b | None => PNone end.

Definition of_user (x : option user_t) : pyval :=
  match x with
  | Some (UserName s) => PStr s
  | Some (UserId uid) => PInt uid
  | None => PNone
  end.

(** ** [class Step] *)

Module Step.

Record t : Type := mk {
  name : option string;
  description : option string;
  image : option string;
  command : list string;
  volumes : dict volume;
  working_dir : option string;
  match_done : list string;
  match_in : list string;
  match_out : list string;
  match_summary : list string;
  environment : dict string;
  gpus : option bool;
  user : option user_t;
  network_mode : option string;
  mac_address : option string
}.

(** [Step._with_args_applied(self, args)]. *)
Definition _with_args_applied (self : t) (args : dict string) : t :=
  {| name := apply_args_str (name self) args;
     description := apply_args_str (description self) args;
     image := apply_args_str (image self) args;
     command := apply_args_strs (command self) args;
     volumes := apply_args_volumes (volumes self) args;
     working_dir := apply_args_str (working_dir self) args;
     match_done := apply_args_strs (match_done self) args;
     match_in := apply_args_strs (match_in self) args;
     match_out := apply_args_strs (match_out self) args;
     match_summary := apply_args_strs (match_summary self) args;
     environment := apply_args_env (environment self) args;
     gpus := gpus self;
     network_mode := apply_args_str (network_mode self) args;
     mac_address := apply_args_str (mac_address self) args;
     user := apply_args_user (user self) args |}.

(** [Step._with_prototype_applied(self, prototype)]; a [Step] object is
    truthy, so [not prototype] holds of [None] only. *)
Definition _with_prototype_applied (self : t) (prototype : option t) : t :=
  match prototype with
  | None => self
  | Some prototype =>
      {| name := py_or truthy_str (name self) (name prototype);
         description := py_or truthy_str (description self) (description prototype);
         image := py_or truthy_str (image self) (image prototype);
         command := py_or truthy_list (command self) (command prototype);
         volumes := dict_merge (volumes prototype) (volumes self);
         working_dir := py_or truthy_str (working_dir self) (working_dir prototype);
         match_done := py_or truthy_list (match_done self) (match_done prototype);
         match_in := py_or truthy_list (match_in self) (match_in prototype);
         match_out := py_or truthy_list (match_out self) (match_out prototype);
         match_summary := py_or truthy_list (match_summary self) (match_summary prototype);
         environment := dict_merge (environment prototype) (environment self);
         gpus := py_or truthy_bool (gpus self) (gpus prototype);
         network_mode := py_or truthy_str (network_mode self) (network_mode prototype);
         mac_address := py_or truthy_str (mac_address self) (mac_address prototype);
         user := py_or truthy_user (user self) (user prototype) |}
  end.

End Step.

(** ** [class Timing]

    A datetime is the number of microseconds since the epoch; the ISO text
    kept in [start] and [finish] is represented by the datetime it denotes,
    and a duration by its number of microseconds ([total_seconds()] is that
    number divided by [10**6]). *)

Module Timing.

Record t : Type := mk {
  start : option Z;
  finish : option Z;
  duration : option Z
}.

(** [Timing._is_complete(self)]; [None] when the comparison of an unset
    duration with [0] raises [TypeError]. *)
Definition _is_complete (self : t) : option bool :=
  match start self with
  | None => Some false
  | Some _ =>
      match finish self with
      | None => Some false
      | Some _ =>
          match duration self with
          | None => None
          | Some d => Some (Z.ltb 0 d)
          end
      end
  end.

End Timing.

(** ** [class StepResult] *)

(** A result of the file matcher: host volume path, then relative file
    path, then content digest. *)
Definition file_matches : Type := dict (dict string).

Module StepResult.

Record t : Type := mk {
  name : option string;
  image_id : option string;
  exit_code : option Z;
  log_file : option string;
  timing : option Timing.t;
  files_done : file_matches;
  files_in : file_matches;
  files_out : file_matches;
  files_summary : file_matches;
  skipped : bool
}.

End StepResult.

(** ** [class Pipeline] *)

Module Pipeline.

Record t : Type := mk {
  version : string;
  description : option string;
  args : dict string;
  prototype : option Step.t;
  steps : list Step.t
}.

(** [Pipeline._combine_args(self, args)]; [self.args[k]] is read for keys
    of [self.args] only. *)
Definition _combine_args (self : t) (args : dict string) : dict string :=
  fold_left
    (fun accepted_args k =>
       if dict_has args k
       then dict_set accepted_args k
              (match dict_get args k with Some v => v | None => "" end)
       else dict_set accepted_args k
              (match dict_get (Pipeline.args self) k with Some v => v | None => "" end))
    (keys (Pipeline.args self)) [].

(** [Pipeline._with_args_applied(self, args)]. *)
Definition _with_args_applied (self : t) (args : dict string) : t :=
  let combined_args := _combine_args self args in
  let amended_prototype :=
    match prototype self with
    | Some prototype => Some (Step._with_args_applied prototype combined_args)
    | None => None
    end in
  {| version := version self;
     description := description self;
     args := combined_args;
     prototype := amended_prototype;
     steps := map (fun step => Step._with_args_applied step combined_args)
                  (steps self) |}.

(** [Pipeline._with_prototype_applied(self)]. *)
Definition _with_prototype_applied (self : t) : t :=
  {| version := version self;
     description := description self;
     args := Pipeline.args self;
     prototype := prototype self;
     steps := map (fun step => Step._with_prototype_applied step (prototype self))
                  (steps self) |}.

(** The amendment of [run_pipeline]:
    [original._with_args_applied(args)._with_prototype_applied()]. *)
Definition amend (original : t) (args : dict string) : t :=
  _with_prototype_applied (_with_args_applied original args).

End Pipeline.

(** ** [class ExecutionRecord] *)

Module ExecutionRecord.

Record t : Type := mk {
  original : option Pipeline.t;
  amended : option Pipeline.t;
  timing : option Timing.t;
  step_results : list StepResult.t
}.

End ExecutionRecord.

(** ** [docker_runner.py]: the collaborators

    The container engine, the file matcher, the clock and the file system
    are outside the program. Their answers are given by an environment,
    indexed by how many calls were made before; what the program does to
    them is recorded in a state that is passed along. Calls of [logging]
    are left out. *)

Module Docker.

(** The exception classes [run_container] tells apart: [APIError] with the
    answer of [is_client_error()], the other [DockerException]s, and every
    other [Exception]. *)
Inductive error_class : Type :=
| APIError (is_client_error : bool)
| DockerException
| OtherException.

(** An exception: its class, [type(e).__name__], and the text of
    [e.explanation] (of an [APIError]) or of [e.args] (of the others). *)
Record exn : Type := mk_exn {
  cls : error_class;
  type_name : string;
  details : string
}.

(** How a started container ends: [wait()] gives a status code and the
    container is removed (with it, the id of its image), or something raises
    while the log is streamed, or in [wait()] or [remove()]. *)
Inductive ending : Type :=
| Exited (status_code : Z) (image_id : string)
| Raised (e : exn).

(** One attempt: [containers.run] (or what comes before the log entries
    are written, the opening of the log file with ['w'] included) raises, or
    the container starts and its log entries stream. All of this is inside
    the [try] of [run_container]: what raises there is caught. *)
Inductive attempt : Type :=
| RunRaises (e : exn)
| Streamed (log_entries : list string) (fin : ending).

End Docker.

Module World.

(** The answers of the collaborators. *)
Record Env : Type := mk_env {
  (** [datetime.now(timezone.utc)], by number of earlier readings *)
  clock : nat -> Z;
  (** [match_patterns_in_dirs(dirs, patterns)], by number of earlier calls *)
  file_matcher : nat -> list string -> list string -> file_matches;
  (** [client.containers.run(...)] for a step, by number of earlier runs *)
  engine : nat -> Step.t -> Docker.attempt;
  (** [Path(execution_path, file).as_posix()] *)
  path_of : string -> string -> string;
  (** whether [open(path, 'a')] succeeds, by number of earlier operations
      on files; when it does not, it raises [OSError] *)
  can_append : nat -> string -> bool
}.

(** What is done to a file. *)
Inductive file_op : Type :=
| Truncate (path : string)
| Append (path : string) (text : string).

Record State : Type := mk_state {
  clock_reads : nat;
  matcher_calls : nat;
  (** the steps [containers.run] was called for, latest last *)
  invocations : list Step.t;
  (** the content of the files *)
  files : dict string;
  (** the operations on files, latest last *)
  file_ops : list file_op
}.

(** A computation of the runner; [None] when an exception escapes. *)
Definition M (A : Type) : Type := SM State A.

End World.
Import World.

Definition nl : string := String (ascii_of_nat 10) "".

(** The decimal text of a number, as an f-string prints it. *)
Definition str_of_nat (n : nat) : string :=
  DecimalString.NilEmpty.string_of_uint (Nat.to_uint n).

(** [s.replace(" ", "_")]. *)
Fixpoint replace_spaces (s : string) : string :=
  match s with
  | EmptyString => EmptyString
  | String c r =>
      String (if Ascii.eqb c " "%char then "_"%char else c) (replace_spaces r)
  end.

(** A non-empty dict is truthy. *)
Definition truthy_dict {V} (d : dict V) : bool :=
  match d with [] => false | _ :: _ => true end.

(** An [int] or [None] is truthy when it is a number other than [0]. *)
Definition truthy_int (x : option Z) : bool :=
  match x with Some z => negb (Z.eqb z 0) | None => false end.

(** Modelled from the spec: [count_matches] of [proceed.file_matching],
    which is not among the sources; the spec gives
    [count(matchResult) -> integer], the number of matched files of a result
    that maps a directory to its matched relative paths and their digests. *)
Definition count_matches (m : file_matches) : nat :=
  list_sum (map (fun kv => length (snd kv)) m).

Section Runner.

Variable env : Env.

(** [datetime.now(timezone.utc)]. *)
Definition now : M Z :=
  fun st =>
    Some (clock env (clock_reads st),
          mk_state (S (clock_reads st)) (matcher_calls st) (invocations st)
                   (files st) (file_ops st)).

(** [match_patterns_in_dirs(dirs, patterns)]. *)
Definition match_patterns_in_dirs (dirs patterns : list string)
  : M file_matches :=
  fun st =>
    Some (file_matcher env (matcher_calls st) dirs patterns,
          mk_state (clock_reads st) (S (matcher_calls st)) (invocations st)
                   (files st) (file_ops st)).

(** [docker.from_env(...)] and [client.containers.run(step.image, ...)]. *)
Definition containers_run (step : Step.t) : M Docker.attempt :=
  fun st =>
    Some (engine env (length (invocations st)) step,
          mk_state (clock_reads st) (matcher_calls st)
                   (invocations st ++ [step]) (files st) (file_ops st)).

(** [open(path, 'w')]: the file is created or emptied. *)
Definition open_w (path : string) : M unit :=
  fun st =>
    Some (tt,
          mk_state (clock_reads st) (matcher_calls st) (invocations st)
                   (dict_set (files st) path "")
                   (file_ops st ++ [Truncate path])).

(** [f.write(text)] on a file opened with ['w'] or ['a']: the text goes
    to the end of the file, which ['a'] creates when there is none. *)
Definition write (path text : string) : M unit :=
  fun st =>
    let old := match dict_get (files st) path with
               | Some content => content
               | None => ""
               end in
    Some (tt,
          mk_state (clock_reads st) (matcher_calls st) (invocations st)
                   (dict_set (files st) path (String.append old text))
                   (file_ops st ++ [Append path text])).

(** [with open(path, 'a') as f: f.write(text)] where no [try] is around
    it: when the file cannot be opened, the [OSError] escapes. *)
Definition append (path text : string) : M unit :=
  fun st =>
    if can_append env (length (file_ops st)) path
    then write path text st
    else None.

(** [for log_entry in step_log_stream: f.write(log)]. *)
Fixpoint write_all (path : string) (entries : list string) : M unit :=
  match entries with
  | [] => ret tt
  | e :: r => write path e ;;; write_all path r
  end.

Definition retry_log_message (attempts max_attempts : nat) : string :=
  String.append "Container attempts/retries at "
    (String.append (str_of_nat attempts)
       (String.append " out of "
          (String.append (str_of_nat max_attempts) (String.append "." nl)))).

(** The [while attempts < max_attempts] loop of [run_container];
    [remaining] is [max_attempts - attempts]. The result is the id of the
    image of the container (for the container), the exit code and the
    exception. *)
Fixpoint run_container_loop (step : Step.t) (log_path : string)
    (max_attempts remaining attempts : nat)
    (retried_exception : option Docker.exn)
  : M (option string * Z * option Docker.exn) :=
  match remaining with
  | O => ret (None, (-1)%Z, retried_exception)
  | S remaining' =>
      let handle (e : Docker.exn) :=
        let retry :=
          let attempts := attempts + 1 in
          append log_path (retry_log_message attempts max_attempts) ;;;
          run_container_loop step log_path max_attempts remaining' attempts
                             (Some e) in
        match Docker.cls e with
        | Docker.APIError true => ret (None, (-1)%Z, Some e)
        | Docker.APIError false => retry
        | Docker.DockerException => ret (None, (-1)%Z, Some e)
        | Docker.OtherException => retry
        end in
      a <- containers_run step ;;
      match a with
      | Docker.RunRaises e => handle e
      | Docker.Streamed log_entries fin =>
          open_w log_path ;;;
          write_all log_path log_entries ;;;
          match fin with
          | Docker.Exited status_code image_id =>
              ret (Some image_id, status_code, None)
          | Docker.Raised e => handle e
          end
      end
  end.

(** [run_container(step, log_path, client_kwargs, max_attempts)]. *)
Definition run_container (step : Step.t) (log_path : string)
    (max_attempts : nat) : M (option string * Z * option Docker.exn) :=
  run_container_loop step log_path max_attempts max_attempts 0 None.

Definition error_message (e : Docker.exn) : string :=
  String.append (Docker.type_name e)
    (String.append ": " (String.append (Docker.details e) nl)).

(** [run_step(step, log_path, force_rerun, client_kwargs)]. *)
Definition run_step (step : Step.t) (log_path : string) (force_rerun : bool)
  : M StepResult.t :=
  start <- now ;;
  let volume_dirs := keys (Step.volumes step) in
  files_done <- match_patterns_in_dirs volume_dirs (Step.match_done step) ;;
  if truthy_dict files_done && negb force_rerun then
    ret {| StepResult.name := Step.name step;
           StepResult.image_id := None;
           StepResult.exit_code := None;
           StepResult.log_file := None;
           StepResult.timing := Some (Timing.mk (Some start) None None);
           StepResult.files_done := files_done;
           StepResult.files_in := [];
           StepResult.files_out := [];
           StepResult.files_summary := [];
           StepResult.skipped := true |}
  else
    files_in <- match_patterns_in_dirs volume_dirs (Step.match_in step) ;;
    r <- run_container step log_path 3 ;;
    let '(container, exit_code, exception) := r in
    match exception with
    | Some e =>
        append log_path (error_message e) ;;;
        ret {| StepResult.name := Step.name step;
               StepResult.image_id := None;
               StepResult.exit_code := Some exit_code;
               StepResult.log_file := Some log_path;
               StepResult.timing := Some (Timing.mk (Some start) None None);
               StepResult.files_done := [];
               StepResult.files_in := [];
               StepResult.files_out := [];
               StepResult.files_summary := [];
               StepResult.skipped := false |}
    | None =>
        files_out <- match_patterns_in_dirs volume_dirs (Step.match_out step) ;;
        files_summary <- match_patterns_in_dirs volume_dirs (Step.match_summary step) ;;
        finish <- now ;;
        let duration := (finish - start)%Z in
        match container with
        | None => raise
        | Some image_id =>
            ret {| StepResult.name := Step.name step;
                   StepResult.image_id := Some image_id;
                   StepResult.exit_code := Some exit_code;
                   StepResult.log_file := Some log_path;
                   StepResult.timing :=
                     Some (Timing.mk (Some start) (Some finish) (Some duration));
                   StepResult.files_done := files_done;
                   StepResult.files_in := files_in;
                   StepResult.files_out := files_out;
                   StepResult.files_summary := files_summary;
                   StepResult.skipped := false |}
        end
    end.

(** [step.name in step_names]. *)
Definition name_in (name : option string) (step_names : list string) : bool :=
  match name with
  | Some n => existsb (String.eqb n) step_names
  | None => false
  end.

(** [step_names and not step.name in step_names]: the step is not among
    the steps to run. *)
Definition left_out (step_names : option (list string)) (step : Step.t) : bool :=
  match step_names with
  | Some (n :: names) => negb (name_in (Step.name step) (n :: names))
  | _ => false
  end.

(** The [for step in amended.steps] loop of [run_pipeline], from the steps
    still to visit and the results so far. A step that is not left out
    needs a name: [step.name.replace] raises on [None]. *)
Fixpoint run_steps (execution_path : string) (force_rerun : bool)
    (step_names : option (list string)) (steps : list Step.t)
    (step_results : list StepResult.t) : M (list StepResult.t) :=
  match steps with
  | [] => ret step_results
  | step :: rest =>
      if left_out step_names step then
        run_steps execution_path force_rerun step_names rest step_results
      else
        match Step.name step with
        | None => raise
        | Some name =>
            let log_stem := replace_spaces name in
            let log_path :=
              path_of env execution_path (String.append log_stem ".log") in
            step_result <- run_step step log_path force_rerun ;;
            let step_results := step_results ++ [step_result] in
            if truthy_int (StepResult.exit_code step_result)
            then ret step_results
            else run_steps execution_path force_rerun step_names rest
                           step_results
        end
  end.

(** [run_pipeline(original, execution_path, args, force_rerun, step_names,
    client_kwargs)]. *)
Definition run_pipeline (original : Pipeline.t) (execution_path : string)
    (args : dict string) (force_rerun : bool)
    (step_names : option (list string)) : M ExecutionRecord.t :=
  start <- now ;;
  let amended :=
    Pipeline._with_prototype_applied (Pipeline._with_args_applied original args) in
  step_results <- run_steps execution_path force_rerun step_names
                            (Pipeline.steps amended) [] ;;
  finish <- now ;;
  let duration := (finish - start)%Z in
  ret {| ExecutionRecord.original := Some original;
         ExecutionRecord.amended := Some amended;
         ExecutionRecord.step_results := step_results;
         ExecutionRecord.timing :=
           Some (Timing.mk (Some start) (Some finish) (Some duration)) |}.

End Runner.

(** ** The amendment on a store of objects

    Whether the amendment changes the original pipeline cannot be told from
    values alone. Here the pipeline, its steps, their lists and their dicts
    are objects in a store, held by reference, as in Python; the amendment
    reads, allocates and updates objects. A string, a number, a truth value
    and [None] are values, which cannot change. *)

Notation "x <~ c ;; k" := (match c with Some x => k | None => None end)
  (at level 61, c at next level, right associativity).

Module Store.

Definition loc : Type := nat.

Inductive val : Type :=
| VNone
| VBool (b : bool)
| VInt (z : Z)
| VStr (s : string)
| VRef (l : loc).

Module StepObj.
Record t : Type := mk {
  name : val;
  description : val;
  image : val;
  command : val;
  volumes : val;
  working_dir : val;
  match_done : val;
  match_in : val;
  match_out : val;
  match_summary : val;
  environment : val;
  gpus : val;
  user : val;
  network_mode : val;
  mac_address : val
}.
End StepObj.

Module PipelineObj.
Record t : Type := mk {
  version : val;
  description : val;
  args : val;
  prototype : val;
  steps : val
}.
End PipelineObj.

Inductive obj : Type :=
| OList (items : list val)
| ODict (entries : dict val)
| OStep (s : StepObj.t)
| OPipeline (p : PipelineObj.t).

(** The store: the object at location [l] is the [l]-th one. *)
Definition heap : Type := list obj.

(** A computation on the store; [None] when an exception escapes, or when
    the recursion of [apply_args] is deeper than the fuel given. *)
Definition H (A : Type) : Type := SM heap A.

(** A new object. *)
Definition alloc (o : obj) : H val :=
  fun h => Some (VRef (length h), h ++ [o]).

(** The object a value refers to. *)
Definition read (v : val) : H obj :=
  fun h => match v with
           | VRef l => match nth_error h l with
                       | Some o => Some (o, h)
                       | None => None
                       end
           | _ => None
           end.

(** The object at [l] is replaced. *)
Definition update (l : loc) (o : obj) : H unit :=
  fun h => if Nat.ltb l (length h)
           then Some (tt, firstn l h ++ o :: skipn (S l) h)
           else None.

Definition read_list (v : val) : H (list val) :=
  o <- read v ;; match o with OList items => ret items | _ => raise end.

Definition read_dict (v : val) : H (dict val) :=
  o <- read v ;; match o with ODict entries => ret entries | _ => raise end.

Definition read_step (v : val) : H StepObj.t :=
  o <- read v ;; match o with OStep s => ret s | _ => raise end.

Definition read_pipeline (v : val) : H PipelineObj.t :=
  o <- read v ;; match o with OPipeline p => ret p | _ => raise end.

(** The truth value of a value; an empty list and an empty dict are
    falsy, every other object is truthy. *)
Definition truthy (v : val) : H bool :=
  match v with
  | VNone => ret false
  | VBool b => ret b
  | VInt z => ret (negb (Z.eqb z 0))
  | VStr s => ret (negb (String.eqb s ""))
  | VRef _ =>
      o <- read v ;;
      ret (match o with
           | OList [] => false
           | ODict [] => false
           | _ => true
           end)
  end.

(** [x or y]. *)
Definition or_else (x y : val) : H val :=
  t <- truthy x ;; ret (if t then x else y).

(** The elements of a list, each read with [f]. *)
Fixpoint load_items {A} (f : val -> option A) (items : list val)
  : option (list A) :=
  match items with
  | [] => Some []
  | v :: r => a <~ f v ;; l <~ load_items f r ;; Some (a :: l)
  end.

(** The entries of a dict, each value read with [f]. *)
Fixpoint load_entries {A} (f : val -> option A) (entries : dict val)
  : option (dict A) :=
  match entries with
  | [] => Some []
  | (k, v) :: r => a <~ f v ;; d <~ load_entries f r ;; Some ((k, a) :: d)
  end.

Definition the_str (v : val) : option string :=
  match v with VStr s => Some s | _ => None end.

(** The args as a mapping from names to strings ([dict[str, str]]). *)
Definition read_args (args : val) : H (dict string) :=
  entries <- read_dict args ;;
  match load_entries the_str entries with
  | Some mapping => ret mapping
  | None => raise
  end.

(** [apply_args(x, args)]: a list and a dict are new objects. *)
Fixpoint apply_args (fuel : nat) (x : val) (args : val) : H val :=
  match fuel with
  | O => raise
  | S fuel =>
      match x with
      | VStr s =>
          mapping <- read_args args ;;
          ret (VStr (safe_substitute mapping s))
      | VRef _ =>
          o <- read x ;;
          match o with
          | OList items =>
              items' <- mapM (fun e => apply_args fuel e args) items ;;
              alloc (OList items')
          | ODict entries =>
              entries' <-
                mapM (fun kv =>
                        mapping <- read_args args ;;
                        v' <- apply_args fuel (snd kv) args ;;
                        ret (safe_substitute mapping (fst kv), v'))
                     entries ;;
              alloc (ODict (dict_of_items entries'))
          | _ => ret x
          end
      | _ => ret x
      end
  end.

(** [Step._with_args_applied(self, args)]. *)
Definition step_with_args_applied (fuel : nat) (self args : val) : H val :=
  s <- read_step self ;;
  name <- apply_args fuel (StepObj.name s) args ;;
  description <- apply_args fuel (StepObj.description s) args ;;
  image <- apply_args fuel (StepObj.image s) args ;;
  command <- apply_args fuel (StepObj.command s) args ;;
  volumes <- apply_args fuel (StepObj.volumes s) args ;;
  working_dir <- apply_args fuel (StepObj.working_dir s) args ;;
  match_done <- apply_args fuel (StepObj.match_done s) args ;;
  match_in <- apply_args fuel (StepObj.match_in s) args ;;
  match_out <- apply_args fuel (StepObj.match_out s) args ;;
  match_summary <- apply_args fuel (StepObj.match_summary s) args ;;
  environment <- apply_args fuel (StepObj.environment s) args ;;
  gpus <- apply_args fuel (StepObj.gpus s) args ;;
  network_mode <- apply_args fuel (StepObj.network_mode s) args ;;
  mac_address <- apply_args fuel (StepObj.mac_address s) args ;;
  user <- apply_args fuel (StepObj.user s) args ;;
  alloc (OStep (StepObj.mk name description image command volumes working_dir
                           match_done match_in match_out match_summary
                           environment gpus user network_mode mac_address)).

(** [{**a, **b}], a new dict. *)
Definition merge (a b : val) : H val :=
  ea <- read_dict a ;;
  eb <- read_dict b ;;
  alloc (ODict (dict_merge ea eb)).

(** [Step._with_prototype_applied(self, prototype)]. *)
Definition step_with_prototype_applied (self prototype : val) : H val :=
  has_prototype <- truthy prototype ;;
  if negb has_prototype then ret self
  else
    s <- read_step self ;;
    p <- read_step prototype ;;
    name <- or_else (StepObj.name s) (StepObj.name p) ;;
    description <- or_else (StepObj.description s) (StepObj.description p) ;;
    image <- or_else (StepObj.image s) (StepObj.image p) ;;
    command <- or_else (StepObj.command s) (StepObj.command p) ;;
    volumes <- merge (StepObj.volumes p) (StepObj.volumes s) ;;
    working_dir <- or_else (StepObj.working_dir s) (StepObj.working_dir p) ;;
    match_done <- or_else (StepObj.match_done s) (StepObj.match_done p) ;;
    match_in <- or_else (StepObj.match_in s) (StepObj.match_in p) ;;
    match_out <- or_else (StepObj.match_out s) (StepObj.match_out p) ;;
    match_summary <- or_else (StepObj.match_summary s) (StepObj.match_summary p) ;;
    environment <- merge (StepObj.environment p) (StepObj.environment s) ;;
    gpus <- or_else (StepObj.gpus s) (StepObj.gpus p) ;;
    network_mode <- or_else (StepObj.network_mode s) (StepObj.network_mode p) ;;
    mac_address <- or_else (StepObj.mac_address s) (StepObj.mac_address p) ;;
    user <- or_else (StepObj.user s) (StepObj.user p) ;;
    alloc (OStep (StepObj.mk name description image command volumes working_dir
                             match_done match_in match_out match_summary
                             environment gpus user network_mode mac_address)).

(** [d[k]]. *)
Definition getitem (d : val) (k : string) : H val :=
  entries <- read_dict d ;;
  match dict_get entries k with
  | Some v => ret v
  | None => raise
  end.

(** [k in d.keys()]. *)
Definition contains (d : val) (k : string) : H bool :=
  entries <- read_dict d ;; ret (dict_has entries k).

(** [d[k] = v]: the dict object is changed in place. *)
Definition setitem (d : val) (k : string) (v : val) : H unit :=
  entries <- read_dict d ;;
  match d with
  | VRef l => update l (ODict (dict_set entries k v))
  | _ => raise
  end.

(** The body of a [for] loop, for each element in turn. *)
Fixpoint for_each {A} (l : list A) (body : A -> H unit) : H unit :=
  match l with
  | [] => ret tt
  | a :: r => body a ;;; for_each r body
  end.

(** [Pipeline._combine_args(self, args)]. *)
Definition combine_args (self : PipelineObj.t) (args : val) : H val :=
  accepted_args <- alloc (ODict []) ;;
  declared <- read_dict (PipelineObj.args self) ;;
  for_each (keys declared)
    (fun k =>
       given <- contains args k ;;
       if given
       then v <- getitem args k ;; setitem accepted_args k v
       else v <- getitem (PipelineObj.args self) k ;; setitem accepted_args k v) ;;;
  ret accepted_args.

(** [Pipeline._with_args_applied(self, args)]. *)
Definition pipeline_with_args_applied (fuel : nat) (self args : val) : H val :=
  p <- read_pipeline self ;;
  combined_args <- combine_args p args ;;
  has_prototype <- truthy (PipelineObj.prototype p) ;;
  amended_prototype <-
    (if has_prototype
     then step_with_args_applied fuel (PipelineObj.prototype p) combined_args
     else ret VNone) ;;
  steps <- read_list (PipelineObj.steps p) ;;
  steps' <- mapM (fun step => step_with_args_applied fuel step combined_args)
                 steps ;;
  steps_list <- alloc (OList steps') ;;
  alloc (OPipeline (PipelineObj.mk (PipelineObj.version p)
                                   (PipelineObj.description p)
                                   combined_args amended_prototype steps_list)).

(** [Pipeline._with_prototype_applied(self)]. *)
Definition pipeline_with_prototype_applied (self : val) : H val :=
  p <- read_pipeline self ;;
  steps <- read_list (PipelineObj.steps p) ;;
  steps' <- mapM (fun step =>
                    step_with_prototype_applied step (PipelineObj.prototype p))
                 steps ;;
  steps_list <- alloc (OList steps') ;;
  alloc (OPipeline (PipelineObj.mk (PipelineObj.version p)
                                   (PipelineObj.description p)
                                   (PipelineObj.args p)
                                   (PipelineObj.prototype p) steps_list)).

(** [original._with_args_applied(args)._with_prototype_applied()]. *)
Definition amend (fuel : nat) (original args : val) : H val :=
  amended <- pipeline_with_args_applied fuel original args ;;
  pipeline_with_prototype_applied amended.

End Store.

(** ** The pipeline that a store holds

    The value of a pipeline in the store, as [model.py] types it: what is
    read from the store by following the references, [None] when the objects
    are not of these types. *)

Module View.

Import Store.

Definition lookup (h : heap) (v : val) : option obj :=
  match v with
  | VRef l => nth_error h l
  | _ => None
  end.

Definition load_str (v : val) : option (option string) :=
  match v with
  | VNone => Some None
  | VStr s => Some (Some s)
  | _ => None
  end.

Definition load_bool (v : val) : option (option bool) :=
  match v with
  | VNone => Some None
  | VBool b => Some (Some b)
  | _ => None
  end.

Definition load_user (v : val) : option (option user_t) :=
  match v with
  | VNone => Some None
  | VStr s => Some (Some (UserName s))
  | VInt uid => Some (Some (UserId uid))
  | _ => None
  end.

Definition load_strs (h : heap) (v : val) : option (list string) :=
  match lookup h v with
  | Some (OList items) => load_items the_str items
  | _ => None
  end.

Definition load_env (h : heap) (v : val) : option (dict string) :=
  match lookup h v with
  | Some (ODict entries) => load_entries the_str entries
  | _ => None
  end.

Definition load_volume (h : heap) (v : val) : option volume :=
  match v with
  | VStr s => Some (VolBind s)
  | VRef _ => d <~ load_env h v ;; Some (VolDetail d)
  | _ => None
  end.

Definition load_volumes (h : heap) (v : val) : option (dict volume) :=
  match lookup h v with
  | Some (ODict entries) => load_entries (load_volume h) entries
  | _ => None
  end.

Definition load_step (h : heap) (v : val) : option Step.t :=
  match lookup h v with
  | Some (OStep s) =>
      name <~ load_str (StepObj.name s) ;;
      description <~ load_str (StepObj.description s) ;;
      image <~ load_str (StepObj.image s) ;;
      command <~ load_strs h (StepObj.command s) ;;
      volumes <~ load_volumes h (StepObj.volumes s) ;;
      working_dir <~ load_str (StepObj.working_dir s) ;;
      match_done <~ load_strs h (StepObj.match_done s) ;;
      match_in <~ load_strs h (StepObj.match_in s) ;;
      match_out <~ load_strs h (StepObj.match_out s) ;;
      match_summary <~ load_strs h (StepObj.match_summary s) ;;
      environment <~ load_env h (StepObj.environment s) ;;
      gpus <~ load_bool (StepObj.gpus s) ;;
      user <~ load_user (StepObj.user s) ;;
      network_mode <~ load_str (StepObj.network_mode s) ;;
      mac_address <~ load_str (StepObj.mac_address s) ;;
      Some (Step.mk name description image command volumes working_dir
                    match_done match_in match_out match_summary environment
                    gpus user network_mode mac_address)
  | _ => None
  end.

Definition load_prototype (h : heap) (v : val) : option (option Step.t) :=
  match v with
  | VNone => Some None
  | _ => s <~ load_step h v ;; Some (Some s)
  end.

Definition load_steps (h : heap) (v : val) : option (list Step.t) :=
  match lookup h v with
  | Some (OList items) => load_items (load_step h) items
  | _ => None
  end.

Definition load_pipeline (h : heap) (v : val) : option Pipeline.t :=
  match lookup h v with
  | Some (OPipeline p) =>
      version <~ the_str (PipelineObj.version p) ;;
      description <~ load_str (PipelineObj.description p) ;;
      args <~ load_env h (PipelineObj.args p) ;;
      prototype <~ load_prototype h (PipelineObj.prototype p) ;;
      steps <~ load_steps h (PipelineObj.steps p) ;;
      Some (Pipeline.mk version description args prototype steps)
  | _ => None
  end.

(** A computation keeps the first [n] objects of the store as they are,
    and its result satisfies [Q]. *)
Definition preserves {A} (n : nat) (Q : A -> Prop) (m : H A) : Prop :=
  forall h a h',
    n <= length h -> m h = Some (a, h') ->
    n <= length h' /\ firstn n h' = firstn n h /\ Q a.

Definition any {A} (a : A) : Prop := True.

(** A reference to an object that is not among the first [n]. *)
Definition fresh (n : nat) (v : val) : Prop :=
  exists l, v = VRef l /\ n <= l.

(** The store [h'] is the store [h] with new objects after it. *)
Definition extends (h h' : heap) : Prop := exists added, h' = h ++ added.

(** From the store [h] the computation returns, with a result and in a store
    that satisfy [Q], the store being [h] with new objects after it. *)
Definition returns {A} (m : H A) (h : heap) (Q : A -> heap -> Prop) : Prop :=
  exists a h', m h = Some (a, h') /\ extends h h' /\ Q a h'.

End View.

(** ** Properties of templates and values that the theorems speak of *)

(** No [$] at all. *)
Definition dollar_free (s : list ascii) : bool :=
  forallb (fun c => negb (Ascii.eqb c dollar)) s.

(** No [$$]. *)
Fixpoint no_escape (s : list ascii) : bool :=
  match s with
  | [] => true
  | c :: r =>
      match r with
      | d :: _ => negb (Ascii.eqb c dollar && Ascii.eqb d dollar)
      | [] => true
      end && no_escape r
  end.

(** The match is a placeholder, [$name] or [${name}], whose name is a key of
    the mapping. *)
Definition resolved (mapping : dict string) (m : dmatch) : bool :=
  match m with
  | Named name | Braced name => dict_has mapping (string_of_list_ascii name)
  | Escaped | Invalid => false
  end.

(** Every match of the pattern in the text is a placeholder for a key of the
    mapping: every [$] starts a placeholder that will be replaced. *)
Fixpoint all_resolved (mapping : dict string) (skip : nat) (s : list ascii)
  : bool :=
  match s with
  | [] => true
  | c :: rest =>
      match skip with
      | S k => all_resolved mapping k rest
      | O =>
          if Ascii.eqb c dollar then
            let '(m, n) := match_after_dollar rest in
            resolved mapping m && all_resolved mapping n rest
          else all_resolved mapping 0 rest
      end
  end.

Definition str_dollar_free (s : string) : bool :=
  dollar_free (list_ascii_of_string s).

Definition str_no_escape (s : string) : bool :=
  no_escape (list_ascii_of_string s).

Definition str_all_resolved (args : dict string) (s : string) : bool :=
  all_resolved args 0 (list_ascii_of_string s).

(** The values of the args hold no [$], so no placeholder. *)
Definition args_dollar_free (args : dict string) : bool :=
  forallb (fun kv => str_dollar_free (snd kv)) args.

Fixpoint val_all_resolved (args : dict string) (x : pyval) : bool :=
  match x with
  | PStr s => str_all_resolved args s
  | PList l => forallb (val_all_resolved args) l
  | PDict d =>
      forallb (fun kv => match kv with
                         | (k, v) => str_all_resolved args k && val_all_resolved args v
                         end) d
  | _ => true
  end.

(** The match leaves its [$] in the text: a placeholder whose name is no
    key of the mapping, or a [$] that begins no placeholder. *)
Definition kept (mapping : dict string) (m : dmatch) : bool :=
  match m with
  | Named name | Braced name =>
      negb (dict_has mapping (string_of_list_ascii name))
  | Invalid => true
  | Escaped => false
  end.

(** The text does not begin with a placeholder for a key of the mapping:
    resolution leaves its first character where it is. *)
Definition begins_kept (mapping : dict string) (s : list ascii) : bool :=
  match s with
  | c :: rest =>
      if Ascii.eqb c dollar
      then negb (resolved mapping (fst (match_after_dollar rest)))
      else true
  | [] => true
  end.

(** Of the text after a [$], what comes after the characters that decide
    the match and cannot be replaced: after the name of a [$name]; and for a
    [$] that begins no placeholder and is followed by a brace, after the brace
    and the identifier that follows it, if any. *)
Definition decisive_rest (rest : list ascii) : list ascii :=
  match fst (match_after_dollar rest) with
  | Named name => skipn (length name) rest
  | Invalid =>
      match rest with
      | c :: t =>
          if Ascii.eqb c lbrace then
            match t with
            | c2 :: _ =>
                if is_id_start c2
                then skipn (length (take_while is_id_char t)) t
                else t
            | [] => []
            end
          else []
      | [] => []
      end
  | Escaped | Braced _ => []
  end.

(** A [$] before the text [r] is left as it is, and what decides this is
    not followed by a placeholder for a key of the mapping. *)
Definition stays (mapping : dict string) (r : list ascii) : bool :=
  kept mapping (fst (match_after_dollar r))
  && begins_kept mapping (decisive_rest r).

(** Every [$] that resolution writes to the result (for a [$$], for a
    placeholder whose name is no key of the mapping, or for a [$] that begins
    no placeholder) comes before a text with which it [stays]. *)
Fixpoint steady (mapping : dict string) (skip : nat) (s : list ascii)
  : bool :=
  match s with
  | [] => true
  | c :: rest =>
      match skip with
      | S k => steady mapping k rest
      | O =>
          if Ascii.eqb c dollar then
            let '(m, n) := match_after_dollar rest in
            match m with
            | Escaped => stays mapping (skipn 1 rest)
            | _ => resolved mapping m || stays mapping rest
            end && steady mapping n rest
          else steady mapping 0 rest
      end
  end.

Definition str_steady (args : dict string) (s : string) : bool :=
  steady args 0 (list_ascii_of_string s).

Fixpoint val_steady (args : dict string) (x : pyval) : bool :=
  match x with
  | PStr s => str_steady args s
  | PList l => forallb (val_steady args) l
  | PDict d =>
      forallb (fun kv => match kv with
                         | (k, v) => str_steady args k && val_steady args v
                         end) d
  | _ => true
  end.

Fixpoint val_dollar_free (x : pyval) : bool :=
  match x with
  | PStr s => str_dollar_free s
  | PList l => forallb val_dollar_free l
  | PDict d =>
      forallb (fun kv => match kv with
                         | (k, v) => str_dollar_free k && val_dollar_free v
                         end) d
  | _ => true
  end.

(** Every dict inside the value has pairwise distinct keys. *)
Fixpoint val_wf (x : pyval) : bool :=
  match x with
  | PList l => forallb val_wf l
  | PDict d =>
      distinct (map fst d)
      && forallb (fun kv => match kv with (_, v) => val_wf v end) d
  | _ => true
  end.

(** No [$$] in the strings of a step, field by field. *)
Definition ostr_no_escape (x : option string) : bool :=
  match x with Some s => str_no_escape s | None => true end.

Definition env_no_escape (d : dict string) : bool :=
  forallb (fun kv => str_no_escape (fst kv) && str_no_escape (snd kv)) d.

Definition volume_no_escape (v : volume) : bool :=
  match v with
  | VolBind s => str_no_escape s
  | VolDetail d => env_no_escape d
  end.

Definition user_no_escape (x : option user_t) : bool :=
  match x with Some (UserName s) => str_no_escape s | _ => true end.

Definition step_no_escape (s : Step.t) : bool :=
  ostr_no_escape (Step.name s) && ostr_no_escape (Step.description s)
  && ostr_no_escape (Step.image s) && forallb str_no_escape (Step.command s)
  && forallb (fun kv => str_no_escape (fst kv) && volume_no_escape (snd kv))
             (Step.volumes s)
  && ostr_no_escape (Step.working_dir s)
  && forallb str_no_escape (Step.match_done s)
  && forallb str_no_escape (Step.match_in s)
  && forallb str_no_escape (Step.match_out s)
  && forallb str_no_escape (Step.match_summary s)
  && env_no_escape (Step.environment s)
  && user_no_escape (Step.user s)
  && ostr_no_escape (Step.network_mode s)
  && ostr_no_escape (Step.mac_address s).

(** The mappings of a step are dicts: their keys are pairwise distinct. *)
Definition volume_wf (v : volume) : bool :=
  match v with VolBind _ => true | VolDetail d => dict_wf d end.

Definition step_wf (s : Step.t) : bool :=
  dict_wf (Step.volumes s)
  && forallb (fun kv => volume_wf (snd kv)) (Step.volumes s)
  && dict_wf (Step.environment s).

(** A field that is absent or an empty list holds no value of its own. *)
Definition is_none {A} (x : option A) : bool :=
  match x with None => true | Some _ => false end.

Definition is_nil {A} (x : list A) : bool :=
  match x with [] => true | _ :: _ => false end.

(** The merged field is the step's own when that is truthy, and the
    prototype's when the step has none. *)
Definition kept_or_filled {A} (truthy unset : A -> bool) (own proto merged : A)
  : Prop :=
  (truthy own = true -> merged = own) /\ (unset own = true -> merged = proto).

(** The merged mapping is the prototype's overlaid by the step's: an entry
    of the step is kept, another key has the entry of the prototype. *)
Definition overlaid {V} (own proto merged : dict V) : Prop :=
  forall k, dict_get merged k = match dict_get own k with
                                | Some v => Some v
                                | None => dict_get proto k
                                end.

(** ** Properties of runs that the theorems speak of *)

(** A result with a nonzero exit code is the last one. *)
Definition stops_at_failure (step_results : list StepResult.t) : Prop :=
  forall front r back,
    step_results = front ++ r :: back ->
    truthy_int (StepResult.exit_code r) = true -> back = [].

(** No result has a nonzero exit code. *)
Definition ok_so_far (results : list StepResult.t) : Prop :=
  Forall (fun r => truthy_int (StepResult.exit_code r) = false) results.

(** [start], [finish] and [duration] are all set. *)
Definition timing_all_set (timing : option Timing.t) : bool :=
  match timing with
  | Some tm =>
      negb (is_none (Timing.start tm)) && negb (is_none (Timing.finish tm))
      && negb (is_none (Timing.duration tm))
  | None => false
  end.

(** Only [start] is set. *)
Definition timing_only_start (timing : option Timing.t) : bool :=
  match timing with
  | Some tm =>
      negb (is_none (Timing.start tm)) && is_none (Timing.finish tm)
      && is_none (Timing.duration tm)
  | None => false
  end.

Definition has_name (step : Step.t) : bool := negb (is_none (Step.name step)).

(** The lines of a text: the pieces that end with a newline, and what is
    left after the last newline when it is not empty. *)
Fixpoint lines_from (cur : string) (s : string) : list string :=
  match s with
  | EmptyString => match cur with EmptyString => [] | _ => [cur] end
  | String c r =>
      if Ascii.eqb c (ascii_of_nat 10)
      then cur :: lines_from "" r
      else lines_from (String.append cur (String c "")) r
  end.

Definition lines (s : string) : list string := lines_from "" s.

(** A line written between two attempts. *)
Definition is_retry_marker (line : string) : bool :=
  String.prefix "Container attempts/retries at " line.

Definition count_retry_markers (content : string) : nat :=
  length (filter is_retry_marker (lines content)).

(** ** Example data *)

(** Example data: a step that sets [gpus] to [False], [user] to [0] and
    [name] to the empty string, and has one volume; a prototype with other
    values. *)
Definition merge_step : Step.t :=
  {| Step.name := Some "";
     Step.description := None;
     Step.image := Some "ubuntu";
     Step.command := [];
     Step.volumes := [("/data", VolBind "/data")];
     Step.working_dir := None;
     Step.match_done := [];
     Step.match_in := [];
     Step.match_out := [];
     Step.match_summary := [];
     Step.environment := [];
     Step.gpus := Some false;
     Step.user := Some (UserId 0);
     Step.network_mode := None;
     Step.mac_address := None |}.

Definition merge_prototype : Step.t :=
  {| Step.name := Some "proto";
     Step.description := None;
     Step.image := Some "debian";
     Step.command := ["echo"; "hello"];
     Step.volumes := [("/scratch", VolBind "/scratch")];
     Step.working_dir := Some "/work";
     Step.match_done := [];
     Step.match_in := [];
     Step.match_out := [];
     Step.match_summary := [];
     Step.environment := [("HOME", "/root")];
     Step.gpus := Some true;
     Step.user := Some (UserName "host");
     Step.network_mode := None;
     Step.mac_address := None |}.

(** A pipeline without args and without prototype, whose one step echoes
    a text with an escaped [$]. *)
Definition escape_step : Step.t :=
  {| Step.name := Some "price";
     Step.description := None;
     Step.image := Some "ubuntu";
     Step.command := ["echo"; "costs $$5"];
     Step.volumes := [];
     Step.working_dir := None;
     Step.match_done := [];
     Step.match_in := [];
     Step.match_out := [];
     Step.match_summary := [];
     Step.environment := [];
     Step.gpus := None;
     Step.user := None;
     Step.network_mode := None;
     Step.mac_address := None |}.

Definition escape_pipeline : Pipeline.t :=
  {| Pipeline.version := "0.0.1";
     Pipeline.description := None;
     Pipeline.args := [];
     Pipeline.prototype := None;
     Pipeline.steps := [escape_step] |}.

(** The same, with placeholders that stay as they are. *)
Definition plain_pipeline : Pipeline.t :=
  {| Pipeline.version := "0.0.1";
     Pipeline.description := None;
     Pipeline.args := [];
     Pipeline.prototype := None;
     Pipeline.steps :=
       [ {| Step.name := Some "first step";
            Step.description := None;
            Step.image := Some "ubuntu";
            Step.command := ["echo"; "$HOME and ${USER} cost $5"];
            Step.volumes := [("/data", VolBind "/data");
                             ("/ref", VolDetail [("bind", "/ref"); ("mode", "ro")])];
            Step.working_dir := None;
            Step.match_done := ["*.done"];
            Step.match_in := [];
            Step.match_out := [];
            Step.match_summary := [];
            Step.environment := [("KEY", "$")];
            Step.gpus := Some false;
            Step.user := Some (UserId 1000);
            Step.network_mode := None;
            Step.mac_address := None |} ] |}.

(** An environment for examples: the clock advances by one second at each
    reading, the file matcher finds what the function says, the engine does
    what the function says, a path is the directory, a slash and the file
    name, and every file can be appended to. *)
Definition example_env (found : list string -> file_matches)
    (engine : nat -> Docker.attempt) : Env :=
  {| clock := fun n => (1000000 * Z.of_nat n)%Z;
     file_matcher := fun _ _ patterns => found patterns;
     engine := fun n _ => engine n;
     path_of := fun dir file => String.append dir (String.append "/" file);
     can_append := fun _ _ => true |}.

(** A state before a run; the log file of an earlier run of the step is
    still there. *)
Definition example_state : State :=
  {| clock_reads := 0;
     matcher_calls := 0;
     invocations := [];
     files := [("out/a_step.log", "an older run" ++ nl)%string];
     file_ops := [] |}.

Definition example_step (name : string) : Step.t :=
  {| Step.name := Some name;
     Step.description := None;
     Step.image := Some "ubuntu";
     Step.command := ["echo"; "hello"];
     Step.volumes := [("/data", VolBind "/data")];
     Step.working_dir := None;
     Step.match_done := ["*.done"];
     Step.match_in := ["*.in"];
     Step.match_out := ["*.out"];
     Step.match_summary := [];
     Step.environment := [];
     Step.gpus := None;
     Step.user := None;
     Step.network_mode := None;
     Step.mac_address := None |}.

Definition example_pipeline (steps : list Step.t) : Pipeline.t :=
  {| Pipeline.version := "0.0.1";
     Pipeline.description := None;
     Pipeline.args := [];
     Pipeline.prototype := None;
     Pipeline.steps := steps |}.

Definition server_error : Docker.exn :=
  {| Docker.cls := Docker.APIError false;
     Docker.type_name := "APIError";
     Docker.details := "500 Server Error: Internal Server Error" |}.

Definition client_error : Docker.exn :=
  {| Docker.cls := Docker.APIError true;
     Docker.type_name := "ImageNotFound";
     Docker.details := "404 Client Error: no such image" |}.

(** The file matcher finds nothing. *)
Definition nothing_found (patterns : list string) : file_matches := [].

(** The file matcher finds one input file, and nothing else. *)
Definition input_found (patterns : list string) : file_matches :=
  match patterns with
  | ["*.in"] => [("/data", [("a.in", "sha256:0a")])]
  | _ => []
  end.

(** The file matcher finds one done file, and nothing else. *)
Definition done_found (patterns : list string) : file_matches :=
  match patterns with
  | ["*.done"] => [("/data", [("a.done", "sha256:0d")])]
  | _ => []
  end.

(** The engine fails twice with a server error, then runs the container,
    which prints a line and exits with [0]. *)
Definition flaky_engine (n : nat) : Docker.attempt :=
  match n with
  | 0 | 1 => Docker.RunRaises server_error
  | _ => Docker.Streamed ["hello" ++ nl]%string (Docker.Exited 0 "sha256:1f")
  end.

(** The engine refuses every request with a client error. *)
Definition refusing_engine (n : nat) : Docker.attempt :=
  Docker.RunRaises client_error.

(** The first container exits with [0], every later one with [2]. *)
Definition second_fails_engine (n : nat) : Docker.attempt :=
  match n with
  | 0 => Docker.Streamed [] (Docker.Exited 0 "sha256:1f")
  | _ => Docker.Streamed [] (Docker.Exited 2 "sha256:1f")
  end.

(** A store with a pipeline of two steps and a prototype. The two steps
    share one list object as their command, and the empty list and the empty
    dict are shared by all. The last object is the dict of runtime args. *)
Definition example_step_obj (name : string) : Store.StepObj.t :=
  {| Store.StepObj.name := Store.VStr name;
     Store.StepObj.description := Store.VNone;
     Store.StepObj.image := Store.VNone;
     Store.StepObj.command := Store.VRef 1;
     Store.StepObj.volumes := Store.VRef 2;
     Store.StepObj.working_dir := Store.VNone;
     Store.StepObj.match_done := Store.VRef 4;
     Store.StepObj.match_in := Store.VRef 4;
     Store.StepObj.match_out := Store.VRef 4;
     Store.StepObj.match_summary := Store.VRef 4;
     Store.StepObj.environment := Store.VRef 5;
     Store.StepObj.gpus := Store.VNone;
     Store.StepObj.user := Store.VInt 1000;
     Store.StepObj.network_mode := Store.VNone;
     Store.StepObj.mac_address := Store.VNone |}.

Definition example_prototype_obj : Store.StepObj.t :=
  {| Store.StepObj.name := Store.VNone;
     Store.StepObj.description := Store.VNone;
     Store.StepObj.image := Store.VStr "ubuntu";
     Store.StepObj.command := Store.VRef 4;
     Store.StepObj.volumes := Store.VRef 5;
     Store.StepObj.working_dir := Store.VStr "$data_dir";
     Store.StepObj.match_done := Store.VRef 4;
     Store.StepObj.match_in := Store.VRef 4;
     Store.StepObj.match_out := Store.VRef 4;
     Store.StepObj.match_summary := Store.VRef 4;
     Store.StepObj.environment := Store.VRef 5;
     Store.StepObj.gpus := Store.VBool true;
     Store.StepObj.user := Store.VNone;
     Store.StepObj.network_mode := Store.VNone;
     Store.StepObj.mac_address := Store.VNone |}.

Definition example_heap : Store.heap :=
  [ Store.ODict [("data_dir", Store.VStr "/default"); ("who", Store.VStr "world")];
    Store.OList [Store.VStr "echo"; Store.VStr "hello ${who} in $data_dir"];
    Store.ODict [("$data_dir", Store.VStr "/data"); ("/ref", Store.VRef 3)];
    Store.ODict [("bind", Store.VStr "/ref"); ("mode", Store.VStr "ro")];
    Store.OList [];
    Store.ODict [];
    Store.OStep (example_step_obj "one");
    Store.OStep (example_step_obj "two");
    Store.OStep example_prototype_obj;
    Store.OList [Store.VRef 6; Store.VRef 7];
    Store.OPipeline
      {| Store.PipelineObj.version := Store.VStr "0.0.1";
         Store.PipelineObj.description := Store.VNone;
         Store.PipelineObj.args := Store.VRef 0;
         Store.PipelineObj.prototype := Store.VRef 8;
         Store.PipelineObj.steps := Store.VRef 9 |};
    Store.ODict [("data_dir", Store.VStr "/custom"); ("extra", Store.VStr "x")] ].

(** ** Further definitions: args and templates *)

(** The value [_combine_args] accepts for a declared key: the runtime value
    when there is one, the declared default otherwise. *)
Definition accepted_value (declared runtime : dict string) (k : string)
  : string :=
  match dict_get runtime k with
  | Some v => v
  | None => match dict_get declared k with Some v => v | None => "" end
  end.

(** No declared key is among the runtime args. *)
Definition no_runtime_value (declared runtime : dict string) : bool :=
  forallb (fun k => negb (dict_has runtime k)) (keys declared).

(** An identifier of the pattern of [string.Template]. *)
Definition is_identifier (name : string) : bool :=
  match list_ascii_of_string name with
  | c :: r => is_id_start c && forallb is_id_char r
  | [] => false
  end.

(** The text does not go on with a character of an identifier. *)
Definition ends_identifier (rest : string) : bool :=
  match rest with
  | String c _ => negb (is_id_char c)
  | EmptyString => true
  end.

(** What a placeholder for [name] becomes: the value of the arg, or the
    placeholder itself when there is no such arg. *)
Definition replacement (args : dict string) (name placeholder : string)
  : string :=
  match dict_get args name with
  | Some v => v
  | None => placeholder
  end.

(** No [$] in the strings of a step, field by field. *)
Definition ostr_dollar_free (x : option string) : bool :=
  match x with Some s => str_dollar_free s | None => true end.

Definition env_dollar_free (d : dict string) : bool :=
  forallb (fun kv => str_dollar_free (fst kv) && str_dollar_free (snd kv)) d.

Definition volume_dollar_free (v : volume) : bool :=
  match v with
  | VolBind s => str_dollar_free s
  | VolDetail d => env_dollar_free d
  end.

Definition user_dollar_free (x : option user_t) : bool :=
  match x with Some (UserName s) => str_dollar_free s | _ => true end.

Definition step_dollar_free (s : Step.t) : bool :=
  ostr_dollar_free (Step.name s) && ostr_dollar_free (Step.description s)
  && ostr_dollar_free (Step.image s) && forallb str_dollar_free (Step.command s)
  && forallb (fun kv => str_dollar_free (fst kv) && volume_dollar_free (snd kv))
             (Step.volumes s)
  && ostr_dollar_free (Step.working_dir s)
  && forallb str_dollar_free (Step.match_done s)
  && forallb str_dollar_free (Step.match_in s)
  && forallb str_dollar_free (Step.match_out s)
  && forallb str_dollar_free (Step.match_summary s)
  && env_dollar_free (Step.environment s)
  && user_dollar_free (Step.user s)
  && ostr_dollar_free (Step.network_mode s)
  && ostr_dollar_free (Step.mac_address s).

(** The pipeline of the documentation of [Pipeline.args], and a pipeline
    with two declared args. *)
Definition two_args_pipeline : Pipeline.t :=
  {| Pipeline.version := "0.0.1";
     Pipeline.description := None;
     Pipeline.args := [("a", "1"); ("b", "2")];
     Pipeline.prototype := None;
     Pipeline.steps := [] |}.

(** After a [$], the text goes on with neither a second [$], nor the start
    of an identifier, nor a brace: the [$] is no placeholder. *)
Definition plain_after_dollar (rest : string) : bool :=
  match rest with
  | String c _ =>
      negb (Ascii.eqb c dollar) && negb (is_id_start c)
      && negb (Ascii.eqb c lbrace)
  | EmptyString => true
  end.

(** A pipeline that declares an arg its one step does not use. *)
Definition dollar_free_pipeline : Pipeline.t :=
  {| Pipeline.version := "0.0.1";
     Pipeline.description := None;
     Pipeline.args := [("data_dir", "/data")];
     Pipeline.prototype := None;
     Pipeline.steps :=
       [ {| Step.name := Some "list";
            Step.description := None;
            Step.image := Some "ubuntu";
            Step.command := ["ls"; "/data"];
            Step.volumes := [("/data", VolBind "/data");
                             ("/ref", VolDetail [("bind", "/ref"); ("mode", "ro")])];
            Step.working_dir := None;
            Step.match_done := ["*.done"];
            Step.match_in := [];
            Step.match_out := [];
            Step.match_summary := [];
            Step.environment := [("KEY", "value")];
            Step.gpus := Some false;
            Step.user := Some (UserId 1000);
            Step.network_mode := None;
            Step.mac_address := None |} ] |}.

(** ** Further definitions: runs *)

(** The file of an operation. *)
Definition op_path (op : file_op) : string :=
  match op with
  | Truncate path => path
  | Append path _ => path
  end.

(** An error that [run_container] retries: a server-side [APIError], or an
    exception that is no [DockerException]. *)
Definition retried_error (e : Docker.exn) : bool :=
  match Docker.cls e with
  | Docker.APIError false | Docker.OtherException => true
  | Docker.APIError true | Docker.DockerException => false
  end.

(** The attempt raises before the log file is opened. *)
Definition raised_at_start (a : Docker.attempt) : option Docker.exn :=
  match a with
  | Docker.RunRaises e => Some e
  | Docker.Streamed _ _ => None
  end.

(** The attempt raises before the log file is opened, with an error that is
    retried. *)
Definition fails_to_start (a : Docker.attempt) : bool :=
  match raised_at_start a with
  | Some e => retried_error e
  | None => false
  end.

(** The lines appended to the log after the attempts [attempts + 1], ...,
    [attempts + n]. *)
Definition retry_lines (log_path : string) (max_attempts attempts n : nat)
  : list file_op :=
  map (fun i => Append log_path (retry_log_message (attempts + S i) max_attempts))
      (seq 0 n).

(** The content of a file, the empty text when there is no file. *)
Definition content_of (files : dict string) (path : string) : string :=
  match dict_get files path with
  | Some content => content
  | None => ""
  end.

(** From [st] to [st'], files were written to only among [paths]. *)
Definition writes_within (paths : list string) (st st' : State) : Prop :=
  (exists ops, file_ops st' = file_ops st ++ ops
               /\ Forall (fun op => In (op_path op) paths) ops)
  /\ (forall p, ~ In p paths -> dict_get (files st') p = dict_get (files st) p).

(** The steps [run_pipeline] does not leave out. *)
Definition selected (step_names : option (list string)) (steps : list Step.t)
  : list Step.t :=
  filter (fun step => negb (left_out step_names step)) steps.

(** Each step as many times as the number beside it. *)
Definition repeat_each (steps : list Step.t) (ks : list nat) : list Step.t :=
  concat (map (fun sk => repeat (fst sk) (snd sk)) (combine steps ks)).

(** The log files of steps. *)
Definition log_paths (env : Env) (execution_path : string)
    (steps : list Step.t) : list string :=
  flat_map (fun step =>
              match Step.name step with
              | Some name =>
                  [path_of env execution_path
                     (String.append (replace_spaces name) ".log")]
              | None => []
              end) steps.

(** The engine is down: every request ends with a server error. *)
Definition down_engine (n : nat) : Docker.attempt :=
  Docker.RunRaises server_error.

(** The first container prints two lines and exits with [7]. *)
Definition failing_container_engine (n : nat) : Docker.attempt :=
  Docker.Streamed ["one" ++ nl; "two" ++ nl]%string (Docker.Exited 7 "sha256:2a").

(** What [run_step] finds for [match_done] of a step, from a state. *)
Definition done_files (env : Env) (step : Step.t) (st : State) : file_matches :=
  file_matcher env (matcher_calls st) (keys (Step.volumes step))
               (Step.match_done step).

(** [run_step] goes on to run the container: no done files were found, or
    [force_rerun] is set. *)
Definition goes_on (env : Env) (step : Step.t) (force_rerun : bool)
    (st : State) : bool :=
  negb (truthy_dict (done_files env step st) && negb force_rerun).

(** The third container exits with [2], the others with [0]. *)
Definition third_fails_engine (n : nat) : Docker.attempt :=
  match n with
  | 2 => Docker.Streamed [] (Docker.Exited 2 "sha256:1f")
  | _ => Docker.Streamed [] (Docker.Exited 0 "sha256:1f")
  end.

(** Every container exits with [0]. *)
Definition working_engine (n : nat) : Docker.attempt :=
  Docker.Streamed [] (Docker.Exited 0 "sha256:1f").

Definition abc_pipeline : Pipeline.t :=
  example_pipeline [example_step "a"; example_step "b"; example_step "c"].

(** ** [docker_runner.py]: the volumes passed to the engine *)

(** [volumes_to_dictionaries(volumes, default_mode)]. *)
Definition volumes_to_dictionaries (volumes : dict volume)
    (default_mode : string) : dict (dict string) :=
  fold_left
    (fun normalized kv =>
       match snd kv with
       | VolBind v =>
           dict_set normalized (fst kv) [("bind", v); ("mode", default_mode)]
       | VolDetail v => dict_set normalized (fst kv) v
       end)
    volumes [].

(** [volumes_to_absolute_host(volumes)]; [absolute_posix k] is
    [Path(k).absolute().as_posix()], which depends on the working directory
    of the process. *)
Definition volumes_to_absolute_host (absolute_posix : string -> string)
    (volumes : dict (dict string)) : dict (dict string) :=
  dict_of_items (map (fun kv => (absolute_posix (fst kv), snd kv)) volumes).

(** The detail mapping of a volume. *)
Definition volume_detail (default_mode : string) (v : volume) : dict string :=
  match v with
  | VolBind container_path => [("bind", container_path); ("mode", default_mode)]
  | VolDetail detail => detail
  end.

(** Among the entries of [d], the value, under [vf], of the last one whose
    key, under [kf], is [p]. *)
Definition last_entry {V W} (kf : string -> string) (vf : V -> W)
    (d : dict V) (p : string) : option W :=
  fold_left (fun found kv =>
               if String.eqb (kf (fst kv)) p then Some (vf (snd kv)) else found)
            d None.

(** Example data: volumes of a step, and the absolute path of a host path
    for a process that works in [/home/me]. *)
Definition example_volumes : dict volume :=
  [("data", VolBind "/data");
   ("/ref", VolDetail [("bind", "/ref"); ("mode", "ro")]);
   ("/home/me/data", VolBind "/other")].

Definition absolute_in_home (k : string) : string :=
  match k with
  | String "/" _ => k
  | _ => String.append "/home/me/" k
  end.

(** ** Further definitions: the timing of a run *)

(** The timing of a run that goes from [st] to [st']: [start] is the time
    of the first reading of the clock, [finish] the time of the last one. *)
Definition run_timing (env : Env) (st st' : State) : Timing.t :=
  Timing.mk (Some (clock env (clock_reads st)))
            (Some (clock env (pred (clock_reads st'))))
            (Some (clock env (pred (clock_reads st'))
                   - clock env (clock_reads st))%Z).

(** The clock advances from each reading to the next. *)
Definition clock_advances (env : Env) : Prop :=
  forall m n, m < n -> (clock env m < clock env n)%Z.

(** An environment whose clock stands still: every reading gives the same
    time. *)
Definition frozen_env (found : list string -> file_matches)
    (engine : nat -> Docker.attempt) : Env :=
  {| clock := fun _ => 1700000000000000%Z;
     file_matcher := fun _ _ patterns => found patterns;
     engine := fun n _ => engine n;
     path_of := fun dir file => String.append dir (String.append "/" file);
     can_append := fun _ _ => true |}.

(* ===================================================================== *)
(** * Part II. Theorems                                                   *)
(* ===================================================================== *)

(** ** The template scanner on examples *)

Example safe_substitute_doc :
  safe_substitute [("data_dir", "/custom/data_dir"); ("data_file", "default_file")]
                  "Working on: $data_dir/${data_file}.txt"
  = "Working on: /custom/data_dir/default_file.txt".
Proof. reflexivity. Qed.

Example safe_substitute_cases :
  safe_substitute [("a", "X")] "$a ${a} $b ${b} $$a $ ${a ${} $1 $a_b ${a}b"
  = "X X $b ${b} $a $ ${a ${} $1 $a_b Xb".
Proof. reflexivity. Qed.

(** ** Python dictionaries *)

Section DictFacts.

Context {V : Type}.
Implicit Types (d : dict V) (k : string) (v : V).

Lemma existsb_eqb_In k (l : list string) :
  existsb (String.eqb k) l = true <-> In k l.
Proof.
  rewrite existsb_exists; split.
  - intros (x & Hin & Heq). apply String.eqb_eq in Heq. now subst.
  - intros Hin. exists k. split; [assumption | apply String.eqb_refl].
Qed.

Lemma distinct_NoDup (l : list string) : distinct l = true <-> NoDup l.
Proof.
  induction l as [|k l IH]; simpl.
  - split; [constructor | reflexivity].
  - rewrite andb_true_iff, negb_true_iff, IH. split.
    + intros [Hk Hl]. constructor; [|assumption].
      intros Hin. apply existsb_eqb_In in Hin. congruence.
    + intros Hnd. inversion Hnd as [|? ? Hk Hl]; subst. split; [|assumption].
      destruct (existsb (String.eqb k) l) eqn:E; [|reflexivity].
      apply existsb_eqb_In in E. contradiction.
Qed.

Lemma dict_set_fresh d k v :
  ~ In k (keys d) -> dict_set d k v = d ++ [(k, v)].
Proof.
  induction d as [|[k' v'] d IH]; simpl; intros Hk; [reflexivity|].
  destruct (String.eqb k k') eqn:E.
  - apply String.eqb_eq in E. subst. exfalso. apply Hk. now left.
  - rewrite IH; [reflexivity|]. intros Hin. apply Hk. now right.
Qed.

Lemma keys_dict_set d k v :
  keys (dict_set d k v) = if existsb (String.eqb k) (keys d)
                          then keys d else keys d ++ [k].
Proof.
  induction d as [|[k' v'] d IH]; simpl; [reflexivity|].
  destruct (String.eqb k k') eqn:E; simpl; [reflexivity|].
  rewrite IH. now destruct (existsb (String.eqb k) (keys d)).
Qed.

Lemma dict_set_wf d k v : dict_wf d = true -> dict_wf (dict_set d k v) = true.
Proof.
  unfold dict_wf. rewrite keys_dict_set.
  destruct (existsb (String.eqb k) (keys d)) eqn:E; [trivial|].
  rewrite !distinct_NoDup. intros Hnd.
  apply NoDup_rev in Hnd. rewrite <- (rev_involutive (keys d ++ [k])).
  apply NoDup_rev. rewrite rev_app_distr. simpl. constructor; [|assumption].
  rewrite <- in_rev. intros Hin. apply existsb_eqb_In in Hin. congruence.
Qed.

Lemma fold_dict_set_wf (items : list (string * V)) d :
  dict_wf d = true ->
  dict_wf (fold_left (fun acc kv => dict_set acc (fst kv) (snd kv)) items d) = true.
Proof.
  revert d. induction items as [|[k v] items IH]; simpl; intros d Hd;
    [assumption|]. apply IH. now apply dict_set_wf.
Qed.

(** A dict that is built has pairwise distinct keys. *)
Lemma dict_of_items_wf (items : list (string * V)) :
  dict_wf (dict_of_items items) = true.
Proof. apply fold_dict_set_wf. reflexivity. Qed.

Lemma fold_dict_set_distinct (items : list (string * V)) d :
  NoDup (keys (d ++ items)) ->
  fold_left (fun acc kv => dict_set acc (fst kv) (snd kv)) items d = d ++ items.
Proof.
  revert d. induction items as [|[k v] items IH]; simpl; intros d Hnd.
  - now rewrite app_nil_r.
  - assert (Hk : ~ In k (keys d)).
    { unfold keys in *. rewrite map_app in Hnd. simpl in Hnd.
      apply NoDup_remove_2 in Hnd. intros Hin. apply Hnd.
      apply in_or_app. now left. }
    rewrite (dict_set_fresh d k v Hk), IH, <- app_assoc; [reflexivity|].
    now rewrite <- app_assoc.
Qed.

(** Inserting the items of a dict one after the other gives the dict
    back. *)
Lemma dict_of_items_id d : dict_wf d = true -> dict_of_items d = d.
Proof.
  intros Hd. unfold dict_of_items.
  rewrite fold_dict_set_distinct; [reflexivity|].
  simpl. now apply distinct_NoDup.
Qed.

Lemma dict_set_Forall (Q : string * V -> Prop) d k v :
  Forall Q d -> Q (k, v) -> Forall Q (dict_set d k v).
Proof.
  induction d as [|[k' v'] d IH]; simpl; intros Hd Hq.
  - now constructor.
  - inversion Hd; subst. destruct (String.eqb k k') eqn:E.
    + apply String.eqb_eq in E. subst. now constructor.
    + constructor; [assumption | now apply IH].
Qed.

Lemma fold_dict_set_Forall (Q : string * V -> Prop) (items : list (string * V)) d :
  Forall Q d -> Forall Q items ->
  Forall Q (fold_left (fun acc kv => dict_set acc (fst kv) (snd kv)) items d).
Proof.
  revert d. induction items as [|[k v] items IH]; simpl; intros d Hd Hi;
    [assumption|]. inversion Hi; subst.
  apply IH; [now apply dict_set_Forall | assumption].
Qed.

(** What holds of every item holds of every entry of the dict built from
    the items. *)
Lemma dict_of_items_Forall (Q : string * V -> Prop) (items : list (string * V)) :
  Forall Q items -> Forall Q (dict_of_items items).
Proof. intros. now apply fold_dict_set_Forall. Qed.

End DictFacts.

(** ** The template scanner *)

Section TemplateFacts.

Implicit Types (s rest : list ascii) (mapping : dict string).

Lemma firstn_take_while (p : ascii -> bool) s :
  firstn (length (take_while p s)) s = take_while p s.
Proof.
  induction s as [|c s IH]; simpl; [reflexivity|].
  destruct (p c); simpl; [now rewrite IH | reflexivity].
Qed.

Lemma firstn_succ_skipn {A} (l : list A) n x r :
  skipn n l = x :: r -> firstn (n + 1) l = firstn n l ++ [x].
Proof.
  revert l. induction n as [|n IH]; intros [|y l]; simpl; try discriminate.
  - intros [= -> _]. reflexivity.
  - intros H. now rewrite (IH _ H).
Qed.

(** The text of a match is the [$] and the characters the match covers. *)
Lemma group0_covers rest m n :
  match_after_dollar rest = (m, n) -> m <> Escaped ->
  group0 m = dollar :: firstn n rest.
Proof.
  unfold match_after_dollar. destruct rest as [|c tl].
  - intros [= <- <-] _. reflexivity.
  - destruct (Ascii.eqb c dollar); [intros [= <- _] H; now elim H|].
    destruct (is_id_start c).
    + intros H _. apply pair_equal_spec in H as [<- <-].
      unfold group0. now rewrite firstn_take_while.
    + destruct (Ascii.eqb c lbrace) eqn:Ec; [|intros [= <- <-] _; reflexivity].
      apply Ascii.eqb_eq in Ec. subst c.
      destruct tl as [|c2 tl']; [intros [= <- <-] _; reflexivity|].
      destruct (is_id_start c2); [|intros [= <- <-] _; reflexivity].
      destruct (skipn _ (c2 :: tl')) as [|c3 r] eqn:Es;
        [intros [= <- <-] _; reflexivity|].
      destruct (Ascii.eqb c3 rbrace) eqn:E3; [|intros [= <- <-] _; reflexivity].
      apply Ascii.eqb_eq in E3. subst c3.
      intros H _. apply pair_equal_spec in H as [<- <-]. unfold group0.
      replace (length (take_while is_id_char (c2 :: tl')) + 2)
        with (S (length (take_while is_id_char (c2 :: tl')) + 1)) by lia.
      rewrite firstn_cons, (firstn_succ_skipn _ _ _ _ Es), firstn_take_while.
      reflexivity.
Qed.

(** The match after a [$] is the escape only when a second [$] follows. *)
Lemma match_escaped rest m n :
  match_after_dollar rest = (m, n) -> m = Escaped ->
  exists tl, rest = dollar :: tl.
Proof.
  unfold match_after_dollar. destruct rest as [|c tl]; [intros [= <- _]; discriminate|].
  destruct (Ascii.eqb c dollar) eqn:Ec.
  - apply Ascii.eqb_eq in Ec. subst. intros _ _. now exists tl.
  - destruct (is_id_start c); [intros [= <- _]; discriminate|].
    destruct (Ascii.eqb c lbrace); [|intros [= <- _]; discriminate].
    destruct tl as [|c2 tl']; [intros [= <- _]; discriminate|].
    destruct (is_id_start c2); [|intros [= <- _]; discriminate].
    destruct (skipn _ _) as [|c3 r]; [intros [= <- _]; discriminate|].
    destruct (Ascii.eqb c3 rbrace); intros [= <- _]; discriminate.
Qed.

Lemma convert_no_args m : m <> Escaped -> convert [] m = group0 m.
Proof. destruct m; simpl; intros H; try reflexivity. now elim H. Qed.

(** With no args, a text without [$$] is left as it is. *)
Lemma sub_no_args_no_escape s :
  forall skip, no_escape s = true -> sub [] skip s = skipn skip s.
Proof.
  induction s as [|c rest IH]; intros skip Hs; [now destruct skip|].
  simpl in Hs. apply andb_true_iff in Hs as [Hc Hrest].
  destruct skip as [|k]; simpl; [|now apply IH].
  destruct (Ascii.eqb c dollar) eqn:Ec.
  - apply Ascii.eqb_eq in Ec. subst c.
    destruct (match_after_dollar rest) as [m n] eqn:Em.
    assert (Hm : m <> Escaped).
    { intros ->. destruct (match_escaped _ _ _ Em eq_refl) as [tl ->].
      cbv in Hc. discriminate. }
    rewrite (convert_no_args _ Hm), (group0_covers _ _ _ Em Hm), (IH n Hrest).
    simpl. now rewrite firstn_skipn.
  - now rewrite (IH 0 Hrest).
Qed.

(** A text without [$] is left as it is, whatever the args. *)
Lemma sub_dollar_free mapping s :
  dollar_free s = true -> sub mapping 0 s = s.
Proof.
  induction s as [|c rest IH]; simpl; [reflexivity|].
  intros H. apply andb_true_iff in H as [Hc Hrest].
  apply negb_true_iff in Hc. rewrite Hc. now rewrite IH.
Qed.

Lemma dollar_free_app s1 s2 :
  dollar_free (s1 ++ s2) = dollar_free s1 && dollar_free s2.
Proof. apply forallb_app. Qed.

Lemma dict_get_In {V} (d : dict V) k v : dict_get d k = Some v -> In (k, v) d.
Proof.
  induction d as [|[k' v'] d IH]; simpl; [discriminate|].
  destruct (String.eqb k k') eqn:E.
  - apply String.eqb_eq in E. intros [= ->]. subst. now left.
  - intros H. right. now apply IH.
Qed.

(** When every [$] of the text starts a placeholder for a key of the args,
    and no value of the args holds a [$], the result holds no [$]. *)
Lemma sub_all_resolved mapping s :
  args_dollar_free mapping = true ->
  forall skip, all_resolved mapping skip s = true ->
               dollar_free (sub mapping skip s) = true.
Proof.
  intros Hargs. induction s as [|c rest IH]; intros skip Hs; [reflexivity|].
  destruct skip as [|k]; simpl in *; [|now apply IH].
  destruct (Ascii.eqb c dollar) eqn:Ec.
  - destruct (match_after_dollar rest) as [m n].
    apply andb_true_iff in Hs as [Hm Hrest].
    rewrite dollar_free_app, (IH n Hrest), andb_true_r.
    unfold resolved, dict_has in Hm. unfold convert.
    destruct m as [|name|name|]; try discriminate;
      (destruct (dict_get mapping (string_of_list_ascii name)) as [v|] eqn:Ev;
       [|discriminate]; apply dict_get_In in Ev;
       unfold args_dollar_free in Hargs; rewrite forallb_forall in Hargs;
       apply (Hargs _ Ev)).
  - simpl. rewrite Ec. simpl. now apply IH.
Qed.

Lemma safe_substitute_no_args (x : string) :
  str_no_escape x = true -> safe_substitute [] x = x.
Proof.
  intros H. unfold safe_substitute.
  rewrite (sub_no_args_no_escape _ 0 H). simpl.
  apply string_of_list_ascii_of_string.
Qed.

Lemma safe_substitute_dollar_free (args : dict string) (x : string) :
  str_dollar_free x = true -> safe_substitute args x = x.
Proof.
  intros H. unfold safe_substitute. rewrite (sub_dollar_free _ _ H).
  apply string_of_list_ascii_of_string.
Qed.

Lemma safe_substitute_all_resolved (args : dict string) (x : string) :
  args_dollar_free args = true -> str_all_resolved args x = true ->
  str_dollar_free (safe_substitute args x) = true.
Proof.
  intros Ha H. unfold safe_substitute, str_dollar_free.
  rewrite list_ascii_of_string_of_list_ascii. now apply sub_all_resolved.
Qed.

End TemplateFacts.

(** ** [safe_substitute], match by match *)

Section SubstituteFacts.

Variable args : dict string.

Lemma list_ascii_of_string_app (a b : string) :
  list_ascii_of_string (String.append a b)
  = list_ascii_of_string a ++ list_ascii_of_string b.
Proof. induction a as [|c a IH]; simpl; [reflexivity | now rewrite IH]. Qed.

Lemma string_of_list_ascii_app (a b : list ascii) :
  string_of_list_ascii (a ++ b)
  = String.append (string_of_list_ascii a) (string_of_list_ascii b).
Proof. induction a as [|c a IH]; simpl; [reflexivity | now rewrite IH]. Qed.

(** Passing over [n] characters is going on after them. *)
Lemma sub_skip (n : nat) (s : list ascii) :
  sub args n s = sub args 0 (skipn n s).
Proof.
  revert n. induction s as [|c s IH]; intros [|n]; simpl; try reflexivity.
  apply IH.
Qed.

(** One match at a [$]. *)
Lemma sub_at_dollar (rest : list ascii) :
  sub args 0 (dollar :: rest)
  = convert args (fst (match_after_dollar rest))
    ++ sub args 0 (skipn (snd (match_after_dollar rest)) rest).
Proof.
  change (sub args 0 (dollar :: rest))
    with (let '(m, n) := match_after_dollar rest in
          convert args m ++ sub args n rest).
  destruct (match_after_dollar rest) as [m n]. cbn [fst snd].
  now rewrite sub_skip.
Qed.

Lemma sub_prefix (p s : list ascii) :
  dollar_free p = true -> sub args 0 (p ++ s) = p ++ sub args 0 s.
Proof.
  induction p as [|c p IH]; simpl; [reflexivity|].
  intros H. apply andb_true_iff in H as [Hc Hp].
  apply negb_true_iff in Hc. rewrite Hc. now rewrite IH.
Qed.

Lemma take_while_app (p : ascii -> bool) (a s : list ascii) :
  forallb p a = true ->
  match s with c :: _ => p c = false | [] => True end ->
  take_while p (a ++ s) = a.
Proof.
  induction a as [|c a IH]; simpl; intros Ha Hs.
  - destruct s as [|c s]; simpl; [reflexivity | now rewrite Hs].
  - apply andb_true_iff in Ha as [Hc Ha]. rewrite Hc. now rewrite IH.
Qed.

Lemma is_id_start_char c : is_id_start c = true -> is_id_char c = true.
Proof. unfold is_id_char. now intros ->. Qed.

(** The match at a [$] that is followed by an identifier which the text
    does not continue. *)
Lemma match_named (name rest : list ascii) c r :
  name = c :: r -> is_id_start c = true -> forallb is_id_char r = true ->
  match rest with x :: _ => is_id_char x = false | [] => True end ->
  match_after_dollar (name ++ rest) = (Named name, length name).
Proof.
  intros -> Hc Hr Hrest.
  assert (Ed : Ascii.eqb c dollar = false).
  { destruct (Ascii.eqb c dollar) eqn:Ed; [|reflexivity].
    apply Ascii.eqb_eq in Ed. subst c. cbv in Hc. discriminate. }
  assert (Ht : take_while is_id_char ((c :: r) ++ rest) = c :: r).
  { apply take_while_app; [|exact Hrest].
    simpl. now rewrite (is_id_start_char _ Hc). }
  unfold match_after_dollar. rewrite Ht.
  change ((c :: r) ++ rest) with (c :: (r ++ rest)). cbv iota.
  now rewrite Ed, Hc.
Qed.

(** The match at a [$] that is followed by an identifier in braces. *)
Lemma match_braced (name rest : list ascii) c r :
  name = c :: r -> is_id_start c = true -> forallb is_id_char r = true ->
  match_after_dollar (lbrace :: name ++ rbrace :: rest)
  = (Braced name, length name + 2).
Proof.
  intros -> Hc Hr.
  assert (Ht : take_while is_id_char ((c :: r) ++ rbrace :: rest) = c :: r).
  { apply take_while_app; [|reflexivity].
    simpl. now rewrite (is_id_start_char _ Hc). }
  assert (Hk : skipn (length (c :: r)) ((c :: r) ++ rbrace :: rest)
               = rbrace :: rest).
  { now rewrite skipn_app, skipn_all, Nat.sub_diag. }
  unfold match_after_dollar.
  change (Ascii.eqb lbrace dollar) with false.
  change (is_id_start lbrace) with false.
  change (Ascii.eqb lbrace lbrace) with true. cbv iota.
  rewrite Ht, Hk.
  change ((c :: r) ++ rbrace :: rest) with (c :: (r ++ rbrace :: rest)).
  cbv iota. rewrite Hc.
  change (Ascii.eqb rbrace rbrace) with true. reflexivity.
Qed.

End SubstituteFacts.

Lemma is_identifier_chars (name : string) :
  is_identifier name = true ->
  exists c r, list_ascii_of_string name = c :: r
              /\ is_id_start c = true /\ forallb is_id_char r = true.
Proof.
  unfold is_identifier. destruct (list_ascii_of_string name) as [|c r];
    [discriminate|].
  intros H. apply andb_true_iff in H as [Hc Hr]. now exists c, r.
Qed.

(** ** Texts that resolution settles at once *)

Section SteadyFacts.

Variable args : dict string.
Hypothesis Hargs : args_dollar_free args = true.

Lemma take_while_forallb (p : ascii -> bool) (s : list ascii) :
  forallb p (take_while p s) = true.
Proof.
  induction s as [|c s IH]; simpl; [reflexivity|].
  destruct (p c) eqn:E; simpl; [now rewrite E | reflexivity].
Qed.

Lemma take_while_stops (p : ascii -> bool) (s : list ascii) :
  match skipn (length (take_while p s)) s with
  | c :: _ => p c = false
  | [] => True
  end.
Proof.
  induction s as [|c s IH]; simpl; [exact I|].
  destruct (p c) eqn:E; simpl; [exact IH | exact E].
Qed.

Lemma take_while_split (p : ascii -> bool) (s : list ascii) :
  s = take_while p s ++ skipn (length (take_while p s)) s.
Proof. now rewrite <- (firstn_take_while p s) at 1; rewrite firstn_skipn. Qed.

Lemma id_chars_dollar_free (l : list ascii) :
  forallb is_id_char l = true -> dollar_free l = true.
Proof.
  induction l as [|c l IH]; simpl; [reflexivity|].
  intros H. apply andb_true_iff in H as [Hc Hl]. rewrite (IH Hl), andb_true_r.
  destruct (Ascii.eqb c dollar) eqn:E; [|reflexivity].
  apply Ascii.eqb_eq in E. subst c. cbv in Hc. discriminate.
Qed.

(** The characters a match covers after its [$] hold no [$], unless it is
    the escape. *)
Lemma covered_dollar_free (rest : list ascii) m n :
  match_after_dollar rest = (m, n) -> m <> Escaped ->
  dollar_free (firstn n rest) = true.
Proof.
  intros Em Hm. pose proof (group0_covers _ _ _ Em Hm) as Hg.
  destruct m as [|name|name|]; [now elim Hm| | |].
  - unfold match_after_dollar in Em. destruct rest as [|c tl]; [discriminate|].
    destruct (Ascii.eqb c dollar); [discriminate|].
    destruct (is_id_start c).
    + apply pair_equal_spec in Em as [Hn <-].
      assert (name = take_while is_id_char (c :: tl)) as -> by congruence.
      rewrite firstn_take_while. apply id_chars_dollar_free, take_while_forallb.
    + destruct (Ascii.eqb c lbrace); [|discriminate].
      destruct tl as [|c2 tl']; [discriminate|].
      destruct (is_id_start c2); [|discriminate].
      destruct (skipn _ _) as [|c3 r]; [discriminate|].
      destruct (Ascii.eqb c3 rbrace); discriminate.
  - unfold group0 in Hg. injection Hg as Hg. rewrite <- Hg.
    unfold match_after_dollar in Em. destruct rest as [|c tl]; [discriminate|].
    destruct (Ascii.eqb c dollar); [discriminate|].
    destruct (is_id_start c); [discriminate|].
    destruct (Ascii.eqb c lbrace); [|discriminate].
    destruct tl as [|c2 tl']; [discriminate|].
    destruct (is_id_start c2); [|discriminate].
    destruct (skipn _ _) as [|c3 r]; [discriminate|].
    destruct (Ascii.eqb c3 rbrace); [|discriminate].
    apply pair_equal_spec in Em as [Hn _].
    assert (name = take_while is_id_char (c2 :: tl')) as -> by congruence.
    cbn [dollar_free forallb]. change (negb (Ascii.eqb lbrace dollar)) with true.
    cbn [andb]. change (forallb (fun c => negb (Ascii.eqb c dollar)))
      with dollar_free.
    rewrite dollar_free_app, (id_chars_dollar_free _ (take_while_forallb _ _)).
    reflexivity.
  - assert (n = 0) as ->; [|reflexivity].
    unfold match_after_dollar in Em. destruct rest as [|c tl]; [congruence|].
    destruct (Ascii.eqb c dollar); [discriminate|].
    destruct (is_id_start c); [discriminate|].
    destruct (Ascii.eqb c lbrace); [|congruence].
    destruct tl as [|c2 tl']; [congruence|].
    destruct (is_id_start c2); [|congruence].
    destruct (skipn _ _) as [|c3 r]; [congruence|].
    destruct (Ascii.eqb c3 rbrace); [discriminate | congruence].
Qed.

Lemma kept_not_escaped m : kept args m = true -> m <> Escaped.
Proof. now destruct m. Qed.

Lemma kept_convert m : kept args m = true -> convert args m = group0 m.
Proof.
  destruct m as [|name|name|]; simpl; try reflexivity; try discriminate;
    unfold dict_has; now destruct (dict_get args (string_of_list_ascii name)).
Qed.

(** A [$] that is left is copied, and resolution goes on after it. *)
Lemma sub_kept (rest : list ascii) :
  kept args (fst (match_after_dollar rest)) = true ->
  sub args 0 (dollar :: rest) = dollar :: sub args 0 rest.
Proof.
  intros Hk. rewrite sub_at_dollar.
  destruct (match_after_dollar rest) as [m n] eqn:Em. cbn [fst snd] in *.
  pose proof (kept_not_escaped _ Hk) as Hm.
  rewrite (kept_convert _ Hk), (group0_covers _ _ _ Em Hm).
  rewrite <- (firstn_skipn n rest) at 3.
  rewrite (sub_prefix args _ _ (covered_dollar_free _ _ _ Em Hm)).
  reflexivity.
Qed.

(** A text that does not begin with a placeholder for a key of the args
    begins, once resolved, as it did. *)
Lemma begins_kept_head (s : list ascii) :
  begins_kept args s = true -> hd_error (sub args 0 s) = hd_error s.
Proof.
  destruct s as [|c rest]; [reflexivity|]. unfold begins_kept.
  destruct (Ascii.eqb c dollar) eqn:Ec.
  - apply Ascii.eqb_eq in Ec. subst c. intros Hk. rewrite sub_at_dollar.
    destruct (match_after_dollar rest) as [m n]. cbn [fst snd] in *.
    destruct m as [|name|name|]; cbn [convert resolved] in *;
      [reflexivity| | |reflexivity];
      unfold dict_has in Hk;
      now destruct (dict_get args (string_of_list_ascii name)).
  - intros _. cbn [sub]. now rewrite Ec.
Qed.

Lemma head_not (p : ascii -> bool) (a b : list ascii) :
  hd_error a = hd_error b ->
  match b with c :: _ => p c = false | [] => True end ->
  match a with c :: _ => p c = false | [] => True end.
Proof. destruct a, b; simpl; try discriminate; [trivial | now intros [= ->]]. Qed.

(** A [$] that stays before a text stays before the resolved text. *)
Lemma stays_resolved (r : list ascii) :
  stays args r = true ->
  kept args (fst (match_after_dollar (sub args 0 r))) = true.
Proof.
  unfold stays, decisive_rest. intros H. apply andb_true_iff in H as [Hk Hb].
  destruct (match_after_dollar r) as [m n] eqn:Em. cbn [fst] in *.
  destruct m as [|name|name|]; [discriminate| | |].
  - (* [$name] *)
    unfold match_after_dollar in Em. destruct r as [|c tl]; [discriminate|].
    destruct (Ascii.eqb c dollar) eqn:Ec; [discriminate|].
    destruct (is_id_start c) eqn:Hc.
    2: { destruct (Ascii.eqb c lbrace); [|discriminate].
         destruct tl as [|c2 tl']; [discriminate|].
         destruct (is_id_start c2); [|discriminate].
         destruct (skipn _ _) as [|c3 r]; [discriminate|].
         destruct (Ascii.eqb c3 rbrace); discriminate. }
    apply pair_equal_spec in Em as [Hn' _].
    assert (Hn : take_while is_id_char (c :: tl) = name) by congruence.
    clear Hn'.
    set (la := skipn (length name) (c :: tl)) in *.
    assert (Hsplit : c :: tl = name ++ la).
    { subst la. rewrite <- Hn. apply take_while_split. }
    assert (Hname : exists r', name = c :: r' /\ forallb is_id_char r' = true).
    { rewrite <- Hn. cbn [take_while]. rewrite (is_id_start_char _ Hc).
      eexists. split; [reflexivity | apply take_while_forallb]. }
    destruct Hname as (r' & Hname & Hr').
    assert (Hfree : dollar_free name = true).
    { rewrite <- Hn. apply id_chars_dollar_free, take_while_forallb. }
    rewrite Hsplit, (sub_prefix args _ _ Hfree).
    rewrite (match_named _ _ c r' Hname Hc Hr'); [exact Hk|].
    apply (head_not is_id_char _ la (begins_kept_head _ Hb)).
    subst la. rewrite <- Hn. apply take_while_stops.
  - (* [${name}] *)
    pose proof (group0_covers _ _ _ Em ltac:(discriminate)) as Hg.
    pose proof (covered_dollar_free _ _ _ Em ltac:(discriminate)) as Hfree.
    unfold match_after_dollar in Em. destruct r as [|c tl]; [discriminate|].
    destruct (Ascii.eqb c dollar) eqn:Ec; [discriminate|].
    destruct (is_id_start c) eqn:Hc; [discriminate|].
    destruct (Ascii.eqb c lbrace) eqn:Eb; [|discriminate].
    apply Ascii.eqb_eq in Eb. subst c.
    destruct tl as [|c2 tl']; [discriminate|].
    destruct (is_id_start c2) eqn:Hc2; [|discriminate].
    destruct (skipn _ (c2 :: tl')) as [|c3 r] eqn:Es; [discriminate|].
    destruct (Ascii.eqb c3 rbrace) eqn:E3; [|discriminate].
    apply Ascii.eqb_eq in E3. subst c3.
    apply pair_equal_spec in Em as [Hn' Hlen].
    assert (Hn : take_while is_id_char (c2 :: tl') = name) by congruence.
    clear Hn'.
    assert (Hsplit : lbrace :: c2 :: tl' = lbrace :: name ++ rbrace :: r).
    { f_equal. rewrite <- Hn, <- Es. apply take_while_split. }
    assert (Hname : exists r', name = c2 :: r' /\ forallb is_id_char r' = true).
    { rewrite <- Hn. cbn [take_while]. rewrite (is_id_start_char _ Hc2).
      eexists. split; [reflexivity | apply take_while_forallb]. }
    destruct Hname as (r' & Hname & Hr').
    assert (Hfree' : dollar_free (lbrace :: name ++ [rbrace]) = true).
    { cbn [dollar_free forallb].
      change (forallb (fun c => negb (Ascii.eqb c dollar))) with dollar_free.
      rewrite dollar_free_app. rewrite <- Hn.
      now rewrite (id_chars_dollar_free _ (take_while_forallb _ _)). }
    rewrite Hsplit.
    change (lbrace :: name ++ rbrace :: r)
      with ((lbrace :: name) ++ rbrace :: r).
    replace ((lbrace :: name) ++ rbrace :: r)
      with ((lbrace :: name ++ [rbrace]) ++ r)
      by (cbn [app]; now rewrite <- app_assoc).
    rewrite (sub_prefix args _ _ Hfree'). cbn [app]. rewrite <- app_assoc.
    cbn [app].
    now rewrite (match_braced _ _ c2 r' Hname Hc2 Hr').
  - (* a [$] that begins no placeholder *)
    unfold match_after_dollar in Em.
    destruct r as [|c tl]; [reflexivity|].
    destruct (Ascii.eqb c dollar) eqn:Ec; [discriminate|].
    destruct (is_id_start c) eqn:Hc; [discriminate|].
    cbn [sub]. rewrite Ec. unfold match_after_dollar. rewrite Ec, Hc.
    destruct (Ascii.eqb c lbrace) eqn:Eb; [|reflexivity].
    destruct tl as [|c2 tl']; [reflexivity|].
    destruct (is_id_start c2) eqn:Hc2.
    + set (t := c2 :: tl') in *.
      set (id := take_while is_id_char t) in *.
      set (la := skipn (length id) t) in *.
      assert (Hsplit : t = id ++ la) by apply take_while_split.
      assert (Hid : exists r', id = c2 :: r').
      { subst id t. cbn [take_while]. rewrite (is_id_start_char _ Hc2).
        now eexists. }
      destruct Hid as (r' & Hid).
      assert (Hfree : dollar_free id = true)
        by apply id_chars_dollar_free, take_while_forallb.
      assert (Hla : match la with x :: _ => is_id_char x = false | [] => True end)
        by apply take_while_stops.
      pose proof (begins_kept_head _ Hb) as Hhd.
      rewrite Hsplit, (sub_prefix args _ _ Hfree).
      assert (Htw : take_while is_id_char (id ++ sub args 0 la) = id).
      { apply take_while_app; [apply take_while_forallb|].
        exact (head_not is_id_char _ la Hhd Hla). }
      rewrite Hid at 1. cbn [app]. rewrite Hc2.
      rewrite Htw, skipn_app, skipn_all, Nat.sub_diag. cbn [skipn app].
      destruct (sub args 0 la) as [|c3 out]; [reflexivity|].
      destruct la as [|x la']; [discriminate|].
      cbn [hd_error] in Hhd. injection Hhd as ->.
      destruct (Ascii.eqb x rbrace); [discriminate | reflexivity].
    + pose proof (begins_kept_head _ Hb) as Hhd.
      destruct (sub args 0 (c2 :: tl')) as [|c3 out]; [reflexivity|].
      cbn [hd_error] in Hhd. injection Hhd as ->. now rewrite Hc2.
Qed.

Lemma steady_skip (n : nat) (s : list ascii) :
  steady args n s = steady args 0 (skipn n s).
Proof.
  revert n. induction s as [|c s IH]; intros [|n]; simpl; try reflexivity.
  apply IH.
Qed.

Lemma steady_prefix (p s : list ascii) :
  dollar_free p = true -> steady args 0 (p ++ s) = steady args 0 s.
Proof.
  induction p as [|c p IH]; simpl; [reflexivity|].
  intros H. apply andb_true_iff in H as [Hc Hp].
  apply negb_true_iff in Hc. rewrite Hc. now apply IH.
Qed.

(** Resolving a steady text twice is resolving it once. *)
Lemma sub_steady (s : list ascii) :
  steady args 0 s = true -> sub args 0 (sub args 0 s) = sub args 0 s.
Proof.
  remember (length s) as len eqn:Hlen.
  revert s Hlen. induction len as [len IH] using lt_wf_ind.
  intros [|c rest] Hlen Hs; [reflexivity|].
  assert (IH' : forall t, length t <= length rest -> steady args 0 t = true ->
                          sub args 0 (sub args 0 t) = sub args 0 t).
  { intros t Ht. apply (IH (length t)); [subst len; simpl; lia | reflexivity]. }
  clear IH Hlen.
  destruct (Ascii.eqb c dollar) eqn:Ec.
  2: { cbn [steady] in Hs. rewrite Ec in Hs.
       cbn [sub]. rewrite Ec. cbn [sub]. rewrite Ec.
       f_equal. now apply IH'. }
  apply Ascii.eqb_eq in Ec. subst c.
  assert (Hstay : forall r, length r <= length rest ->
                    sub args 0 (dollar :: rest) = dollar :: sub args 0 r ->
                    stays args r = true -> steady args 0 r = true ->
                    sub args 0 (sub args 0 (dollar :: rest))
                    = sub args 0 (dollar :: rest)).
  { intros r Hr Heq Hst Hsr. rewrite Heq.
    rewrite (sub_kept _ (stays_resolved _ Hst)). f_equal. now apply IH'. }
  cbn [steady] in Hs. change (Ascii.eqb dollar dollar) with true in Hs.
  cbv iota in Hs.
  destruct (match_after_dollar rest) as [m n] eqn:Em.
  apply andb_true_iff in Hs as [Hm Hrest]. rewrite steady_skip in Hrest.
  assert (Hlen : length (skipn n rest) <= length rest)
    by (rewrite length_skipn; lia).
  assert (Hkept : stays args rest = true ->
                  sub args 0 (sub args 0 (dollar :: rest))
                  = sub args 0 (dollar :: rest)).
  { intros Hst. pose proof Hst as Hk. unfold stays in Hk.
    apply andb_true_iff in Hk as [Hk _].
    apply (Hstay rest); [lia | now apply sub_kept | exact Hst|].
    rewrite Em in Hk. cbn [fst] in Hk.
    rewrite <- (firstn_skipn n rest), steady_prefix; [exact Hrest|].
    apply (covered_dollar_free _ _ _ Em (kept_not_escaped _ Hk)). }
  assert (Hvalue : forall name,
             convert args m
             = match dict_get args (string_of_list_ascii name) with
               | Some v => list_ascii_of_string v
               | None => group0 m
               end ->
             dict_has args (string_of_list_ascii name) = true ->
             sub args 0 (sub args 0 (dollar :: rest))
             = sub args 0 (dollar :: rest)).
  { intros name Hconv Hhas. rewrite sub_at_dollar, Em. cbn [fst snd].
    rewrite Hconv. unfold dict_has in Hhas.
    destruct (dict_get args (string_of_list_ascii name)) as [v|] eqn:Ev;
      [|discriminate].
    assert (Hv : dollar_free (list_ascii_of_string v) = true).
    { apply dict_get_In in Ev. unfold args_dollar_free in Hargs.
      rewrite forallb_forall in Hargs. apply (Hargs _ Ev). }
    rewrite (sub_prefix args _ _ Hv). f_equal. now apply IH'. }
  destruct m as [|name|name|].
  - (* [$$] *)
    destruct (match_escaped _ _ _ Em eq_refl) as [tl ->].
    assert (n = 1) as -> by (cbv in Em; congruence).
    cbn [skipn] in Hm, Hrest.
    apply (Hstay tl); [simpl; lia | | exact Hm | exact Hrest].
    now rewrite sub_at_dollar, Em.
  - cbn [resolved] in Hm. apply orb_true_iff in Hm as [Hm|Hm];
      [now apply (Hvalue name) | now apply Hkept].
  - cbn [resolved] in Hm. apply orb_true_iff in Hm as [Hm|Hm];
      [now apply (Hvalue name) | now apply Hkept].
  - cbn [resolved orb] in Hm. now apply Hkept.
Qed.

End SteadyFacts.

Lemma safe_substitute_steady (args : dict string) (x : string) :
  args_dollar_free args = true -> str_steady args x = true ->
  safe_substitute args (safe_substitute args x) = safe_substitute args x.
Proof.
  intros Ha Hx. unfold safe_substitute.
  rewrite list_ascii_of_string_of_list_ascii. now rewrite sub_steady.
Qed.

(** ** [apply_args] *)

Section ApplyArgsFacts.

(** Induction on a value, with the property for the elements of a list and
    for the values of a dict. *)
Lemma pyval_induction (P : pyval -> Prop) :
  P PNone -> (forall b, P (PBool b)) -> (forall z, P (PInt z)) ->
  (forall s, P (PStr s)) ->
  (forall l, Forall P l -> P (PList l)) ->
  (forall d, Forall (fun kv => P (snd kv)) d -> P (PDict d)) ->
  forall x, P x.
Proof.
  intros HN HB HI HS HL HD.
  fix IH 1.
  intros [| b | z | s | l | d];
    [exact HN | apply HB | apply HI | apply HS | | ].
  - apply HL. induction l as [|x l IHl]; constructor; [apply IH | exact IHl].
  - apply HD. induction d as [|[k v] d IHd]; constructor; [apply IH | exact IHd].
Qed.

Variable args : dict string.

(** The result of [apply_args] has dicts with pairwise distinct keys. *)
Lemma apply_args_wf x : val_wf (apply_args x args) = true.
Proof.
  induction x as [| | | | l IH | d IH] using pyval_induction;
    try reflexivity; simpl.
  - rewrite forallb_forall. intros y Hy. apply in_map_iff in Hy as (x & <- & Hx).
    rewrite Forall_forall in IH. now apply IH.
  - apply andb_true_iff. split.
    + apply (dict_of_items_wf (V := pyval)).
    + rewrite forallb_forall, <- Forall_forall.
      apply dict_of_items_Forall. rewrite Forall_forall.
      intros [k' v'] Hin. apply in_map_iff in Hin as ([k v] & [= <- <-] & Hin).
      rewrite Forall_forall in IH. apply (IH _ Hin).
Qed.

(** A value without [$] and with proper dicts is left as it is. *)
Lemma apply_args_dollar_free x :
  val_dollar_free x = true -> val_wf x = true -> apply_args x args = x.
Proof.
  induction x as [| | | | l IH | d IH] using pyval_induction;
    try reflexivity; simpl; intros Hf Hw.
  - now rewrite safe_substitute_dollar_free.
  - f_equal. rewrite <- (map_id l) at 2. apply map_ext_in.
    intros x Hx. rewrite Forall_forall in IH. rewrite forallb_forall in Hf, Hw.
    now apply IH; [| apply Hf | apply Hw].
  - apply andb_true_iff in Hw as [Hd Hw].
    f_equal. rewrite <- (dict_of_items_id d Hd) at 2. f_equal.
    rewrite <- (map_id d) at 2. apply map_ext_in.
    intros [k v] Hin. rewrite Forall_forall in IH.
    rewrite forallb_forall in Hf, Hw.
    specialize (Hf _ Hin). specialize (Hw _ Hin). simpl in Hf, Hw.
    apply andb_true_iff in Hf as [Hk Hv].
    rewrite safe_substitute_dollar_free by assumption.
    f_equal. apply (IH _ Hin Hv Hw).
Qed.

(** When every [$] starts a placeholder for a key of the args and no value
    of the args holds a [$], the result holds no [$]. *)
Lemma apply_args_all_resolved x :
  args_dollar_free args = true -> val_all_resolved args x = true ->
  val_dollar_free (apply_args x args) = true.
Proof.
  intros Ha.
  induction x as [| | | | l IH | d IH] using pyval_induction;
    try reflexivity; simpl; intros Hr.
  - now apply safe_substitute_all_resolved.
  - rewrite forallb_forall. intros y Hy. apply in_map_iff in Hy as (x & <- & Hx).
    rewrite Forall_forall in IH. rewrite forallb_forall in Hr.
    now apply IH; [| apply Hr].
  - rewrite forallb_forall, <- Forall_forall.
    apply dict_of_items_Forall. rewrite Forall_forall.
    intros [k' v'] Hin. apply in_map_iff in Hin as ([k v] & [= <- <-] & Hin).
    rewrite Forall_forall in IH. rewrite forallb_forall in Hr.
    specialize (Hr _ Hin). simpl in Hr. apply andb_true_iff in Hr as [Hk Hv].
    apply andb_true_iff. split.
    + now apply safe_substitute_all_resolved.
    + now apply (IH _ Hin).
Qed.

(** Resolving a steady value twice is resolving it once. *)
Lemma apply_args_steady x :
  args_dollar_free args = true -> val_steady args x = true ->
  apply_args (apply_args x args) args = apply_args x args.
Proof.
  intros Ha.
  induction x as [| | | | l IH | d IH] using pyval_induction;
    try reflexivity; intros Hs.
  - cbn [apply_args]. f_equal. now apply safe_substitute_steady.
  - cbn [apply_args val_steady] in *. f_equal. rewrite map_map.
    apply map_ext_in. intros x Hx.
    rewrite Forall_forall in IH. rewrite forallb_forall in Hs.
    now apply IH; [|apply Hs].
  - cbn [apply_args val_steady] in *. f_equal.
    set (f := fun kv : string * pyval =>
                match kv with
                | (k, v) => (safe_substitute args k, apply_args v args)
                end).
    assert (Hfix : Forall (fun kv => f kv = kv) (dict_of_items (map f d))).
    { apply dict_of_items_Forall. rewrite Forall_forall.
      intros [k' v'] Hin. apply in_map_iff in Hin as ([k v] & [= <- <-] & Hin).
      rewrite Forall_forall in IH. rewrite forallb_forall in Hs.
      specialize (Hs _ Hin). cbn beta iota in Hs.
      apply andb_true_iff in Hs as [Hk Hv].
      unfold f. f_equal; [now apply safe_substitute_steady|].
      now apply (IH _ Hin). }
    transitivity (dict_of_items (dict_of_items (map f d))).
    + f_equal. rewrite <- (map_id (dict_of_items (map f d))) at 2.
      apply map_ext_in. intros kv Hkv.
      rewrite Forall_forall in Hfix. now apply Hfix.
    + apply dict_of_items_id. apply dict_of_items_wf.
Qed.

End ApplyArgsFacts.

(** C7, as stated, fails: [$$] is an escape that [safe_substitute] turns
    into [$], so a first resolution can produce a placeholder that a second
    one replaces; the same happens when a placeholder that is left is followed
    by a value that completes it to the name of an arg. Here the args are
    [{a: X, tail: known, unknown: Z}], whose values hold no placeholder. *)
Lemma apply_args_not_idempotent :
  let args := [("a", "X"); ("tail", "known"); ("unknown", "Z")] in
  args_dollar_free args = true
  /\ apply_args (PStr "$$a") args = PStr "$a"
  /\ apply_args (apply_args (PStr "$$a") args) args = PStr "X"
  /\ apply_args (apply_args (PStr "$$a") args) args
     <> apply_args (PStr "$$a") args
  /\ apply_args (PList [PStr "$un${tail}"]) args = PList [PStr "$unknown"]
  /\ apply_args (apply_args (PList [PStr "$un${tail}"]) args) args
     = PList [PStr "Z"].
Proof. repeat split; try reflexivity. discriminate. Qed.

(** C7 (amended): for all args whose values hold no [$], and every value
    (string, list, mapping with string keys, or other scalar) that is steady
    for the args, resolving twice is resolving once. A value is steady when
    every [$] that resolution writes to the result (for a [$$], for a
    placeholder whose name is no key of the args, or for a [$] that begins no
    placeholder) is left as it is by a second resolution: the text after it
    begins no placeholder for a key of the args and no [$$], and the
    characters that decide this are not followed directly by a placeholder
    for a key of the args. A placeholder for a key of the args is under no
    condition. *)
Theorem apply_args_idempotent (args : dict string) (x : pyval) :
  args_dollar_free args = true ->
  val_steady args x = true ->
  apply_args (apply_args x args) args = apply_args x args.
Proof.
  intros Ha Hs. now apply apply_args_steady.
Qed.

Lemma apply_args_idempotent_witness :
  let args := [("data_dir", "/custom/data_dir"); ("data_file", "default_file")] in
  let x := PDict [("$data_dir",
                   PList [PStr "cat"; PStr "${data_dir}/${data_file}.txt";
                          PStr "cd $data_dir && echo $HOME ${USER} costs $5 $";
                          PStr "costs $$5, or $${HOME} and ${ data_dir }"]);
                  ("mode", PBool true)] in
  apply_args x args
  = PDict [("/custom/data_dir",
            PList [PStr "cat"; PStr "/custom/data_dir/default_file.txt";
                   PStr "cd /custom/data_dir && echo $HOME ${USER} costs $5 $";
                   PStr "costs $5, or ${HOME} and ${ data_dir }"]);
           ("mode", PBool true)]
  /\ apply_args (apply_args x args) args = apply_args x args.
Proof.
  split; [reflexivity|].
  apply apply_args_idempotent; reflexivity.
Defined.

(** ** Lookup in a dict that is built *)

Section DictLookup.

Context {V : Type}.
Implicit Types (d : dict V) (k : string) (v : V).

Lemma dict_get_set d k v k' :
  dict_get (dict_set d k v) k'
  = if String.eqb k' k then Some v else dict_get d k'.
Proof.
  induction d as [|[k0 v0] d IH]; simpl.
  - reflexivity.
  - destruct (String.eqb k k0) eqn:E; simpl.
    + apply String.eqb_eq in E. subst k0.
      destruct (String.eqb k' k); reflexivity.
    + rewrite IH. destruct (String.eqb k' k0) eqn:E0; [|reflexivity].
      apply String.eqb_eq in E0. subst k0.
      rewrite String.eqb_sym, E. reflexivity.
Qed.

Lemma dict_get_None d k : ~ In k (keys d) -> dict_get d k = None.
Proof.
  induction d as [|[k0 v0] d IH]; simpl; intros H; [reflexivity|].
  destruct (String.eqb k k0) eqn:E.
  - apply String.eqb_eq in E. subst. exfalso. apply H. now left.
  - apply IH. intros Hin. apply H. now right.
Qed.

(** Inserting the items of a dict with distinct keys into another: the
    items are found first. *)
Lemma dict_get_fold (items : dict V) d k :
  NoDup (keys items) ->
  dict_get (fold_left (fun acc kv => dict_set acc (fst kv) (snd kv)) items d) k
  = match dict_get items k with
    | Some v => Some v
    | None => dict_get d k
    end.
Proof.
  revert d. induction items as [|[k0 v0] items IH]; simpl; intros d Hnd;
    [reflexivity|].
  inversion Hnd as [|? ? Hk Hnd']; subst.
  rewrite (IH _ Hnd'), dict_get_set.
  destruct (String.eqb k k0) eqn:E; [|reflexivity].
  apply String.eqb_eq in E. subst k0.
  now rewrite (dict_get_None items k Hk).
Qed.

(** [{**proto, **own}] is [proto] overlaid by [own]. *)
Lemma dict_merge_overlaid (own proto : dict V) :
  dict_wf own = true -> dict_wf proto = true ->
  overlaid own proto (dict_merge proto own).
Proof.
  intros Ho Hp k. unfold dict_merge, dict_of_items.
  rewrite fold_left_app, dict_get_fold by now apply distinct_NoDup.
  destruct (dict_get own k); [reflexivity|].
  rewrite dict_get_fold by now apply distinct_NoDup.
  now destruct (dict_get proto k).
Qed.

End DictLookup.

(** ** The prototype merger *)

Lemma py_or_kept {A} (truthy unset : A -> bool) (own proto : A) :
  (forall x, unset x = true -> truthy x = false) ->
  kept_or_filled truthy unset own proto (py_or truthy own proto).
Proof.
  intros H. unfold kept_or_filled, py_or. split.
  - now intros ->.
  - intros Hu. now rewrite (H _ Hu).
Qed.

(** C1, as stated, fails: a field of the step set to [False], to [0] or to
    the empty string is replaced by the prototype's, and a mapping of the step
    is not kept as it is but gets the prototype's other entries. *)
Lemma merge_replaces_set_fields :
  let merged := Step._with_prototype_applied merge_step (Some merge_prototype) in
  Step.gpus merge_step = Some false /\ Step.gpus merged = Some true
  /\ Step.user merge_step = Some (UserId 0)
  /\ Step.user merged = Some (UserName "host")
  /\ Step.name merge_step = Some "" /\ Step.name merged = Some "proto"
  /\ Step.volumes merge_step = [("/data", VolBind "/data")]
  /\ Step.volumes merged
     = [("/scratch", VolBind "/scratch"); ("/data", VolBind "/data")]
  /\ Step.gpus merged <> Step.gpus merge_step
  /\ Step.volumes merged <> Step.volumes merge_step.
Proof. repeat split; try reflexivity; discriminate. Qed.

(** C1 (amended): for every step [s] and prototype [t], a field of [s] whose
    value is truthy (a non-empty string, a non-empty list, [True], a number
    other than zero) is the same in [merge(s, t)], and a field of [s] that is
    [None] or an empty list is filled from [t]; in the mappings [volumes] and
    [environment] every entry of [s] is kept and the other keys have the
    entries of [t]; without a prototype the step is returned as it is. *)
Theorem merge_keeps_truthy_fields (s t : Step.t) :
  step_wf s = true -> step_wf t = true ->
  let m := Step._with_prototype_applied s (Some t) in
  kept_or_filled truthy_str is_none (Step.name s) (Step.name t) (Step.name m)
  /\ kept_or_filled truthy_str is_none
       (Step.description s) (Step.description t) (Step.description m)
  /\ kept_or_filled truthy_str is_none (Step.image s) (Step.image t) (Step.image m)
  /\ kept_or_filled truthy_list is_nil
       (Step.command s) (Step.command t) (Step.command m)
  /\ overlaid (Step.volumes s) (Step.volumes t) (Step.volumes m)
  /\ kept_or_filled truthy_str is_none
       (Step.working_dir s) (Step.working_dir t) (Step.working_dir m)
  /\ kept_or_filled truthy_list is_nil
       (Step.match_done s) (Step.match_done t) (Step.match_done m)
  /\ kept_or_filled truthy_list is_nil
       (Step.match_in s) (Step.match_in t) (Step.match_in m)
  /\ kept_or_filled truthy_list is_nil
       (Step.match_out s) (Step.match_out t) (Step.match_out m)
  /\ kept_or_filled truthy_list is_nil
       (Step.match_summary s) (Step.match_summary t) (Step.match_summary m)
  /\ overlaid (Step.environment s) (Step.environment t) (Step.environment m)
  /\ kept_or_filled truthy_bool is_none (Step.gpus s) (Step.gpus t) (Step.gpus m)
  /\ kept_or_filled truthy_user is_none (Step.user s) (Step.user t) (Step.user m)
  /\ kept_or_filled truthy_str is_none
       (Step.network_mode s) (Step.network_mode t) (Step.network_mode m)
  /\ kept_or_filled truthy_str is_none
       (Step.mac_address s) (Step.mac_address t) (Step.mac_address m)
  /\ Step._with_prototype_applied s None = s.
Proof.
  intros Hs Ht m. unfold step_wf in Hs, Ht.
  apply andb_true_iff in Hs as [Hs Hse]. apply andb_true_iff in Hs as [Hsv _].
  apply andb_true_iff in Ht as [Ht Hte]. apply andb_true_iff in Ht as [Htv _].
  assert (Hstr : forall x : option string, is_none x = true -> truthy_str x = false)
    by (now intros [x|]).
  assert (Hlist : forall x : list string, is_nil x = true -> truthy_list x = false)
    by (now intros [|x l]).
  assert (Hbool : forall x : option bool, is_none x = true -> truthy_bool x = false)
    by (now intros [x|]).
  assert (Huser : forall x : option user_t, is_none x = true -> truthy_user x = false)
    by (now intros [x|]).
  subst m. simpl.
  repeat match goal with
         | |- _ /\ _ => split
         | |- kept_or_filled _ _ _ _ _ => apply py_or_kept; assumption
         | |- overlaid _ _ _ => apply dict_merge_overlaid; assumption
         end.
  reflexivity.
Qed.

Lemma merge_keeps_truthy_fields_witness :
  Step.image (Step._with_prototype_applied merge_step (Some merge_prototype))
  = Some "ubuntu"
  /\ Step.command (Step._with_prototype_applied merge_step (Some merge_prototype))
     = ["echo"; "hello"]
  /\ dict_get (Step.volumes
                 (Step._with_prototype_applied merge_step (Some merge_prototype)))
              "/data"
     = Some (VolBind "/data").
Proof.
  pose proof (merge_keeps_truthy_fields merge_step merge_prototype
                eq_refl eq_refl) as H.
  cbv zeta in H.
  destruct H as (_ & _ & [Himg _] & [_ Hcmd] & Hvol & _).
  split; [|split].
  - apply Himg. reflexivity.
  - apply Hcmd. reflexivity.
  - rewrite Hvol. reflexivity.
Defined.

(** ** Amendment without args *)

Section NoArgs.

Lemma apply_args_str_no_args (x : option string) :
  ostr_no_escape x = true -> apply_args_str x [] = x.
Proof.
  destruct x as [s|]; simpl; intros H; [|reflexivity].
  now rewrite safe_substitute_no_args.
Qed.

Lemma apply_args_strs_no_args (x : list string) :
  forallb str_no_escape x = true -> apply_args_strs x [] = x.
Proof.
  unfold apply_args_strs. induction x as [|s x IH]; simpl; [reflexivity|].
  intros H. apply andb_true_iff in H as [Hs Hx].
  now rewrite safe_substitute_no_args, IH.
Qed.

Lemma apply_args_env_no_args (x : dict string) :
  dict_wf x = true -> env_no_escape x = true -> apply_args_env x [] = x.
Proof.
  intros Hw He. unfold apply_args_env.
  rewrite <- (dict_of_items_id x Hw) at 2. f_equal.
  rewrite <- (map_id x) at 2. apply map_ext_in. intros [k v] Hin.
  unfold env_no_escape in He. rewrite forallb_forall in He.
  specialize (He _ Hin). apply andb_true_iff in He as [Hk Hv]. simpl in *.
  now rewrite !safe_substitute_no_args.
Qed.

Lemma apply_args_volume_no_args (v : volume) :
  volume_wf v = true -> volume_no_escape v = true -> apply_args_volume v [] = v.
Proof.
  destruct v as [s|d]; simpl; intros Hw He.
  - now rewrite safe_substitute_no_args.
  - now rewrite apply_args_env_no_args.
Qed.

Lemma apply_args_volumes_no_args (x : dict volume) :
  dict_wf x = true ->
  forallb (fun kv => volume_wf (snd kv)) x = true ->
  forallb (fun kv => str_no_escape (fst kv) && volume_no_escape (snd kv)) x = true ->
  apply_args_volumes x [] = x.
Proof.
  intros Hw Hv He. unfold apply_args_volumes.
  rewrite <- (dict_of_items_id x Hw) at 2. f_equal.
  rewrite <- (map_id x) at 2. apply map_ext_in. intros [k v] Hin.
  rewrite forallb_forall in Hv, He.
  specialize (Hv _ Hin). specialize (He _ Hin).
  apply andb_true_iff in He as [Hk He]. simpl in *.
  now rewrite safe_substitute_no_args, apply_args_volume_no_args.
Qed.

Lemma apply_args_user_no_args (x : option user_t) :
  user_no_escape x = true -> apply_args_user x [] = x.
Proof.
  destruct x as [[s|uid]|]; simpl; intros H; try reflexivity.
  now rewrite safe_substitute_no_args.
Qed.

(** Without args, a step without [$$] is amended to itself. *)
Lemma step_with_no_args_applied (s : Step.t) :
  step_wf s = true -> step_no_escape s = true ->
  Step._with_args_applied s [] = s.
Proof.
  unfold step_wf, step_no_escape. intros Hw He.
  repeat (apply andb_true_iff in Hw as [Hw ?]).
  repeat (apply andb_true_iff in He as [He ?]).
  destruct s; unfold Step._with_args_applied; simpl in *.
  rewrite !apply_args_str_no_args, !apply_args_strs_no_args,
    apply_args_volumes_no_args, apply_args_env_no_args,
    apply_args_user_no_args by assumption.
  reflexivity.
Qed.

End NoArgs.

(** C8, as stated, fails: [$$] is the escape of a [$], which resolution
    turns into [$] even when there are no args. *)
Lemma amend_no_args_changes_escape :
  Pipeline.args escape_pipeline = []
  /\ Pipeline.prototype escape_pipeline = None
  /\ map Step.command (Pipeline.steps escape_pipeline) = [["echo"; "costs $$5"]]
  /\ map Step.command (Pipeline.steps (Pipeline.amend escape_pipeline []))
     = [["echo"; "costs $5"]]
  /\ Pipeline.steps (Pipeline.amend escape_pipeline [])
     <> Pipeline.steps escape_pipeline.
Proof. repeat split; try reflexivity. discriminate. Qed.

(** C8 (amended): for every pipeline whose declared args are empty, which
    has no prototype, and whose steps hold no [$$] in their strings,
    [amend(P, {})] yields steps identical to [P.steps]. *)
Theorem amend_no_args_steps (P : Pipeline.t) :
  Pipeline.args P = [] ->
  Pipeline.prototype P = None ->
  forallb step_wf (Pipeline.steps P) = true ->
  forallb step_no_escape (Pipeline.steps P) = true ->
  Pipeline.steps (Pipeline.amend P []) = Pipeline.steps P.
Proof.
  intros Hargs Hproto Hw He.
  unfold Pipeline.amend, Pipeline._with_prototype_applied,
    Pipeline._with_args_applied, Pipeline._combine_args.
  simpl. rewrite Hargs, Hproto. simpl. rewrite map_map.
  rewrite <- (map_id (Pipeline.steps P)) at 2. apply map_ext_in.
  intros s Hin. rewrite forallb_forall in Hw, He.
  now apply step_with_no_args_applied; [apply Hw | apply He].
Qed.

Lemma amend_no_args_steps_witness :
  Pipeline.steps (Pipeline.amend plain_pipeline []) = Pipeline.steps plain_pipeline.
Proof. apply amend_no_args_steps; reflexivity. Defined.

(** ** [apply_args] at the types of the fields of a step *)

Section Agreement.

Context {V W : Type} (g : V -> W).

Lemma dict_set_map_values (d : dict V) k v :
  map_values g (dict_set d k v) = dict_set (map_values g d) k (g v).
Proof.
  induction d as [|[k0 v0] d IH]; simpl; [reflexivity|].
  destruct (String.eqb k k0); simpl; [reflexivity | now rewrite IH].
Qed.

Lemma fold_dict_set_map_values (items : list (string * V)) (d : dict V) :
  map_values g (fold_left (fun acc kv => dict_set acc (fst kv) (snd kv)) items d)
  = fold_left (fun acc kv => dict_set acc (fst kv) (snd kv))
              (map_values g items) (map_values g d).
Proof.
  revert d. induction items as [|[k v] items IH]; simpl; intros d;
    [reflexivity|]. now rewrite IH, dict_set_map_values.
Qed.

Lemma dict_of_items_map_values (items : list (string * V)) :
  map_values g (dict_of_items items) = dict_of_items (map_values g items).
Proof. apply fold_dict_set_map_values. Qed.

End Agreement.

Lemma apply_args_env_agrees (x : dict string) (args : dict string) :
  apply_args (of_env x) args = of_env (apply_args_env x args).
Proof.
  unfold of_env, apply_args_env. simpl. f_equal.
  change (map (fun kv : string * string => (fst kv, PStr (snd kv))))
    with (map_values PStr).
  rewrite dict_of_items_map_values. f_equal.
  unfold map_values. rewrite !map_map. apply map_ext. now intros [k v].
Qed.

Lemma apply_args_volume_agrees (v : volume) (args : dict string) :
  apply_args (of_volume v) args = of_volume (apply_args_volume v args).
Proof. destruct v; [reflexivity | apply apply_args_env_agrees]. Qed.

(** The typed versions of [apply_args] are [apply_args] on the fields of a
    step. *)
Lemma apply_args_agrees (args : dict string) :
  (forall x, apply_args (of_str x) args = of_str (apply_args_str x args))
  /\ (forall x, apply_args (of_strs x) args = of_strs (apply_args_strs x args))
  /\ (forall x, apply_args (of_env x) args = of_env (apply_args_env x args))
  /\ (forall x, apply_args (of_volumes x) args
                = of_volumes (apply_args_volumes x args))
  /\ (forall x, apply_args (of_bool x) args = of_bool x)
  /\ (forall x, apply_args (of_user x) args = of_user (apply_args_user x args)).
Proof.
  repeat split.
  - now intros [s|].
  - intros x. unfold of_strs, apply_args_strs. simpl. now rewrite !map_map.
  - intros x. apply apply_args_env_agrees.
  - intros x. unfold of_volumes, apply_args_volumes. simpl. f_equal.
    change (map (fun kv : string * volume => (fst kv, of_volume (snd kv))))
      with (map_values of_volume).
    rewrite dict_of_items_map_values. f_equal.
    unfold map_values. rewrite !map_map. apply map_ext. intros [k v]. simpl.
    now rewrite apply_args_volume_agrees.
  - now intros [b|].
  - now intros [[s|uid]|].
Qed.

(** ** The container run loop *)

Section RunContainerFacts.

Variable env : Env.

Lemma write_all_runs (path : string) (entries : list string) (st : State) :
  exists st', write_all path entries st = Some (tt, st')
              /\ invocations st' = invocations st
              /\ clock_reads st' = clock_reads st
              /\ matcher_calls st' = matcher_calls st.
Proof.
  revert st. induction entries as [|e r IH]; intros st; simpl.
  - exists st. repeat split.
  - unfold bind, write at 1.
    match goal with |- context [write_all path r ?s] =>
      destruct (IH s) as (st' & -> & Hi & Hc & Hm) end.
    exists st'. repeat split; assumption.
Qed.

(** The loop returns unless an append to the log is refused, which raises;
    it returns no container and no exception only when the budget was empty
    from the start; and all it asks of the engine is to run this step, at
    most once per attempt left. *)
Lemma run_container_loop_cases (step : Step.t) (log_path : string)
    (max_attempts : nat) :
  forall remaining attempts retried st,
    match run_container_loop env step log_path max_attempts remaining
                             attempts retried st with
    | Some ((container, exit_code, exception), st') =>
        (exception = None -> container = None ->
         remaining = 0 /\ retried = None)
        /\ exists k,
            k <= remaining
            /\ invocations st' = invocations st ++ repeat step k
            /\ clock_reads st' = clock_reads st
            /\ matcher_calls st' = matcher_calls st
    | None => exists n, can_append env n log_path = false
    end.
Proof.
  induction remaining as [|r IH]; intros attempts retried st.
  - cbn [run_container_loop]. unfold ret. split; [now split|].
    exists 0. simpl. rewrite app_nil_r. repeat split; lia.
  - set (Q := fun res : option (option string * Z * option Docker.exn * State) =>
                match res with
                | Some ((container, exit_code, exception), st') =>
                    (exception = None -> container = None ->
                     S r = 0 /\ retried = None)
                    /\ exists k,
                        k <= S r
                        /\ invocations st' = invocations st ++ repeat step k
                        /\ clock_reads st' = clock_reads st
                        /\ matcher_calls st' = matcher_calls st
                | None => exists n, can_append env n log_path = false
                end).
    assert (Hstop : forall e st1,
               invocations st1 = invocations st ++ [step] ->
               clock_reads st1 = clock_reads st ->
               matcher_calls st1 = matcher_calls st ->
               Q (Some ((None, (-1)%Z, Some e), st1))).
    { intros e st1 Hi Hc Hm. unfold Q. split; [discriminate|].
      exists 1. repeat split; [lia | exact Hi | exact Hc | exact Hm]. }
    assert (Hretry : forall e st1,
               invocations st1 = invocations st ++ [step] ->
               clock_reads st1 = clock_reads st ->
               matcher_calls st1 = matcher_calls st ->
               Q ((append env log_path
                     (retry_log_message (attempts + 1) max_attempts) ;;;
                   run_container_loop env step log_path max_attempts r
                                      (attempts + 1) (Some e)) st1)).
    { intros e st1 Hi Hc Hm. unfold bind, append.
      destruct (can_append env (length (file_ops st1)) log_path) eqn:Hcan;
        [|now exists (length (file_ops st1))].
      unfold write at 1.
      match goal with |- context [run_container_loop _ _ _ _ r _ _ ?s] =>
        specialize (IH (attempts + 1) (Some e) s);
        destruct (run_container_loop env step log_path max_attempts r
                    (attempts + 1) (Some e) s)
          as [[[[c code] ex] st']|] end; [|exact IH].
      destruct IH as (Hnone & k & Hk & Hi' & Hc' & Hm').
      cbn [invocations clock_reads matcher_calls] in Hi', Hc', Hm'.
      unfold Q. split.
      - intros H1 H2. now destruct (Hnone H1 H2) as [_ [=]].
      - exists (S k). repeat split.
        + lia.
        + rewrite Hi', Hi, <- app_assoc. reflexivity.
        + congruence.
        + congruence. }
    assert (Hhandle : forall e st1,
               invocations st1 = invocations st ++ [step] ->
               clock_reads st1 = clock_reads st ->
               matcher_calls st1 = matcher_calls st ->
               Q (match Docker.cls e with
                  | Docker.APIError true => ret (None, (-1)%Z, Some e)
                  | Docker.APIError false =>
                      append env log_path
                        (retry_log_message (attempts + 1) max_attempts) ;;;
                      run_container_loop env step log_path max_attempts r
                                         (attempts + 1) (Some e)
                  | Docker.DockerException => ret (None, (-1)%Z, Some e)
                  | Docker.OtherException =>
                      append env log_path
                        (retry_log_message (attempts + 1) max_attempts) ;;;
                      run_container_loop env step log_path max_attempts r
                                         (attempts + 1) (Some e)
                  end st1)).
    { intros e st1 Hi Hc Hm.
      destruct (Docker.cls e) as [[|]| |];
        [now apply Hstop | now apply Hretry | now apply Hstop
        | now apply Hretry]. }
    change (Q (run_container_loop env step log_path max_attempts (S r)
                                  attempts retried st)).
    cbn [run_container_loop]. unfold bind at 1, containers_run at 1.
    destruct (engine env (length (invocations st)) step) as [e | entries fin].
    + now apply Hhandle.
    + unfold bind at 1, open_w at 1. unfold bind at 1.
      match goal with |- context [write_all log_path entries ?s] =>
        destruct (write_all_runs log_path entries s)
          as (st1 & -> & Hi1 & Hc1 & Hm1) end.
      cbn [invocations clock_reads matcher_calls] in Hi1, Hc1, Hm1.
      destruct fin as [status_code image_id | e].
      * unfold ret, Q. split; [discriminate|].
        exists 1. repeat split; [lia | exact Hi1 | exact Hc1 | exact Hm1].
      * now apply Hhandle.
Qed.

(** What the loop has done when it returns. *)
Lemma run_container_loop_returns (step : Step.t) (log_path : string)
    (max_attempts remaining attempts : nat) (retried : option Docker.exn)
    (st : State) container exit_code exception (st' : State) :
  run_container_loop env step log_path max_attempts remaining attempts
                     retried st
  = Some ((container, exit_code, exception), st') ->
  (exception = None -> container = None -> remaining = 0 /\ retried = None)
  /\ exists k,
      k <= remaining
      /\ invocations st' = invocations st ++ repeat step k
      /\ clock_reads st' = clock_reads st
      /\ matcher_calls st' = matcher_calls st.
Proof.
  intros Hrun.
  pose proof (run_container_loop_cases step log_path max_attempts remaining
                attempts retried st) as H.
  now rewrite Hrun in H.
Qed.


End RunContainerFacts.

(** C4: when the call of the engine raises a client error, the run loop
    has called the engine once, returns at once with exit code [-1] and the
    error, and does nothing else (no retry, no line in the log), whatever
    attempts are left. *)
Theorem client_error_is_not_retried (env : Env) (step : Step.t)
    (log_path : string) (max_attempts remaining attempts : nat)
    (retried : option Docker.exn) (st : State) (e : Docker.exn) :
  engine env (length (invocations st)) step = Docker.RunRaises e ->
  Docker.cls e = Docker.APIError true ->
  run_container_loop env step log_path max_attempts (S remaining) attempts
                     retried st
  = Some ((None, (-1)%Z, Some e),
          {| clock_reads := clock_reads st;
             matcher_calls := matcher_calls st;
             invocations := invocations st ++ [step];
             files := files st;
             file_ops := file_ops st |}).
Proof.
  intros Hengine Hcls. cbn [run_container_loop].
  unfold bind at 1, containers_run at 1. rewrite Hengine, Hcls. reflexivity.
Qed.

Lemma client_error_is_not_retried_witness :
  run_container (example_env nothing_found refusing_engine)
                (example_step "a step") "out/a_step.log" 3 example_state
  = Some ((None, (-1)%Z, Some client_error),
          {| clock_reads := 0;
             matcher_calls := 0;
             invocations := [example_step "a step"];
             files := files example_state;
             file_ops := [] |}).
Proof.
  apply (client_error_is_not_retried
           (example_env nothing_found refusing_engine) (example_step "a step")
           "out/a_step.log" 3 2 0 None example_state client_error);
    reflexivity.
Defined.

(** A client error raised after the container has started (while the log
    streams, in [wait()] or in [remove()]) ends the loop in the same way. *)
Lemma late_client_error_is_not_retried (env : Env) (step : Step.t)
    (log_path : string) (max_attempts remaining attempts : nat)
    (retried : option Docker.exn) (st : State) (e : Docker.exn) entries :
  engine env (length (invocations st)) step
  = Docker.Streamed entries (Docker.Raised e) ->
  Docker.cls e = Docker.APIError true ->
  exists st',
    run_container_loop env step log_path max_attempts (S remaining) attempts
                       retried st
    = Some ((None, (-1)%Z, Some e), st')
    /\ invocations st' = invocations st ++ [step].
Proof.
  intros Hengine Hcls. cbn [run_container_loop].
  unfold bind at 1, containers_run at 1. rewrite Hengine.
  unfold bind at 1, open_w at 1. unfold bind at 1.
  match goal with |- context [write_all log_path entries ?s] =>
    destruct (write_all_runs log_path entries s) as (st1 & -> & Hi1 & _) end.
  rewrite Hcls. exists st1. split; [reflexivity | exact Hi1].
Qed.

(** ** One step *)

Section RunStepFacts.

Variable env : Env.

(** [run_step] returns a result unless an append to the log is refused;
    the result is for the step it was given, and all it asks of the engine
    is to run this step, at most three times. *)
Lemma run_step_outcome (step : Step.t) (log_path : string)
    (force_rerun : bool) (st : State) :
  match run_step env step log_path force_rerun st with
  | Some (r, st') =>
      StepResult.name r = Step.name step
      /\ exists k, k <= 3 /\ invocations st' = invocations st ++ repeat step k
  | None => exists n, can_append env n log_path = false
  end.
Proof.
  unfold run_step. unfold bind at 1, now at 1. unfold bind at 1,
    match_patterns_in_dirs at 1.
  destruct (truthy_dict _ && negb force_rerun).
  - unfold ret. split; [reflexivity|]. exists 0. simpl.
    rewrite app_nil_r. split; [lia | reflexivity].
  - unfold bind at 1, match_patterns_in_dirs at 1. unfold bind at 1.
    unfold run_container.
    match goal with |- context [run_container_loop env step log_path 3 3 0 None ?s] =>
      pose proof (run_container_loop_cases env step log_path 3 3 0 None s) as H;
      destruct (run_container_loop env step log_path 3 3 0 None s)
        as [[[[c code] ex] st1]|] end; [|exact H].
    destruct H as (Hnone & k & Hk & Hi & _). simpl in Hi.
    destruct ex as [e|].
    + unfold bind at 1, append.
      destruct (can_append env (length (file_ops st1)) log_path) eqn:Hcan;
        [|now exists (length (file_ops st1))].
      unfold write, ret. cbn. split; [reflexivity|]. now exists k.
    + unfold bind at 1, match_patterns_in_dirs at 1.
      unfold bind at 1, match_patterns_in_dirs at 1.
      unfold bind at 1, now at 1.
      destruct c as [image_id|].
      * unfold ret. cbn. split; [reflexivity|]. now exists k.
      * destruct (Hnone eq_refl eq_refl) as [[=] _].
Qed.

Lemma run_step_returns (step : Step.t) (log_path : string)
    (force_rerun : bool) (st : State) (r : StepResult.t) (st' : State) :
  run_step env step log_path force_rerun st = Some (r, st') ->
  StepResult.name r = Step.name step
  /\ exists k, k <= 3 /\ invocations st' = invocations st ++ repeat step k.
Proof.
  intros Hrun.
  pose proof (run_step_outcome step log_path force_rerun st) as H.
  now rewrite Hrun in H.
Qed.

End RunStepFacts.

(** C5: a step whose [match_done] patterns match at least one file in its
    volume directories, run without [force_rerun], gives a result with
    [skipped] set, the matched files as its non-empty [files_done], no exit
    code and a timing with [start] only, and the engine is not called. *)
Theorem done_files_skip_the_step (env : Env) (step : Step.t)
    (log_path : string) (st : State) :
  1 <= count_matches (file_matcher env (matcher_calls st)
                        (keys (Step.volumes step)) (Step.match_done step)) ->
  exists r st',
    run_step env step log_path false st = Some (r, st')
    /\ StepResult.skipped r = true
    /\ StepResult.files_done r
       = file_matcher env (matcher_calls st)
           (keys (Step.volumes step)) (Step.match_done step)
    /\ truthy_dict (StepResult.files_done r) = true
    /\ StepResult.exit_code r = None
    /\ timing_only_start (StepResult.timing r) = true
    /\ invocations st' = invocations st.
Proof.
  intros Hcount.
  assert (Htruthy : truthy_dict (file_matcher env (matcher_calls st)
                       (keys (Step.volumes step)) (Step.match_done step)) = true).
  { destruct (file_matcher _ _ _ _); [unfold count_matches in Hcount; simpl in Hcount; lia | reflexivity]. }
  unfold run_step. unfold bind at 1, now at 1.
  unfold bind at 1, match_patterns_in_dirs at 1. cbn [matcher_calls].
  rewrite Htruthy. simpl.
  eexists _, _. split; [reflexivity|]. simpl. repeat split. exact Htruthy.
Qed.

Lemma done_files_skip_the_step_witness :
  exists r st',
    run_step (example_env done_found refusing_engine) (example_step "a step")
             "out/a_step.log" false example_state = Some (r, st')
    /\ StepResult.skipped r = true
    /\ StepResult.files_done r = [("/data", [("a.done", "sha256:0d")])]
    /\ invocations st' = [].
Proof.
  destruct (done_files_skip_the_step
              (example_env done_found refusing_engine) (example_step "a step")
              "out/a_step.log" example_state)
    as (r & st' & Hrun & Hskip & Hdone & _ & _ & _ & Hinv).
  - vm_compute. lia.
  - exists r, st'. repeat split; assumption.
Defined.

(** One step of a proof about a run that has returned: an append outside
    any [try] was not refused. *)
Ltac pass_append :=
  unfold bind at 1, append at 1;
  match goal with
  | |- context [can_append ?e ?n ?p] =>
      destruct (can_append e n p) eqn:?; [|easy]
  end;
  unfold write at 1.

Section RunStepCases.

Variable env : Env.

(** When the loop returns an exception, it returns no container and the
    exit code [-1]. *)
Lemma run_container_loop_exception (step : Step.t) (log_path : string)
    (max_attempts : nat) :
  forall remaining attempts retried st container exit_code e st',
    run_container_loop env step log_path max_attempts remaining attempts
                       retried st
    = Some ((container, exit_code, Some e), st') ->
    container = None /\ exit_code = (-1)%Z.
Proof.
  induction remaining as [|r IH]; intros attempts retried st c code e st'.
  - simpl. unfold ret. intros [= <- <- _ _]. now split.
  - cbn [run_container_loop]. unfold bind at 1, containers_run at 1.
    destruct (engine env (length (invocations st)) step) as [e0 | entries fin].
    + destruct (Docker.cls e0) as [[|]| |];
        try (unfold ret; intros [= <- <- _ _]; now split);
        pass_append; apply IH.
    + unfold bind at 1, open_w at 1. unfold bind at 1.
      match goal with |- context [write_all log_path entries ?s] =>
        destruct (write_all_runs log_path entries s) as (st1 & -> & _) end.
      destruct fin as [status_code image_id | e0];
        [unfold ret; intros [=]|].
      destruct (Docker.cls e0) as [[|]| |];
        try (unfold ret; intros [= <- <- _ _]; now split);
        pass_append; apply IH.
Qed.

(** The three ways a step ends: skipped; failed, with nothing recorded but
    the exit code and the log file; run, with the four file matches. *)
Lemma run_step_cases (step : Step.t) (log_path : string)
    (force_rerun : bool) (st : State) (r : StepResult.t) (st' : State) :
  run_step env step log_path force_rerun st = Some (r, st') ->
  (StepResult.skipped r = true /\ force_rerun = false
   /\ StepResult.exit_code r = None
   /\ timing_only_start (StepResult.timing r) = true
   /\ StepResult.files_done r
      = file_matcher env (matcher_calls st) (keys (Step.volumes step))
                     (Step.match_done step))
  \/ (StepResult.skipped r = false
      /\ StepResult.image_id r = None
      /\ StepResult.exit_code r = Some (-1)%Z
      /\ timing_only_start (StepResult.timing r) = true
      /\ StepResult.files_in r = [])
  \/ (StepResult.skipped r = false
      /\ StepResult.image_id r <> None
      /\ timing_all_set (StepResult.timing r) = true
      /\ StepResult.files_in r
         = file_matcher env (S (matcher_calls st)) (keys (Step.volumes step))
                        (Step.match_in step)).
Proof.
  unfold run_step. unfold bind at 1, now at 1. unfold bind at 1,
    match_patterns_in_dirs at 1. cbn [matcher_calls].
  destruct (truthy_dict _ && negb force_rerun) eqn:Hskip.
  - intros [= <- <-]. left. apply andb_true_iff in Hskip as [_ Hf].
    apply negb_true_iff in Hf. repeat split. exact Hf.
  - unfold bind at 1, match_patterns_in_dirs at 1. unfold bind at 1.
    cbn [matcher_calls]. unfold run_container.
    match goal with |- context [run_container_loop env step log_path 3 3 0 None ?s] =>
      destruct (run_container_loop env step log_path 3 3 0 None s)
        as [[[[c code] ex] st1]|] eqn:Hrun end; [|discriminate].
    destruct (run_container_loop_returns env _ _ _ _ _ _ _ _ _ _ _ Hrun)
      as [Hnone _].
    destruct ex as [e|].
    + apply run_container_loop_exception in Hrun as [-> ->].
      pass_append. intros [= <- <-].
      right. left. repeat split.
    + unfold bind at 1, match_patterns_in_dirs at 1.
      unfold bind at 1, match_patterns_in_dirs at 1.
      unfold bind at 1, now at 1.
      destruct c as [image_id|]; [|destruct (Hnone eq_refl eq_refl) as [[=] _]].
      intros [= <- <-]. right. right. repeat split. discriminate.
Qed.

End RunStepCases.

(** C9: the code does not do what the claim says. For a step that is run
    and fails (here the engine refuses the request with a client error), the
    files found for [match_in] before the run loop, here one file, are not in
    the result, whose [files_in] is empty; only the result of a container that
    ran to its end carries them ([run_step_cases]). *)
Theorem failed_step_drops_files_in :
  exists r st',
    run_step (example_env input_found refusing_engine) (example_step "a step")
             "out/a_step.log" false example_state = Some (r, st')
    /\ file_matcher (example_env input_found refusing_engine) 1
         (keys (Step.volumes (example_step "a step")))
         (Step.match_in (example_step "a step"))
       = [("/data", [("a.in", "sha256:0a")])]
    /\ StepResult.skipped r = false
    /\ StepResult.exit_code r = Some (-1)%Z
    /\ StepResult.files_in r = []
    /\ invocations st' = [example_step "a step"].
Proof. eexists _, _. split; [vm_compute; reflexivity|]. repeat split. Qed.

(** The same step with an engine that runs the container has its input
    files recorded. *)
Lemma finished_step_keeps_files_in :
  exists r st',
    run_step (example_env input_found flaky_engine) (example_step "a step")
             "out/a_step.log" false example_state = Some (r, st')
    /\ StepResult.exit_code r = Some 0%Z
    /\ StepResult.files_in r = [("/data", [("a.in", "sha256:0a")])].
Proof. eexists _, _. split; [vm_compute; reflexivity|]. repeat split. Qed.

(** C3: the code does not do what the claim says. With an engine that
    raises a server error on the first two attempts and runs the container on
    the third, the result has [skipped = False] and exit code [0], but the log
    file holds no retry line: the two lines appended after the failed attempts
    are lost when the third attempt opens the file for writing, which empties
    it; the file is not emptied at the start of the step but in the middle,
    after two writes, and what was in it before the step is lost only then. *)
Theorem retry_lines_lost_on_success :
  exists r st',
    run_step (example_env nothing_found flaky_engine) (example_step "a step")
             "out/a_step.log" false example_state = Some (r, st')
    /\ StepResult.skipped r = false
    /\ StepResult.exit_code r = Some 0%Z
    /\ length (invocations st') = 3
    /\ dict_get (files st') "out/a_step.log" = Some ("hello" ++ nl)%string
    /\ option_map count_retry_markers (dict_get (files st') "out/a_step.log")
       = Some 0
    /\ file_ops st'
       = [Append "out/a_step.log" (retry_log_message 1 3);
          Append "out/a_step.log" (retry_log_message 2 3);
          Truncate "out/a_step.log";
          Append "out/a_step.log" ("hello" ++ nl)%string]
    /\ count_retry_markers
         (String.append (retry_log_message 1 3) (retry_log_message 2 3)) = 2.
Proof. eexists _, _. split; [vm_compute; reflexivity|]. repeat split. Qed.

(** In general: whatever was written to the log before an attempt that
    starts the container is gone after it. *)
Lemma started_attempt_empties_log (env : Env) (step : Step.t)
    (log_path : string) (max_attempts remaining attempts : nat)
    (retried : option Docker.exn) (st : State) entries status_code image_id :
  engine env (length (invocations st)) step
  = Docker.Streamed entries (Docker.Exited status_code image_id) ->
  exists st',
    run_container_loop env step log_path max_attempts (S remaining) attempts
                       retried st
    = Some ((Some image_id, status_code, None), st')
    /\ dict_get (files st') log_path = Some (String.concat "" entries).
Proof.
  intros Hengine. cbn [run_container_loop].
  unfold bind at 1, containers_run at 1. rewrite Hengine.
  unfold bind at 1, open_w at 1. unfold bind at 1.
  assert (Hall : forall l st0 content,
             dict_get (files st0) log_path = Some content ->
             exists st1, write_all log_path l st0 = Some (tt, st1)
                         /\ dict_get (files st1) log_path
                            = Some (String.append content (String.concat "" l))).
  { induction l as [|x l IH]; intros st0 content Hc.
    - exists st0. simpl. split; [reflexivity|].
      rewrite Hc. f_equal. clear. induction content; simpl; congruence.
    - simpl. unfold bind at 1, write at 1. rewrite Hc.
      match goal with |- context [write_all log_path l ?s] =>
        destruct (IH s (String.append content x)) as (st1 & -> & Hf) end.
      + simpl. rewrite dict_get_set, String.eqb_refl. reflexivity.
      + exists st1. split; [reflexivity|]. rewrite Hf. f_equal.
        destruct l as [|y l'].
        * simpl. clear. induction content; simpl; [|congruence].
          clear. induction x; simpl; congruence.
        * simpl. clear. induction content; simpl; congruence. }
  match goal with |- context [write_all log_path entries ?s] =>
    destruct (Hall entries s "") as (st1 & -> & Hf) end.
  - simpl. rewrite dict_get_set, String.eqb_refl. reflexivity.
  - exists st1. split; [reflexivity | exact Hf].
Qed.

(** ** The loop over the steps *)

Section RunStepsFacts.

Variable env : Env.

Lemma stops_when_ok results : ok_so_far results -> stops_at_failure results.
Proof.
  intros Hok front r back -> Hr. unfold ok_so_far in Hok.
  rewrite Forall_app in Hok. destruct Hok as [_ Hok].
  inversion Hok; subst. congruence.
Qed.

Lemma stops_after_last results r :
  ok_so_far results -> stops_at_failure (results ++ [r]).
Proof.
  induction results as [|a results IH]; intros Hok front x back Heq Hx.
  - destruct front as [|y front]; simpl in Heq.
    + now injection Heq.
    + injection Heq as _ Heq. now destruct front.
  - inversion Hok; subst. destruct front as [|y front]; simpl in Heq.
    + injection Heq as <- _. congruence.
    + injection Heq as _ Heq. now apply (IH ltac:(assumption) front x back).
Qed.

(** After a result with a nonzero exit code the loop returns, in the state
    the step left, whatever steps remain. *)
Lemma run_steps_stops (execution_path : string) (force_rerun : bool)
    (step_names : option (list string))
    (step : Step.t) (rest : list Step.t) (results : list StepResult.t)
    (name : string) (st : State) (r : StepResult.t) (st' : State) :
  left_out step_names step = false ->
  Step.name step = Some name ->
  run_step env step
           (path_of env execution_path (String.append (replace_spaces name) ".log"))
           force_rerun st = Some (r, st') ->
  truthy_int (StepResult.exit_code r) = true ->
  run_steps env execution_path force_rerun step_names (step :: rest) results st
  = Some (results ++ [r], st').
Proof.
  intros Hin Hname Hrun Hr. cbn [run_steps]. rewrite Hin, Hname.
  unfold bind. rewrite Hrun, Hr. reflexivity.
Qed.

(** After a result without exit code or with exit code zero the loop goes
    on with the next step. *)
Lemma run_steps_continues (execution_path : string) (force_rerun : bool)
    (step_names : option (list string))
    (step : Step.t) (rest : list Step.t) (results : list StepResult.t)
    (name : string) (st : State) (r : StepResult.t) (st' : State) :
  left_out step_names step = false ->
  Step.name step = Some name ->
  run_step env step
           (path_of env execution_path (String.append (replace_spaces name) ".log"))
           force_rerun st = Some (r, st') ->
  truthy_int (StepResult.exit_code r) = false ->
  run_steps env execution_path force_rerun step_names (step :: rest) results st
  = run_steps env execution_path force_rerun step_names rest (results ++ [r]) st'.
Proof.
  intros Hin Hname Hrun Hr. cbn [run_steps]. rewrite Hin, Hname.
  unfold bind. rewrite Hrun, Hr. reflexivity.
Qed.

Lemma run_steps_results (execution_path : string) (force_rerun : bool)
    (step_names : option (list string)) (steps : list Step.t) :
  forall results st results' st',
    run_steps env execution_path force_rerun step_names steps results st
    = Some (results', st') ->
    ok_so_far results -> stops_at_failure results'.
Proof.
  induction steps as [|step rest IH]; intros results st results' st'.
  - simpl. unfold ret. intros [= <- _]. apply stops_when_ok.
  - cbn [run_steps].
    destruct (left_out step_names step); [apply IH|].
    destruct (Step.name step) as [name|]; [|discriminate].
    unfold bind at 1.
    destruct (run_step env step _ force_rerun st) as [[r st1]|]; [|discriminate].
    destruct (truthy_int (StepResult.exit_code r)) eqn:Hr.
    + unfold ret. intros [= <- _]. apply stops_after_last.
    + intros Hrun Hok. apply (IH _ _ _ _ Hrun).
      apply Forall_app. split; [assumption | now constructor].
Qed.

(** Every call of [run_step] that returns has read the clock. *)
Lemma run_step_clock (step : Step.t) (log_path : string)
    (force_rerun : bool) (st : State) (r : StepResult.t) (st' : State) :
  run_step env step log_path force_rerun st = Some (r, st') ->
  clock_reads st < clock_reads st'.
Proof.
  unfold run_step. unfold bind at 1, now at 1. unfold bind at 1,
    match_patterns_in_dirs at 1.
  destruct (truthy_dict _ && negb force_rerun).
  - unfold ret. intros [= _ <-]. simpl. lia.
  - unfold bind at 1, match_patterns_in_dirs at 1. unfold bind at 1.
    unfold run_container.
    match goal with |- context [run_container_loop env step log_path 3 3 0 None ?s] =>
      destruct (run_container_loop env step log_path 3 3 0 None s)
        as [[[[c code] ex] st1]|] eqn:Hrun end; [|discriminate].
    destruct (run_container_loop_returns env _ _ _ _ _ _ _ _ _ _ _ Hrun)
      as (_ & k & _ & _ & Hc & _).
    cbn [clock_reads] in Hc.
    destruct ex as [e|].
    + pass_append. unfold ret. intros [= _ <-]. simpl. lia.
    + unfold bind at 1, match_patterns_in_dirs at 1.
      unfold bind at 1, match_patterns_in_dirs at 1.
      unfold bind at 1, now at 1.
      destruct c as [image_id|]; [|discriminate].
      unfold ret. intros [= _ <-]. simpl. lia.
Qed.

(** The clock is not read backwards in the loop. *)
Lemma run_steps_clock (execution_path : string) (force_rerun : bool)
    (step_names : option (list string)) (steps : list Step.t) :
  forall results st results' st',
    run_steps env execution_path force_rerun step_names steps results st
    = Some (results', st') ->
    clock_reads st <= clock_reads st'.
Proof.
  induction steps as [|step rest IH]; intros results st results' st'.
  - simpl. unfold ret. intros [= _ <-]. lia.
  - cbn [run_steps].
    destruct (left_out step_names step); [apply IH|].
    destruct (Step.name step) as [name|]; [|discriminate].
    unfold bind at 1.
    destruct (run_step env step _ force_rerun st) as [[r st1]|] eqn:Hrun;
      [|discriminate].
    apply run_step_clock in Hrun.
    destruct (truthy_int (StepResult.exit_code r)).
    + unfold ret. intros [= _ <-]. lia.
    + intros H. apply IH in H. lia.
Qed.

(** When every step is left out, or there is none, the loop returns at
    once. *)
Lemma run_steps_none_selected (execution_path : string) (force_rerun : bool)
    (step_names : option (list string)) (steps : list Step.t) :
  selected step_names steps = [] ->
  forall results st,
    run_steps env execution_path force_rerun step_names steps results st
    = Some (results, st).
Proof.
  unfold selected.
  induction steps as [|step rest IH]; intros Hsel results st; [reflexivity|].
  cbn [run_steps]. cbn [filter] in Hsel.
  destruct (left_out step_names step); [|discriminate]. now apply IH.
Qed.

End RunStepsFacts.

(** C2: in every run, a result with a nonzero exit code is the last one;
    when a step that is run gives such a result, the loop over the steps
    returns in the state that step left, whatever steps remain; and in a
    pipeline of three steps, run without a filter on names, where the first
    step does not stop the run and the second ends with a nonzero exit code,
    there are exactly two results, and all that was asked of the engine was
    asked for the first and the second step. *)
Theorem failure_stops_the_run (env : Env) (original : Pipeline.t)
    (execution_path : string) (args : dict string) (force_rerun : bool)
    (st : State) :
  (forall step_names record st',
      run_pipeline env original execution_path args force_rerun step_names st
      = Some (record, st') ->
      stops_at_failure (ExecutionRecord.step_results record))
  /\ (forall step_names step rest results name st1 r st2,
         left_out step_names step = false ->
         Step.name step = Some name ->
         run_step env step
           (path_of env execution_path (String.append (replace_spaces name) ".log"))
           force_rerun st1 = Some (r, st2) ->
         truthy_int (StepResult.exit_code r) = true ->
         run_steps env execution_path force_rerun step_names (step :: rest)
                   results st1
         = Some (results ++ [r], st2))
  /\ (forall s1 s2 s3 n1 n2 start st0 r1 st1 r2 st2,
         Pipeline.steps (Pipeline.amend original args) = [s1; s2; s3] ->
         Step.name s1 = Some n1 -> Step.name s2 = Some n2 ->
         now env st = Some (start, st0) ->
         run_step env s1
           (path_of env execution_path (String.append (replace_spaces n1) ".log"))
           force_rerun st0 = Some (r1, st1) ->
         truthy_int (StepResult.exit_code r1) = false ->
         run_step env s2
           (path_of env execution_path (String.append (replace_spaces n2) ".log"))
           force_rerun st1 = Some (r2, st2) ->
         truthy_int (StepResult.exit_code r2) = true ->
         exists record st',
           run_pipeline env original execution_path args force_rerun None st
           = Some (record, st')
           /\ ExecutionRecord.step_results record = [r1; r2]
           /\ length (ExecutionRecord.step_results record) = 2
           /\ invocations st' = invocations st2
           /\ exists k1 k2,
               invocations st' = invocations st ++ repeat s1 k1 ++ repeat s2 k2).
Proof.
  split; [|split].
  - intros step_names record st'. unfold run_pipeline.
    unfold bind at 1, now at 1. unfold bind at 1.
    destruct (run_steps _ _ _ _ _ _ _) as [[results st1]|] eqn:Hrun; [|discriminate].
    unfold bind at 1, now at 1. unfold ret. intros [= <- _]. simpl.
    apply (run_steps_results _ _ _ _ _ _ _ _ _ Hrun). constructor.
  - intros step_names step rest results name st1 r st2.
    apply run_steps_stops.
  - intros s1 s2 s3 n1 n2 start st0 r1 st1 r2 st2 Hsteps Hn1 Hn2 Hnow
           Hrun1 Hr1 Hrun2 Hr2.
    unfold run_pipeline. unfold bind at 1. rewrite Hnow. unfold bind at 1.
    fold (Pipeline.amend original args). rewrite Hsteps.
    rewrite (run_steps_continues env _ _ None _ _ _ _ _ _ _ eq_refl Hn1 Hrun1 Hr1).
    rewrite (run_steps_stops env _ _ None _ _ _ _ _ _ _ eq_refl Hn2 Hrun2 Hr2).
    unfold bind at 1, now at 1. unfold ret.
    eexists _, _. split; [reflexivity|]. simpl.
    repeat split.
    destruct (run_step_returns env _ _ _ _ _ _ Hrun1) as (_ & k1 & _ & Hi1).
    destruct (run_step_returns env _ _ _ _ _ _ Hrun2) as (_ & k2 & _ & Hi2).
    exists k1, k2. rewrite Hi2, Hi1, <- app_assoc. f_equal.
    unfold now in Hnow. injection Hnow as _ <-. reflexivity.
Qed.

Lemma failure_stops_the_run_witness :
  exists record st',
    run_pipeline (example_env nothing_found second_fails_engine)
                 (example_pipeline
                    [example_step "a"; example_step "b"; example_step "c"])
                 "out" [] false None example_state
    = Some (record, st')
    /\ map StepResult.exit_code (ExecutionRecord.step_results record)
       = [Some 0%Z; Some 2%Z]
    /\ length (ExecutionRecord.step_results record) = 2
    /\ invocations st' = [example_step "a"; example_step "b"].
Proof.
  edestruct (proj2 (proj2 (failure_stops_the_run
                      (example_env nothing_found second_fails_engine)
                      (example_pipeline
                         [example_step "a"; example_step "b"; example_step "c"])
                      "out" [] false example_state))
               (example_step "a") (example_step "b") (example_step "c") "a" "b")
    as (record & st' & Hrun & Hres & Hlen & Hinv & _).
  - reflexivity.
  - reflexivity.
  - reflexivity.
  - reflexivity.
  - vm_compute. reflexivity.
  - reflexivity.
  - vm_compute. reflexivity.
  - reflexivity.
  - exists record, st'. split; [exact Hrun|]. rewrite Hres, Hinv.
    repeat split.
Defined.

(** C10, as stated, fails: [Timing._is_complete] asks for a duration above
    zero, and the duration of a run is the difference of two readings of the
    clock, which need not differ. Here the step list is empty and the clock
    gives the same time twice: the timing has [start], [finish] and
    [duration] all set, and [_is_complete] answers [False]. *)
Lemma frozen_clock_timing_is_not_complete :
  exists record st' tm,
    run_pipeline (frozen_env nothing_found refusing_engine)
                 (example_pipeline []) "out" [] false None example_state
    = Some (record, st')
    /\ ExecutionRecord.step_results record = []
    /\ ExecutionRecord.timing record = Some tm
    /\ timing_all_set (Some tm) = true
    /\ Timing.duration tm = Some 0%Z
    /\ Timing._is_complete tm = Some false.
Proof. eexists _, _, _. split; [vm_compute; reflexivity|]. repeat split. Qed.

(** C10 (amended): the record of every run that returns has a timing with
    [start], [finish] and [duration] all set, whatever the steps did: [start]
    is the time read when the run begins, [finish] the time read after the
    last step, a later reading, and [duration] is the time from one to the
    other. The timing is complete, as [Timing._is_complete] has it, exactly
    when [finish] is later than [start], and so whenever the clock advances
    from each reading to the next. When every step is left out, or there is
    no step, the run returns, without results. *)
Theorem run_timing_is_complete (env : Env) (original : Pipeline.t)
    (execution_path : string) (args : dict string) (force_rerun : bool)
    (step_names : option (list string)) (st : State) :
  (forall record st',
      run_pipeline env original execution_path args force_rerun step_names st
      = Some (record, st') ->
      ExecutionRecord.timing record = Some (run_timing env st st')
      /\ clock_reads st < pred (clock_reads st')
      /\ timing_all_set (ExecutionRecord.timing record) = true
      /\ Timing._is_complete (run_timing env st st')
         = Some (Z.ltb (clock env (clock_reads st))
                       (clock env (pred (clock_reads st'))))
      /\ (clock_advances env ->
          Timing._is_complete (run_timing env st st') = Some true))
  /\ (selected step_names (Pipeline.steps (Pipeline.amend original args)) = [] ->
      exists record st',
        run_pipeline env original execution_path args force_rerun step_names st
        = Some (record, st')
        /\ ExecutionRecord.step_results record = []).
Proof.
  split.
  - intros record st'. unfold run_pipeline.
    unfold bind at 1, now at 1. unfold bind at 1.
    destruct (run_steps _ _ _ _ _ _ _) as [[results st1]|] eqn:Hrun;
      [|discriminate].
    apply run_steps_clock in Hrun. cbn [clock_reads] in Hrun.
    unfold bind at 1, now at 1. unfold ret. intros [= <- <-].
    unfold run_timing. cbn [ExecutionRecord.timing clock_reads Nat.pred].
    assert (Hc : Timing._is_complete
                   {| Timing.start := Some (clock env (clock_reads st));
                      Timing.finish := Some (clock env (clock_reads st1));
                      Timing.duration :=
                        Some (clock env (clock_reads st1)
                              - clock env (clock_reads st))%Z |}
                 = Some (Z.ltb (clock env (clock_reads st))
                               (clock env (clock_reads st1)))).
    { unfold Timing._is_complete. cbn. f_equal.
      apply eq_true_iff_eq. rewrite !Z.ltb_lt. lia. }
    split; [reflexivity|]. split; [lia|]. split; [reflexivity|].
    split; [exact Hc|].
    intros Hadv. rewrite Hc. f_equal. apply Z.ltb_lt. apply Hadv. lia.
  - intros Hsel. unfold run_pipeline.
    unfold bind at 1, now at 1. unfold bind at 1.
    fold (Pipeline.amend original args).
    rewrite (run_steps_none_selected env _ _ _ _ Hsel).
    unfold bind at 1, now at 1. unfold ret. now eexists _, _.
Qed.

Lemma run_timing_is_complete_witness :
  exists record st' tm,
    run_pipeline (example_env nothing_found refusing_engine)
                 (example_pipeline [example_step "a"; example_step "b"])
                 "out" [] false None example_state
    = Some (record, st')
    /\ map StepResult.exit_code (ExecutionRecord.step_results record)
       = [Some (-1)%Z]
    /\ ExecutionRecord.timing record = Some tm
    /\ Timing._is_complete tm = Some true.
Proof.
  assert (Hrun : exists record st',
             run_pipeline (example_env nothing_found refusing_engine)
                          (example_pipeline [example_step "a"; example_step "b"])
                          "out" [] false None example_state
             = Some (record, st')
             /\ map StepResult.exit_code (ExecutionRecord.step_results record)
                = [Some (-1)%Z]).
  { eexists _, _. split; [vm_compute; reflexivity | reflexivity]. }
  destruct Hrun as (record & st' & Hrun & Hcodes).
  destruct (proj1 (run_timing_is_complete
                     (example_env nothing_found refusing_engine)
                     (example_pipeline [example_step "a"; example_step "b"])
                     "out" [] false None example_state) record st' Hrun)
    as (Htm & _ & _ & _ & Hadv).
  exists record, st', (run_timing (example_env nothing_found refusing_engine)
                                  example_state st').
  split; [exact Hrun|]. split; [exact Hcodes|]. split; [exact Htm|].
  apply Hadv. intros m n Hmn. unfold example_env. cbn [clock]. lia.
Defined.

(** ** The amendment on the store: what it leaves as it is *)

Module StoreFacts.

Import Store View.

Create HintDb store.

Section Frame.

Variable n : nat.

Lemma preserves_ret {A} (Q : A -> Prop) (a : A) :
  Q a -> preserves n Q (ret a).
Proof. intros Hq h a' h' Hn [= <- <-]. auto. Qed.

Lemma preserves_raise {A} (Q : A -> Prop) : preserves n Q raise.
Proof. intros h a h' _ [=]. Qed.

Lemma preserves_bind {A B} (Q1 : A -> Prop) (Q2 : B -> Prop)
    (m : H A) (k : A -> H B) :
  preserves n Q1 m -> (forall a, Q1 a -> preserves n Q2 (k a)) ->
  preserves n Q2 (bind m k).
Proof.
  intros Hm Hk h b h' Hn. unfold bind.
  destruct (m h) as [[a h1]|] eqn:E; [|discriminate].
  destruct (Hm _ _ _ Hn E) as (Hn1 & Hf1 & Hq1). intros Hrun.
  destruct (Hk a Hq1 _ _ _ Hn1 Hrun) as (Hn2 & Hf2 & Hq2).
  repeat split; [assumption | congruence | assumption].
Qed.

Lemma preserves_then {A B} (Q : B -> Prop) (m : H A) (k : A -> H B) :
  preserves n any m -> (forall a, preserves n Q (k a)) ->
  preserves n Q (bind m k).
Proof. intros Hm Hk. apply (preserves_bind any); auto. Qed.

Lemma preserves_any {A} (Q : A -> Prop) (m : H A) :
  preserves n Q m -> preserves n any m.
Proof.
  intros Hm h a h' Hn Hrun. destruct (Hm _ _ _ Hn Hrun) as (? & ? & _).
  repeat split; assumption.
Qed.

Lemma preserves_read v : preserves n any (read v).
Proof.
  intros h o h' Hn. unfold read. destruct v; try discriminate.
  destruct (nth_error h l); [|discriminate]. intros [= <- <-].
  repeat split; assumption.
Qed.

Lemma preserves_alloc o : preserves n (fresh n) (alloc o).
Proof.
  intros h v h' Hn [= <- <-]. rewrite length_app. split; [lia|]. split.
  - rewrite firstn_app. replace (n - length h) with 0 by lia.
    simpl. now rewrite app_nil_r.
  - now exists (length h).
Qed.

Lemma preserves_update l o : n <= l -> preserves n any (update l o).
Proof.
  intros Hl h u h' Hn. unfold update.
  destruct (Nat.ltb l (length h)) eqn:E; [|discriminate].
  apply Nat.ltb_lt in E. intros Hrun.
  assert (h' = firstn l h ++ o :: skipn (S l) h) as -> by congruence.
  rewrite length_app. cbn [length]. rewrite length_firstn, length_skipn.
  split; [lia|]. split; [|exact I].
  rewrite firstn_app, firstn_firstn, length_firstn.
  replace (Nat.min n l) with n by lia.
  replace (n - Nat.min l (length h)) with 0 by lia.
  simpl. now rewrite app_nil_r.
Qed.

Lemma preserves_mapM {A B} (f : A -> H B) (l : list A) :
  (forall a, preserves n any (f a)) -> preserves n any (mapM f l).
Proof.
  intros Hf. induction l as [|a l IH]; simpl.
  - now apply preserves_ret.
  - apply preserves_then; [apply Hf|]. intros b.
    apply preserves_then; [apply IH|]. intros bs. now apply preserves_ret.
Qed.

Lemma preserves_for_each {A} (body : A -> H unit) (l : list A) :
  (forall a, preserves n any (body a)) -> preserves n any (for_each l body).
Proof.
  intros Hb. induction l as [|a l IH]; simpl.
  - now apply preserves_ret.
  - apply preserves_then; [apply Hb | intros _; apply IH].
Qed.

#[local] Hint Resolve preserves_read preserves_raise : store.
#[local] Hint Extern 1 (preserves _ any (ret _)) =>
  apply preserves_ret; exact I : store.

Ltac step_by_step :=
  repeat first
    [ solve [eauto with store]
    | apply preserves_then; [ | intros ? ]
    | match goal with
      | |- preserves _ _ (match ?x with _ => _ end) => destruct x
      | |- preserves _ _ (if ?x then _ else _) => destruct x
      end ].

Lemma preserves_read_list v : preserves n any (read_list v).
Proof. unfold read_list. step_by_step. Qed.

Lemma preserves_read_dict v : preserves n any (read_dict v).
Proof. unfold read_dict. step_by_step. Qed.

Lemma preserves_read_step v : preserves n any (read_step v).
Proof. unfold read_step. step_by_step. Qed.

Lemma preserves_read_pipeline v : preserves n any (read_pipeline v).
Proof. unfold read_pipeline. step_by_step. Qed.

#[local] Hint Resolve preserves_read_list preserves_read_dict preserves_read_step
  preserves_read_pipeline : store.

Lemma preserves_truthy v : preserves n any (truthy v).
Proof. unfold truthy. destruct v; step_by_step. Qed.

#[local] Hint Resolve preserves_truthy : store.

Lemma preserves_or_else x y : preserves n any (or_else x y).
Proof. unfold or_else. step_by_step. Qed.

Lemma preserves_read_args args : preserves n any (read_args args).
Proof. unfold read_args. step_by_step. Qed.

Lemma preserves_alloc_any o : preserves n any (alloc o).
Proof. apply (preserves_any (fresh n)), preserves_alloc. Qed.

#[local] Hint Resolve preserves_or_else preserves_read_args preserves_alloc_any
  preserves_alloc : store.

Lemma preserves_apply_args fuel : forall x args,
  preserves n any (apply_args fuel x args).
Proof.
  induction fuel as [|fuel IH]; intros x args; simpl.
  - apply preserves_raise.
  - destruct x; step_by_step.
    + apply preserves_mapM. intros e. apply IH.
    + apply preserves_mapM. intros kv. step_by_step.
Qed.

#[local] Hint Resolve preserves_apply_args : store.

Lemma preserves_step_with_args_applied fuel self args :
  preserves n (fresh n) (step_with_args_applied fuel self args).
Proof. unfold step_with_args_applied. step_by_step. Qed.

Lemma preserves_merge a b : preserves n any (merge a b).
Proof. unfold merge. step_by_step. Qed.

#[local] Hint Resolve preserves_merge : store.

(** The step returned is the step given, or a new one. *)
Lemma preserves_step_with_prototype_applied self prototype :
  preserves n (fun v => v = self \/ fresh n v)
            (step_with_prototype_applied self prototype).
Proof.
  unfold step_with_prototype_applied.
  apply preserves_then; [auto with store|]. intros has.
  destruct (negb has).
  - apply preserves_ret. now left.
  - step_by_step.
    intros h v h' Hn Hrun.
    destruct (preserves_alloc _ _ _ _ Hn Hrun) as (? & ? & ?). auto.
Qed.

Lemma preserves_getitem d k : preserves n any (getitem d k).
Proof. unfold getitem. step_by_step. Qed.

Lemma preserves_contains d k : preserves n any (contains d k).
Proof. unfold contains. step_by_step. Qed.

(** A dict that is not among the first [n] objects can be changed. *)
Lemma preserves_setitem d k v : fresh n d -> preserves n any (setitem d k v).
Proof.
  intros (l & -> & Hl). unfold setitem. step_by_step.
  now apply preserves_update.
Qed.

#[local] Hint Resolve preserves_getitem preserves_contains preserves_setitem : store.

Lemma preserves_combine_args self args :
  preserves n (fresh n) (combine_args self args).
Proof.
  unfold combine_args.
  apply (preserves_bind (fresh n)); [apply preserves_alloc|].
  intros accepted_args Hfresh. step_by_step.
  - apply preserves_for_each. intros k. step_by_step.
  - now apply preserves_ret.
Qed.

Lemma preserves_combine_args_any self args :
  preserves n any (combine_args self args).
Proof. apply (preserves_any (fresh n)), preserves_combine_args. Qed.

Lemma preserves_step_with_args_applied_any fuel self args :
  preserves n any (step_with_args_applied fuel self args).
Proof. apply (preserves_any (fresh n)), preserves_step_with_args_applied. Qed.

Lemma preserves_step_with_prototype_applied_any self prototype :
  preserves n any (step_with_prototype_applied self prototype).
Proof. eapply preserves_any, preserves_step_with_prototype_applied. Qed.

#[local] Hint Resolve preserves_combine_args_any
  preserves_step_with_args_applied_any
  preserves_step_with_prototype_applied_any preserves_mapM : store.

Lemma preserves_pipeline_with_args_applied fuel self args :
  preserves n (fresh n) (pipeline_with_args_applied fuel self args).
Proof. unfold pipeline_with_args_applied. step_by_step. Qed.

Lemma preserves_pipeline_with_prototype_applied self :
  preserves n (fresh n) (pipeline_with_prototype_applied self).
Proof. unfold pipeline_with_prototype_applied. step_by_step. Qed.

Lemma preserves_amend fuel original args :
  preserves n (fresh n) (amend fuel original args).
Proof.
  unfold amend. apply preserves_then.
  - apply (preserves_any (fresh n)), preserves_pipeline_with_args_applied.
  - intros amended. apply preserves_pipeline_with_prototype_applied.
Qed.

End Frame.

End StoreFacts.

(** ** The value of a pipeline in a store that has grown *)

Module ViewFacts.

Import Store View.

Section Extends.

Variables h added : heap.

Lemma lookup_extends v o :
  lookup h v = Some o -> lookup (h ++ added) v = Some o.
Proof.
  destruct v; simpl; try discriminate. intros H.
  rewrite nth_error_app1; [assumption|].
  apply nth_error_Some. congruence.
Qed.

Lemma load_items_mono {A} (f g : val -> option A) items l :
  (forall v a, f v = Some a -> g v = Some a) ->
  load_items f items = Some l -> load_items g items = Some l.
Proof.
  intros Hfg. revert l. induction items as [|v items IH]; simpl; intros l;
    [trivial|].
  destruct (f v) as [a|] eqn:E; [|discriminate]. rewrite (Hfg _ _ E).
  destruct (load_items f items) as [l'|]; [|discriminate].
  now rewrite (IH _ eq_refl).
Qed.

Lemma load_entries_mono {A} (f g : val -> option A) entries d :
  (forall v a, f v = Some a -> g v = Some a) ->
  load_entries f entries = Some d -> load_entries g entries = Some d.
Proof.
  intros Hfg. revert d.
  induction entries as [|[k v] entries IH]; simpl; intros d; [trivial|].
  destruct (f v) as [a|] eqn:E; [|discriminate]. rewrite (Hfg _ _ E).
  destruct (load_entries f entries) as [d'|]; [|discriminate].
  now rewrite (IH _ eq_refl).
Qed.

Lemma load_strs_extends v l :
  load_strs h v = Some l -> load_strs (h ++ added) v = Some l.
Proof.
  unfold load_strs. destruct (lookup h v) as [o|] eqn:E; [|discriminate].
  now rewrite (lookup_extends _ _ E).
Qed.

Lemma load_env_extends v d :
  load_env h v = Some d -> load_env (h ++ added) v = Some d.
Proof.
  unfold load_env. destruct (lookup h v) as [o|] eqn:E; [|discriminate].
  now rewrite (lookup_extends _ _ E).
Qed.

Lemma load_volume_extends v x :
  load_volume h v = Some x -> load_volume (h ++ added) v = Some x.
Proof.
  destruct v; simpl; trivial.
  destruct (load_env h (VRef l)) as [d|] eqn:E; [|discriminate].
  now rewrite (load_env_extends _ _ E).
Qed.

Lemma load_volumes_extends v d :
  load_volumes h v = Some d -> load_volumes (h ++ added) v = Some d.
Proof.
  unfold load_volumes. destruct (lookup h v) as [o|] eqn:E; [|discriminate].
  rewrite (lookup_extends _ _ E). destruct o; trivial.
  apply load_entries_mono, load_volume_extends.
Qed.

Ltac field_by_field H :=
  repeat match type of H with
         | match ?c with Some _ => _ | None => None end = Some _ =>
             let E := fresh "E" in
             destruct c eqn:E; [|discriminate];
             first [ rewrite (load_strs_extends _ _ E)
                   | rewrite (load_env_extends _ _ E)
                   | rewrite (load_volumes_extends _ _ E)
                   | idtac ]
         end.

Lemma load_step_extends v s :
  load_step h v = Some s -> load_step (h ++ added) v = Some s.
Proof.
  unfold load_step. destruct (lookup h v) as [o|] eqn:E; [|discriminate].
  rewrite (lookup_extends _ _ E). destruct o; trivial.
  intros H. field_by_field H. exact H.
Qed.

Lemma load_prototype_extends v s :
  load_prototype h v = Some s -> load_prototype (h ++ added) v = Some s.
Proof.
  destruct v; simpl; trivial.
  destruct (load_step h (VRef l)) as [x|] eqn:E; [|discriminate].
  now rewrite (load_step_extends _ _ E).
Qed.

Lemma load_steps_extends v l :
  load_steps h v = Some l -> load_steps (h ++ added) v = Some l.
Proof.
  unfold load_steps. destruct (lookup h v) as [o|] eqn:E; [|discriminate].
  rewrite (lookup_extends _ _ E). destruct o; trivial.
  apply load_items_mono, load_step_extends.
Qed.

Lemma load_pipeline_extends v P :
  load_pipeline h v = Some P -> load_pipeline (h ++ added) v = Some P.
Proof.
  unfold load_pipeline. destruct (lookup h v) as [o|] eqn:E; [|discriminate].
  rewrite (lookup_extends _ _ E). destruct o; trivial.
  intros H.
  repeat match type of H with
         | match ?c with Some _ => _ | None => None end = Some _ =>
             let E := fresh "E" in
             destruct c eqn:E; [|discriminate];
             first [ rewrite (load_env_extends _ _ E)
                   | rewrite (load_prototype_extends _ _ E)
                   | rewrite (load_steps_extends _ _ E)
                   | idtac ]
         end.
  exact H.
Qed.

End Extends.

End ViewFacts.

(** ** The amendment on the store computes the amendment on values *)

Module StoreRefines.

Import Store View ViewFacts.

Lemma extends_refl h : extends h h.
Proof. exists []. now rewrite app_nil_r. Qed.

Lemma extends_trans h1 h2 h3 : extends h1 h2 -> extends h2 h3 -> extends h1 h3.
Proof. intros [k1 ->] [k2 ->]. exists (k1 ++ k2). now rewrite app_assoc. Qed.

Lemma returns_ret {A} (a : A) h (Q : A -> heap -> Prop) :
  Q a h -> returns (ret a) h Q.
Proof. intros Hq. exists a, h. repeat split; [apply extends_refl | assumption]. Qed.

Lemma returns_bind {A B} (m : H A) (k : A -> H B) h
    (Q1 : A -> heap -> Prop) (Q2 : B -> heap -> Prop) :
  returns m h Q1 ->
  (forall a h1, extends h h1 -> Q1 a h1 -> returns (k a) h1 Q2) ->
  returns (bind m k) h Q2.
Proof.
  intros (a & h1 & Hm & Hext1 & Hq1) Hk.
  destruct (Hk a h1 Hext1 Hq1) as (b & h2 & Hrun & Hext2 & Hq2).
  exists b, h2. unfold bind. rewrite Hm.
  repeat split; [assumption | now apply (extends_trans _ h1) | assumption].
Qed.

Lemma returns_weaken {A} (m : H A) h (Q Q' : A -> heap -> Prop) :
  returns m h Q -> (forall a h', extends h h' -> Q a h' -> Q' a h') ->
  returns m h Q'.
Proof.
  intros (a & h' & Hm & Hext & Hq) Hqq. exists a, h'. auto.
Qed.

Lemma returns_read v o h (Q : obj -> heap -> Prop) :
  lookup h v = Some o -> Q o h -> returns (read v) h Q.
Proof.
  intros Hl Hq. exists o, h. unfold read. destruct v; try discriminate.
  simpl in Hl. rewrite Hl. repeat split; [apply extends_refl | assumption].
Qed.

Lemma returns_alloc o h (Q : val -> heap -> Prop) :
  Q (VRef (length h)) (h ++ [o]) -> returns (alloc o) h Q.
Proof.
  intros Hq. exists (VRef (length h)), (h ++ [o]).
  repeat split; [now exists [o] | assumption].
Qed.

Lemma lookup_new h o : lookup (h ++ [o]) (VRef (length h)) = Some o.
Proof. simpl. now rewrite nth_error_app2, Nat.sub_diag. Qed.

(** The views in a store that has grown. *)
Section Grown.

Variables h h' : heap.
Hypothesis Hext : extends h h'.

Lemma lookup_grown v o : lookup h v = Some o -> lookup h' v = Some o.
Proof. destruct Hext as [k ->]. apply lookup_extends. Qed.

Lemma load_strs_grown v l : load_strs h v = Some l -> load_strs h' v = Some l.
Proof. destruct Hext as [k ->]. apply load_strs_extends. Qed.

Lemma load_env_grown v d : load_env h v = Some d -> load_env h' v = Some d.
Proof. destruct Hext as [k ->]. apply load_env_extends. Qed.

Lemma load_volume_grown v x : load_volume h v = Some x -> load_volume h' v = Some x.
Proof. destruct Hext as [k ->]. apply load_volume_extends. Qed.

Lemma load_volumes_grown v d :
  load_volumes h v = Some d -> load_volumes h' v = Some d.
Proof. destruct Hext as [k ->]. apply load_volumes_extends. Qed.

Lemma load_step_grown v s : load_step h v = Some s -> load_step h' v = Some s.
Proof. destruct Hext as [k ->]. apply load_step_extends. Qed.

Lemma load_prototype_grown v s :
  load_prototype h v = Some s -> load_prototype h' v = Some s.
Proof. destruct Hext as [k ->]. apply load_prototype_extends. Qed.

Lemma load_steps_grown v l : load_steps h v = Some l -> load_steps h' v = Some l.
Proof. destruct Hext as [k ->]. apply load_steps_extends. Qed.

Lemma load_pipeline_grown v P :
  load_pipeline h v = Some P -> load_pipeline h' v = Some P.
Proof. destruct Hext as [k ->]. apply load_pipeline_extends. Qed.

End Grown.

(** Every fact about the store [h] becomes a fact about the store it has
    grown into. *)
Ltac grow Hext :=
  match type of Hext with
  | extends ?h ?h1 =>
      repeat match goal with
        | H : lookup h _ = Some _ |- _ => apply (lookup_grown h h1 Hext) in H
        | H : load_strs h _ = Some _ |- _ => apply (load_strs_grown h h1 Hext) in H
        | H : load_env h _ = Some _ |- _ => apply (load_env_grown h h1 Hext) in H
        | H : load_volume h _ = Some _ |- _ => apply (load_volume_grown h h1 Hext) in H
        | H : load_volumes h _ = Some _ |- _ => apply (load_volumes_grown h h1 Hext) in H
        | H : load_step h _ = Some _ |- _ => apply (load_step_grown h h1 Hext) in H
        | H : load_prototype h _ = Some _ |- _ =>
            apply (load_prototype_grown h h1 Hext) in H
        | H : load_steps h _ = Some _ |- _ => apply (load_steps_grown h h1 Hext) in H
        end
  end.

Ltac split_fields H :=
  repeat match type of H with
         | match ?c with Some _ => _ | None => None end = Some _ =>
             let E := fresh "E" in destruct c eqn:E; [|discriminate]
         end.

Ltac use_fields :=
  repeat match goal with
         | H : ?l = Some _ |- context [?l] => rewrite H
         end.

Lemma returns_read_args args h A (Q : dict string -> heap -> Prop) :
  load_env h args = Some A -> Q A h -> returns (read_args args) h Q.
Proof.
  unfold load_env, read_args, read_dict. intros Hl Hq.
  destruct (lookup h args) as [[| entries | |]|] eqn:E; try discriminate.
  eapply returns_bind.
  - eapply returns_bind; [apply (returns_read _ _ _ (fun o h1 => o = ODict entries /\ h1 = h) E); auto|].
    intros a h1 _ [-> ->]. apply (returns_ret _ _ (fun e h1 => e = entries /\ h1 = h)); auto.
  - intros a h1 _ [-> ->]. rewrite Hl. now apply returns_ret.
Qed.


(** *** [apply_args] on the fields of a step *)

Lemma apply_args_unfold fuel x args :
  apply_args (S fuel) x args
  = match x with
    | VStr s =>
        mapping <- read_args args ;;
        ret (VStr (safe_substitute mapping s))
    | VRef _ =>
        o <- read x ;;
        match o with
        | OList items =>
            items' <- mapM (fun e => apply_args fuel e args) items ;;
            alloc (OList items')
        | ODict entries =>
            entries' <-
              mapM (fun kv =>
                      mapping <- read_args args ;;
                      v' <- apply_args fuel (snd kv) args ;;
                      ret (safe_substitute mapping (fst kv), v'))
                   entries ;;
            alloc (ODict (dict_of_items entries'))
        | _ => ret x
        end
    | _ => ret x
    end.
Proof. reflexivity. Qed.

#[local] Arguments apply_args : simpl never.

Section ApplyArgsOnStore.

Variable args : val.
Variable A : dict string.

Lemma read_args_eq h : load_env h args = Some A -> read_args args h = Some (A, h).
Proof.
  unfold load_env, read_args, read_dict, read, bind, lookup.
  destruct args; try discriminate.
  destruct (nth_error h l) as [[| entries | |]|]; try discriminate.
  simpl. now intros ->.
Qed.

Lemma apply_args_VStr_eq fuel h s :
  load_env h args = Some A ->
  apply_args (S fuel) (VStr s) args h = Some (VStr (safe_substitute A s), h).
Proof.
  intros Ha. rewrite apply_args_unfold. unfold bind.
  now rewrite (read_args_eq h Ha).
Qed.

Lemma apply_args_str_refines fuel h v x :
  load_env h args = Some A -> load_str v = Some x ->
  returns (apply_args (S fuel) v args) h
          (fun v' _ => load_str v' = Some (apply_args_str x A)).
Proof.
  intros Ha Hv. destruct v; try discriminate; injection Hv as <-.
  - now apply returns_ret.
  - exists (VStr (safe_substitute A s)), h.
    rewrite (apply_args_VStr_eq _ _ _ Ha).
    repeat split. apply extends_refl.
Qed.

Lemma apply_args_bool_refines fuel h v x :
  load_bool v = Some x ->
  returns (apply_args (S fuel) v args) h (fun v' _ => load_bool v' = Some x).
Proof.
  intros Hv. destruct v; try discriminate; now apply returns_ret.
Qed.

Lemma apply_args_user_refines fuel h v x :
  load_env h args = Some A -> load_user v = Some x ->
  returns (apply_args (S fuel) v args) h
          (fun v' _ => load_user v' = Some (apply_args_user x A)).
Proof.
  intros Ha Hv. destruct v; try discriminate; injection Hv as <-.
  - now apply returns_ret.
  - now apply returns_ret.
  - exists (VStr (safe_substitute A s)), h.
    rewrite (apply_args_VStr_eq _ _ _ Ha).
    repeat split. apply extends_refl.
Qed.

Lemma load_items_VStr (l : list string) : load_items the_str (map VStr l) = Some l.
Proof. induction l as [|s l IH]; simpl; [reflexivity | now rewrite IH]. Qed.

Lemma mapM_strs fuel h items l :
  load_env h args = Some A -> load_items the_str items = Some l ->
  mapM (fun e => apply_args (S fuel) e args) items h
  = Some (map VStr (map (safe_substitute A) l), h).
Proof.
  intros Ha. revert l. induction items as [|v items IH]; simpl; intros l.
  - now intros [= <-].
  - destruct v; try discriminate. simpl the_str.
    destruct (load_items the_str items) as [l'|]; [|discriminate].
    intros [= <-]. unfold bind at 1.
    rewrite (apply_args_VStr_eq _ _ _ Ha). unfold bind at 1.
    now rewrite (IH _ eq_refl).
Qed.

Lemma apply_args_strs_refines fuel h v x :
  load_env h args = Some A -> load_strs h v = Some x ->
  returns (apply_args (S (S fuel)) v args) h
          (fun v' h' => load_strs h' v' = Some (apply_args_strs x A)).
Proof.
  intros Ha. unfold load_strs.
  destruct (lookup h v) as [[items| | |]|] eqn:E; try discriminate. intros Hx.
  destruct v; try discriminate.
  exists (VRef (length h)), (h ++ [OList (map VStr (map (safe_substitute A) x))]).
  split; [|split].
  - rewrite apply_args_unfold. unfold bind at 1, read. simpl in E. rewrite E.
    unfold bind at 1.
    now rewrite (mapM_strs _ _ _ _ Ha Hx).
  - now eexists.
  - rewrite lookup_new. apply load_items_VStr.
Qed.

Lemma load_entries_dict_set {V} (f : val -> option V) d d' k v a :
  load_entries f d = Some d' -> f v = Some a ->
  load_entries f (dict_set d k v) = Some (dict_set d' k a).
Proof.
  intros Hd Hv. revert d' Hd.
  induction d as [|[k0 v0] d IH]; simpl; intros d'.
  - intros [= <-]. simpl. now rewrite Hv.
  - destruct (f v0) as [a0|] eqn:E0; [|discriminate].
    destruct (load_entries f d) as [d0|] eqn:Ed; [|discriminate]. intros [= <-].
    simpl. destruct (String.eqb k k0); simpl.
    + now rewrite Hv, Ed.
    + now rewrite E0, (IH _ eq_refl).
Qed.

Lemma load_entries_fold {V} (f : val -> option V) items items' :
  load_entries f items = Some items' ->
  forall d d', load_entries f d = Some d' ->
  load_entries f (fold_left (fun acc kv => dict_set acc (fst kv) (snd kv)) items d)
  = Some (fold_left (fun acc kv => dict_set acc (fst kv) (snd kv)) items' d').
Proof.
  revert items'. induction items as [|[k v] items IH]; simpl; intros items'.
  - now intros [= <-].
  - destruct (f v) as [a|] eqn:E; [|discriminate].
    destruct (load_entries f items) as [r|]; [|discriminate]. intros [= <-].
    intros d d' Hd. simpl. apply (IH _ eq_refl).
    now apply load_entries_dict_set.
Qed.

Lemma load_entries_dict_of_items {V} (f : val -> option V) items items' :
  load_entries f items = Some items' ->
  load_entries f (dict_of_items items) = Some (dict_of_items items').
Proof. intros H. now apply (load_entries_fold f _ _ H [] []). Qed.

Lemma load_entries_app {V} (f : val -> option V) a a' b b' :
  load_entries f a = Some a' -> load_entries f b = Some b' ->
  load_entries f (a ++ b) = Some (a' ++ b').
Proof.
  revert a'. induction a as [|[k v] a IH]; simpl; intros a'.
  - now intros [= <-].
  - destruct (f v) as [x|]; [|discriminate].
    destruct (load_entries f a) as [r|]; [|discriminate]. intros [= <-] Hb.
    simpl. now rewrite (IH _ eq_refl Hb).
Qed.

Lemma load_entries_VStr (f : string -> string) (g : string -> string)
    (d : dict string) :
  load_entries the_str (map (fun kv => (f (fst kv), VStr (g (snd kv)))) d)
  = Some (map (fun kv => (f (fst kv), g (snd kv))) d).
Proof. induction d as [|[k v] d IH]; simpl; [reflexivity | now rewrite IH]. Qed.

Lemma mapM_env fuel h entries d :
  load_env h args = Some A -> load_entries the_str entries = Some d ->
  mapM (fun kv =>
          mapping <- read_args args ;;
          v' <- apply_args (S fuel) (snd kv) args ;;
          ret (safe_substitute mapping (fst kv), v')) entries h
  = Some (map (fun kv => (safe_substitute A (fst kv),
                          VStr (safe_substitute A (snd kv)))) d, h).
Proof.
  intros Ha. revert d. induction entries as [|[k v] entries IH]; simpl; intros d.
  - now intros [= <-].
  - destruct v; try discriminate. simpl the_str.
    destruct (load_entries the_str entries) as [d'|]; [|discriminate].
    intros [= <-]. unfold bind at 1. unfold bind at 1.
    rewrite (read_args_eq h Ha). unfold bind at 1. simpl snd.
    rewrite (apply_args_VStr_eq _ _ _ Ha). unfold ret at 1. unfold bind at 1.
    now rewrite (IH _ eq_refl).
Qed.

Lemma apply_args_env_refines fuel h v x :
  load_env h args = Some A -> load_env h v = Some x ->
  returns (apply_args (S (S fuel)) v args) h
          (fun v' h' => load_env h' v' = Some (apply_args_env x A)).
Proof.
  intros Ha. unfold load_env at 1.
  destruct (lookup h v) as [[| entries | |]|] eqn:E; try discriminate. intros Hx.
  destruct v; try discriminate.
  eexists (VRef (length h)), (h ++ [ODict _]).
  split; [|split].
  - rewrite apply_args_unfold. unfold bind at 1, read. simpl in E. rewrite E.
    unfold bind at 1.
    rewrite (mapM_env _ _ _ _ Ha Hx). reflexivity.
  - now eexists.
  - unfold load_env. rewrite lookup_new. unfold apply_args_env.
    apply load_entries_dict_of_items, load_entries_VStr.
Qed.

Lemma apply_args_volume_refines fuel h v x :
  load_env h args = Some A -> load_volume h v = Some x ->
  returns (apply_args (S (S fuel)) v args) h
          (fun v' h' => load_volume h' v' = Some (apply_args_volume x A)).
Proof.
  intros Ha Hv. destruct v; try discriminate.
  - injection Hv as <-. exists (VStr (safe_substitute A s)), h.
    rewrite (apply_args_VStr_eq _ _ _ Ha). repeat split. apply extends_refl.
  - simpl in Hv. destruct (load_env h (VRef l)) as [d|] eqn:E; [|discriminate].
    injection Hv as <-.
    eapply returns_weaken; [apply (apply_args_env_refines _ _ _ _ Ha E)|].
    intros v' h' _ Hq. simpl in Hq.
    destruct v'; try (unfold load_env in Hq; simpl in Hq; discriminate).
    simpl. now rewrite Hq.
Qed.

Lemma load_volume_entries_grown h h' entries d :
  extends h h' ->
  load_entries (load_volume h) entries = Some d ->
  load_entries (load_volume h') entries = Some d.
Proof.
  intros Hext. apply load_entries_mono. intros v a.
  now apply load_volume_grown.
Qed.

Lemma mapM_volumes fuel entries :
  forall h d,
    load_env h args = Some A ->
    load_entries (load_volume h) entries = Some d ->
    returns (mapM (fun kv =>
                     mapping <- read_args args ;;
                     v' <- apply_args (S (S fuel)) (snd kv) args ;;
                     ret (safe_substitute mapping (fst kv), v')) entries) h
            (fun entries' h' =>
               load_entries (load_volume h') entries'
               = Some (map (fun kv => (safe_substitute A (fst kv),
                                       apply_args_volume (snd kv) A)) d)).
Proof.
  induction entries as [|[k v] entries IH]; intros h d Ha; cbn [mapM load_entries].
  - intros [= <-]. now apply returns_ret.
  - destruct (load_volume h v) as [x|] eqn:Ev; [|discriminate].
    destruct (load_entries (load_volume h) entries) as [d'|] eqn:Ed; [|discriminate].
    intros [= <-].
    apply (returns_bind _ _ _
             (fun b h1 => exists v', b = (safe_substitute A k, v')
                                     /\ load_volume h1 v' = Some (apply_args_volume x A))).
    + eapply returns_bind;
        [apply (returns_read_args args h A (fun m h1 => m = A /\ h1 = h)); auto|].
      intros m h1 _ [-> ->].
      eapply returns_bind; [apply (apply_args_volume_refines _ _ _ _ Ha Ev)|].
      intros v' h1 _ Hv'. apply returns_ret. now exists v'.
    + intros b h1 Hext (v' & -> & Hv').
      apply (load_volume_entries_grown _ _ _ _ Hext) in Ed. grow Hext.
      eapply returns_bind; [apply (IH _ _ Ha Ed)|].
      intros bs h2 Hext2 Hbs. apply returns_ret. cbn [load_entries map fst snd].
      now rewrite (load_volume_grown _ _ Hext2 _ _ Hv'), Hbs.
Qed.

Lemma apply_args_volumes_refines fuel h v x :
  load_env h args = Some A -> load_volumes h v = Some x ->
  returns (apply_args (S (S (S fuel))) v args) h
          (fun v' h' => load_volumes h' v' = Some (apply_args_volumes x A)).
Proof.
  intros Ha. unfold load_volumes at 1.
  destruct (lookup h v) as [[| entries | |]|] eqn:E; try discriminate. intros Hx.
  destruct v; try discriminate. rewrite apply_args_unfold.
  eapply returns_bind;
    [apply (returns_read _ _ _ (fun o h1 => o = ODict entries /\ h1 = h) E); auto|].
  intros o h1 _ [-> ->].
  eapply returns_bind; [apply (mapM_volumes _ _ _ _ Ha Hx)|].
  intros entries' h2 _ He. apply returns_alloc.
  unfold load_volumes. rewrite lookup_new. unfold apply_args_volumes.
  apply load_entries_dict_of_items.
  apply (load_volume_entries_grown h2); [now eexists | exact He].
Qed.

Lemma returns_read_step v o h (Q : StepObj.t -> heap -> Prop) :
  lookup h v = Some (OStep o) -> Q o h -> returns (read_step v) h Q.
Proof.
  intros Hl Hq. unfold read_step.
  eapply returns_bind;
    [apply (returns_read _ _ _ (fun x h1 => x = OStep o /\ h1 = h) Hl); auto|].
  intros x h1 _ [-> ->]. now apply returns_ret.
Qed.

(** The fields of a step, one after the other. *)
Ltac next_field :=
  eapply returns_bind;
  [ first [ eapply apply_args_str_refines; eassumption
          | eapply apply_args_strs_refines; eassumption
          | eapply apply_args_volumes_refines; eassumption
          | eapply apply_args_env_refines; eassumption
          | eapply apply_args_bool_refines; eassumption
          | eapply apply_args_user_refines; eassumption ]
  | let Hext := fresh "Hext" in
    let Hq := fresh "Hq" in
    intros ? ? Hext Hq; cbv beta in Hq; grow Hext; clear Hext ].

Lemma step_with_args_applied_refines fuel h self s :
  load_env h args = Some A -> load_step h self = Some s ->
  returns (step_with_args_applied (S (S (S fuel))) self args) h
          (fun v h' => load_step h' v = Some (Step._with_args_applied s A)).
Proof.
  intros Ha Hs. unfold load_step in Hs.
  destruct (lookup h self) as [[| |o|]|] eqn:E; try discriminate.
  split_fields Hs. injection Hs as <-.
  unfold step_with_args_applied.
  eapply returns_bind;
    [apply (returns_read_step _ _ _ (fun x h1 => x = o /\ h1 = h) E); auto|].
  intros x h1 _ [-> ->].
  do 15 next_field.
  apply returns_alloc.
  match goal with |- load_step (?h1 ++ [?o1]) _ = _ =>
    assert (Hext : extends h1 (h1 ++ [o1])) by (now eexists) end.
  grow Hext. unfold load_step. rewrite lookup_new.
  cbn [StepObj.name StepObj.description StepObj.image StepObj.command
       StepObj.volumes StepObj.working_dir StepObj.match_done StepObj.match_in
       StepObj.match_out StepObj.match_summary StepObj.environment StepObj.gpus
       StepObj.user StepObj.network_mode StepObj.mac_address].
  use_fields. reflexivity.
Qed.

End ApplyArgsOnStore.


(** *** [_combine_args] *)

Lemma update_last h o o' : update (length h) o' (h ++ [o]) = Some (tt, h ++ [o']).
Proof.
  unfold update. rewrite length_app. simpl length.
  replace (Nat.ltb (length h) (length h + 1)) with true
    by (symmetry; apply Nat.ltb_lt; lia).
  rewrite firstn_app, firstn_all, Nat.sub_diag. simpl firstn. rewrite app_nil_r.
  rewrite skipn_app, skipn_all2 by lia.
  replace (S (length h) - length h) with 1 by lia. reflexivity.
Qed.

Lemma keys_load_entries {V} (f : val -> option V) d d' :
  load_entries f d = Some d' -> keys d' = keys d.
Proof.
  revert d'. induction d as [|[k v] d IH]; simpl; intros d'.
  - now intros [= <-].
  - destruct (f v); [|discriminate].
    destruct (load_entries f d) as [r|]; [|discriminate]. intros [= <-].
    simpl. f_equal. now apply IH.
Qed.

Lemma dict_get_load_entries {V} (f : val -> option V) d d' k :
  load_entries f d = Some d' ->
  match dict_get d k with
  | Some v => exists a, f v = Some a /\ dict_get d' k = Some a
  | None => dict_get d' k = None
  end.
Proof.
  revert d'. induction d as [|[k0 v0] d IH]; simpl; intros d'.
  - now intros [= <-].
  - destruct (f v0) as [a0|] eqn:E0; [|discriminate].
    destruct (load_entries f d) as [r|]; [|discriminate]. intros [= <-].
    simpl. destruct (String.eqb k k0).
    + now exists a0.
    + now apply IH.
Qed.

Lemma dict_get_key {V} (d : dict V) k : In k (keys d) -> dict_get d k <> None.
Proof.
  induction d as [|[k0 v0] d IH]; simpl; [contradiction|].
  destruct (String.eqb k k0) eqn:E; [discriminate|].
  intros [->|Hin]; [now rewrite String.eqb_refl in E | now apply IH].
Qed.

Section CombineArgs.

Variables (h : heap) (self_args args : val).
Variables (declared given : dict val) (D G : dict string).
Hypothesis Hdeclared : lookup h self_args = Some (ODict declared).
Hypothesis HD : load_entries the_str declared = Some D.
Hypothesis Hgiven : lookup h args = Some (ODict given).
Hypothesis HG : load_entries the_str given = Some G.

Lemma read_dict_old d o entries :
  lookup h d = Some (ODict entries) ->
  read_dict d (h ++ [o]) = Some (entries, h ++ [o]).
Proof.
  intros Hl. apply (lookup_extends _ [o]) in Hl.
  unfold read_dict, bind, read. destruct d; try discriminate.
  simpl in Hl. now rewrite Hl.
Qed.

Lemma setitem_new acc k v :
  setitem (VRef (length h)) k v (h ++ [ODict acc])
  = Some (tt, h ++ [ODict (dict_set acc k v)]).
Proof.
  unfold setitem, bind, read_dict, bind, read.
  pose proof (lookup_new h (ODict acc)) as Hl. simpl in Hl. rewrite Hl.
  simpl. apply update_last.
Qed.

Lemma combine_loop (ks : list string) :
  (forall k, In k ks -> In k (keys declared)) ->
  forall acc acc',
    load_entries the_str acc = Some acc' ->
    exists accf,
      for_each ks
        (fun k =>
           given <- contains args k ;;
           if given
           then v <- getitem args k ;; setitem (VRef (length h)) k v
           else v <- getitem self_args k ;; setitem (VRef (length h)) k v)
        (h ++ [ODict acc])
      = Some (tt, h ++ [ODict accf])
      /\ load_entries the_str accf
         = Some (fold_left
                   (fun accepted_args k =>
                      if dict_has G k
                      then dict_set accepted_args k
                             (match dict_get G k with Some v => v | None => "" end)
                      else dict_set accepted_args k
                             (match dict_get D k with Some v => v | None => "" end))
                   ks acc').
Proof.
  induction ks as [|k ks IH]; intros Hks acc acc' Hacc.
  - exists acc. now split.
  - cbn [for_each fold_left]. unfold bind at 1. unfold bind at 1.
    unfold contains at 1, bind at 1.
    rewrite (read_dict_old _ _ _ Hgiven). unfold ret at 1.
    pose proof (dict_get_load_entries the_str given G k HG) as Hk.
    unfold dict_has.
    destruct (dict_get given k) as [v|] eqn:Eg.
    + destruct Hk as (s & Hv & ->). destruct v; try discriminate.
      injection Hv as ->.
      unfold bind at 1. unfold getitem at 1, bind at 1.
      rewrite (read_dict_old _ _ _ Hgiven), Eg. unfold ret at 1.
      rewrite setitem_new.
      apply IH; [intros k' Hk'; apply Hks; now right|].
      now apply load_entries_dict_set.
    + rewrite Hk.
      pose proof (dict_get_load_entries the_str declared D k HD) as Hd.
      destruct (dict_get declared k) as [v|] eqn:Ed;
        [|exfalso; apply (dict_get_key declared k); [apply Hks; now left | exact Ed]].
      destruct Hd as (s & Hv & ->). destruct v; try discriminate.
      injection Hv as ->.
      unfold bind at 1. unfold getitem at 1, bind at 1.
      rewrite (read_dict_old _ _ _ Hdeclared), Ed. unfold ret at 1.
      rewrite setitem_new.
      apply IH; [intros k' Hk'; apply Hks; now right|].
      now apply load_entries_dict_set.
Qed.

End CombineArgs.

Lemma combine_args_refines h p args P G :
  load_env h (PipelineObj.args p) = Some (Pipeline.args P) ->
  load_env h args = Some G ->
  returns (combine_args p args) h
          (fun c h' => load_env h' c = Some (Pipeline._combine_args P G)).
Proof.
  unfold load_env. intros HD HG.
  destruct (lookup h (PipelineObj.args p)) as [[| declared | |]|] eqn:Ed;
    try discriminate.
  destruct (lookup h args) as [[| given | |]|] eqn:Eg; try discriminate.
  destruct (combine_loop h (PipelineObj.args p) args declared given
              (Pipeline.args P) G Ed HD Eg HG (keys declared)
              (fun k Hk => Hk) [] [] eq_refl) as (accf & Hloop & Hload).
  exists (VRef (length h)), (h ++ [ODict accf]). split; [|split].
  - unfold combine_args, bind at 1, alloc at 1. unfold bind at 1.
    rewrite (read_dict_old _ _ _ _ Ed). unfold bind at 1.
    now rewrite Hloop.
  - now eexists.
  - rewrite lookup_new, Hload. unfold Pipeline._combine_args.
    now rewrite (keys_load_entries _ _ _ HD).
Qed.


(** *** The prototype *)

Lemma truthy_str_eq h v x :
  load_str v = Some x -> truthy v h = Some (truthy_str x, h).
Proof. destruct v; try discriminate; now intros [= <-]. Qed.

Lemma truthy_bool_eq h v x :
  load_bool v = Some x -> truthy v h = Some (truthy_bool x, h).
Proof. destruct v; try discriminate; now intros [= <-]. Qed.

Lemma truthy_user_eq h v x :
  load_user v = Some x -> truthy v h = Some (truthy_user x, h).
Proof. destruct v; try discriminate; now intros [= <-]. Qed.

Lemma truthy_strs_eq h v x :
  load_strs h v = Some x -> truthy v h = Some (truthy_list x, h).
Proof.
  unfold load_strs. destruct (lookup h v) as [[items| | |]|] eqn:E; try discriminate.
  destruct v; try discriminate. simpl in E.
  unfold truthy, bind, read. rewrite E. unfold ret.
  destruct items as [|i items]; simpl.
  - now intros [= <-].
  - destruct (the_str i); [|discriminate].
    destruct (load_items the_str items); [|discriminate]. now intros [= <-].
Qed.

Lemma truthy_prototype_eq h v x :
  load_prototype h v = Some x -> truthy v h = Some (negb (is_none x), h).
Proof.
  destruct v; simpl; try (now intros [= <-]); try discriminate.
  destruct (load_step h (VRef l)) as [s|] eqn:E; [|discriminate].
  intros [= <-]. unfold load_step, lookup in E. unfold bind, read.
  now destruct (nth_error h l) as [[| |o|]|].
Qed.

Lemma or_else_str_refines h x y a b :
  load_str x = Some a -> load_str y = Some b ->
  returns (or_else x y) h (fun v _ => load_str v = Some (py_or truthy_str a b)).
Proof.
  intros Hx Hy. exists (if truthy_str a then x else y), h.
  unfold or_else, bind. rewrite (truthy_str_eq _ _ _ Hx).
  split; [reflexivity|]. split; [apply extends_refl|].
  unfold py_or. now destruct (truthy_str a).
Qed.

Lemma or_else_bool_refines h x y a b :
  load_bool x = Some a -> load_bool y = Some b ->
  returns (or_else x y) h (fun v _ => load_bool v = Some (py_or truthy_bool a b)).
Proof.
  intros Hx Hy. exists (if truthy_bool a then x else y), h.
  unfold or_else, bind. rewrite (truthy_bool_eq _ _ _ Hx).
  split; [reflexivity|]. split; [apply extends_refl|].
  unfold py_or. now destruct (truthy_bool a).
Qed.

Lemma or_else_user_refines h x y a b :
  load_user x = Some a -> load_user y = Some b ->
  returns (or_else x y) h (fun v _ => load_user v = Some (py_or truthy_user a b)).
Proof.
  intros Hx Hy. exists (if truthy_user a then x else y), h.
  unfold or_else, bind. rewrite (truthy_user_eq _ _ _ Hx).
  split; [reflexivity|]. split; [apply extends_refl|].
  unfold py_or. now destruct (truthy_user a).
Qed.

Lemma or_else_strs_refines h x y a b :
  load_strs h x = Some a -> load_strs h y = Some b ->
  returns (or_else x y) h
          (fun v h' => load_strs h' v = Some (py_or truthy_list a b)).
Proof.
  intros Hx Hy. exists (if truthy_list a then x else y), h.
  unfold or_else, bind. rewrite (truthy_strs_eq _ _ _ Hx).
  split; [reflexivity|]. split; [apply extends_refl|].
  unfold py_or. now destruct (truthy_list a).
Qed.

Lemma merge_env_refines h a b da db :
  load_env h a = Some da -> load_env h b = Some db ->
  returns (merge a b) h (fun v h' => load_env h' v = Some (dict_merge da db)).
Proof.
  unfold load_env. intros Ha Hb.
  destruct (lookup h a) as [[| ea | |]|] eqn:Ea; try discriminate.
  destruct (lookup h b) as [[| eb | |]|] eqn:Eb; try discriminate.
  exists (VRef (length h)), (h ++ [ODict (dict_merge ea eb)]).
  split; [|split].
  - unfold merge, read_dict, bind, read.
    destruct a, b; try discriminate. simpl in Ea, Eb.
    rewrite Ea. simpl. rewrite Eb. reflexivity.
  - now eexists.
  - rewrite lookup_new. unfold dict_merge.
    apply load_entries_dict_of_items. now apply load_entries_app.
Qed.

Lemma merge_volumes_refines h a b da db :
  load_volumes h a = Some da -> load_volumes h b = Some db ->
  returns (merge a b) h (fun v h' => load_volumes h' v = Some (dict_merge da db)).
Proof.
  unfold load_volumes. intros Ha Hb.
  destruct (lookup h a) as [[| ea | |]|] eqn:Ea; try discriminate.
  destruct (lookup h b) as [[| eb | |]|] eqn:Eb; try discriminate.
  exists (VRef (length h)), (h ++ [ODict (dict_merge ea eb)]).
  split; [|split].
  - unfold merge, read_dict, bind, read.
    destruct a, b; try discriminate. simpl in Ea, Eb.
    rewrite Ea. simpl. rewrite Eb. reflexivity.
  - now eexists.
  - rewrite lookup_new. unfold dict_merge.
    apply load_entries_dict_of_items.
    apply (load_volume_entries_grown h); [now eexists|].
    now apply load_entries_app.
Qed.

Ltac next_merged_field :=
  eapply returns_bind;
  [ first [ eapply or_else_str_refines; eassumption
          | eapply or_else_strs_refines; eassumption
          | eapply merge_volumes_refines; eassumption
          | eapply merge_env_refines; eassumption
          | eapply or_else_bool_refines; eassumption
          | eapply or_else_user_refines; eassumption ]
  | let Hext := fresh "Hext" in
    let Hq := fresh "Hq" in
    intros ? ? Hext Hq; cbv beta in Hq; grow Hext; clear Hext ].

Lemma step_with_prototype_applied_refines h self prototype s t :
  load_step h self = Some s -> load_prototype h prototype = Some t ->
  returns (step_with_prototype_applied self prototype) h
          (fun v h' => load_step h' v = Some (Step._with_prototype_applied s t)).
Proof.
  intros Hs Ht. unfold step_with_prototype_applied.
  apply (returns_bind _ _ _ (fun b h1 => b = negb (is_none t) /\ h1 = h)).
  { exists (negb (is_none t)), h. rewrite (truthy_prototype_eq _ _ _ Ht).
    split; [reflexivity|]. split; [apply extends_refl | now split]. }
  intros has h1 _ [-> ->]. destruct t as [t|]; simpl negb; cbv iota.
  2: { now apply returns_ret. }
  destruct prototype; try discriminate.
  simpl in Ht. destruct (load_step h (VRef l)) as [t'|] eqn:Et; [|discriminate].
  injection Ht as ->.
  unfold load_step in Hs, Et.
  destruct (lookup h self) as [[| |o|]|] eqn:E; try discriminate.
  destruct (lookup h (VRef l)) as [[| |o'|]|] eqn:E'; try discriminate.
  split_fields Hs. injection Hs as <-.
  split_fields Et. injection Et as <-.
  eapply returns_bind;
    [apply (returns_read_step _ _ _ (fun x h1 => x = o /\ h1 = h) E); auto|].
  intros x h1 _ [-> ->].
  eapply returns_bind;
    [apply (returns_read_step _ _ _ (fun x h1 => x = o' /\ h1 = h) E'); auto|].
  intros x h1 _ [-> ->].
  do 15 next_merged_field.
  apply returns_alloc.
  match goal with |- load_step (?h1 ++ [?o1]) _ = _ =>
    assert (Hext : extends h1 (h1 ++ [o1])) by (now eexists) end.
  grow Hext. unfold load_step. rewrite lookup_new.
  cbn [StepObj.name StepObj.description StepObj.image StepObj.command
       StepObj.volumes StepObj.working_dir StepObj.match_done StepObj.match_in
       StepObj.match_out StepObj.match_summary StepObj.environment StepObj.gpus
       StepObj.user StepObj.network_mode StepObj.mac_address].
  use_fields. reflexivity.
Qed.


(** *** The pipeline *)

Lemma load_step_items_grown h h' items l :
  extends h h' ->
  load_items (load_step h) items = Some l ->
  load_items (load_step h') items = Some l.
Proof.
  intros Hext. apply load_items_mono. intros v a. now apply load_step_grown.
Qed.

(** The steps of a list, each by a computation that computes [g], under a
    condition on the store that holds on when the store grows. *)
Lemma mapM_steps (f : val -> H val) (g : Step.t -> Step.t) (Inv : heap -> Prop) :
  (forall h h', extends h h' -> Inv h -> Inv h') ->
  (forall h v s, Inv h -> load_step h v = Some s ->
                 returns (f v) h (fun v' h' => load_step h' v' = Some (g s))) ->
  forall items h l,
    Inv h -> load_items (load_step h) items = Some l ->
    returns (mapM f items) h
            (fun vs h' => load_items (load_step h') vs = Some (map g l)).
Proof.
  intros Hinv Hf. induction items as [|v items IH]; intros h l HI;
    cbn [mapM load_items].
  - intros [= <-]. now apply returns_ret.
  - destruct (load_step h v) as [s|] eqn:Es; [|discriminate].
    destruct (load_items (load_step h) items) as [l'|] eqn:El; [|discriminate].
    intros [= <-].
    eapply returns_bind; [apply (Hf _ _ _ HI Es)|].
    intros v' h1 Hext Hv'. cbv beta in Hv'.
    apply (load_step_items_grown _ _ _ _ Hext) in El.
    eapply returns_bind; [apply (IH _ _ (Hinv _ _ Hext HI) El)|].
    intros vs h2 Hext2 Hvs. apply returns_ret. cbn [load_items map].
    now rewrite (load_step_grown _ _ Hext2 _ _ Hv'), Hvs.
Qed.

Lemma returns_read_list v items h (Q : list val -> heap -> Prop) :
  lookup h v = Some (OList items) -> Q items h -> returns (read_list v) h Q.
Proof.
  intros Hl Hq. unfold read_list.
  eapply returns_bind;
    [apply (returns_read _ _ _ (fun x h1 => x = OList items /\ h1 = h) Hl); auto|].
  intros x h1 _ [-> ->]. now apply returns_ret.
Qed.

Lemma returns_read_pipeline v p h (Q : PipelineObj.t -> heap -> Prop) :
  lookup h v = Some (OPipeline p) -> Q p h -> returns (read_pipeline v) h Q.
Proof.
  intros Hl Hq. unfold read_pipeline.
  eapply returns_bind;
    [apply (returns_read _ _ _ (fun x h1 => x = OPipeline p /\ h1 = h) Hl); auto|].
  intros x h1 _ [-> ->]. now apply returns_ret.
Qed.

Lemma load_steps_new h items l :
  load_items (load_step h) items = Some l ->
  load_steps (h ++ [OList items]) (VRef (length h)) = Some l.
Proof.
  intros Hl. unfold load_steps. rewrite lookup_new.
  apply (load_step_items_grown h); [now eexists | exact Hl].
Qed.

Lemma pipeline_with_args_applied_refines fuel h self args P G :
  load_pipeline h self = Some P -> load_env h args = Some G ->
  returns (pipeline_with_args_applied (S (S (S fuel))) self args) h
          (fun v h' => load_pipeline h' v = Some (Pipeline._with_args_applied P G)).
Proof.
  intros HP HG. unfold load_pipeline in HP.
  destruct (lookup h self) as [[| | |p]|] eqn:E; try discriminate.
  split_fields HP. injection HP as <-.
  unfold load_steps in E4.
  destruct (lookup h (PipelineObj.steps p)) as [[items| | |]|] eqn:Es;
    try discriminate.
  unfold pipeline_with_args_applied.
  eapply returns_bind;
    [apply (returns_read_pipeline _ _ _ (fun x h1 => x = p /\ h1 = h) E); auto|].
  intros x h1 _ [-> ->].
  set (P := {| Pipeline.version := s; Pipeline.description := o;
               Pipeline.args := d; Pipeline.prototype := o0;
               Pipeline.steps := l |}).
  set (C := Pipeline._combine_args P G).
  eapply returns_bind; [apply (combine_args_refines h p args P G E2 HG)|].
  intros c h1 Hext HC. cbv beta in HC. fold C in HC.
  apply (load_step_items_grown _ _ _ _ Hext) in E4. grow Hext. clear Hext.
  apply (returns_bind _ _ _ (fun b h2 => b = negb (is_none o0) /\ h2 = h1)).
  { exists (negb (is_none o0)), h1. rewrite (truthy_prototype_eq _ _ _ E3).
    split; [reflexivity|]. split; [apply extends_refl | now split]. }
  intros has h2 _ [-> ->].
  apply (returns_bind _ _ _
           (fun v h2 => load_prototype h2 v
                        = Some (match o0 with
                                | Some t => Some (Step._with_args_applied t C)
                                | None => None
                                end))).
  { destruct o0 as [t|]; simpl negb; cbv iota.
    - destruct (PipelineObj.prototype p) eqn:Ep; try discriminate.
      simpl in E3. destruct (load_step h1 (VRef l0)) as [t'|] eqn:Et; [|discriminate].
      injection E3 as ->.
      eapply returns_weaken;
        [apply (step_with_args_applied_refines c C fuel h1 _ _ HC Et)|].
      intros v h2 _ Hv. cbv beta in Hv.
      destruct v; try (unfold load_step in Hv; simpl in Hv; discriminate).
      simpl. now rewrite Hv.
    - now apply returns_ret. }
  intros ap h2 Hext Hap.
  apply (load_step_items_grown _ _ _ _ Hext) in E4. grow Hext. clear Hext.
  eapply returns_bind;
    [apply (returns_read_list _ _ _ (fun x h3 => x = items /\ h3 = h2) Es); auto|].
  intros x h3 _ [-> ->].
  eapply returns_bind.
  { apply (mapM_steps _ (fun step => Step._with_args_applied step C)
             (fun h0 => load_env h0 c = Some C)) with (l := l).
    - intros h0 h0' Hext0. now apply load_env_grown.
    - intros h0 v0 s0 Hc Hs0.
      apply (step_with_args_applied_refines c C fuel h0 _ _ Hc Hs0).
    - exact HC.
    - exact E4. }
  intros steps' h3 Hext Hsteps. cbv beta in Hsteps. grow Hext. clear Hext.
  apply (returns_bind _ _ _
           (fun v h' => load_steps h' v
                        = Some (map (fun step => Step._with_args_applied step C) l)));
    [apply returns_alloc; apply (load_steps_new _ _ _ Hsteps)|].
  intros steps_list h4 Hext Hlist. cbv beta in Hlist. grow Hext. clear Hext.
  apply returns_alloc.
  match goal with |- load_pipeline (?h1 ++ [?o1]) _ = _ =>
    assert (Hext : extends h1 (h1 ++ [o1])) by (now eexists) end.
  grow Hext. unfold load_pipeline. rewrite lookup_new.
  cbn [PipelineObj.version PipelineObj.description PipelineObj.args
       PipelineObj.prototype PipelineObj.steps].
  use_fields. reflexivity.
Qed.

Lemma pipeline_with_prototype_applied_refines h self P :
  load_pipeline h self = Some P ->
  returns (pipeline_with_prototype_applied self) h
          (fun v h' => load_pipeline h' v = Some (Pipeline._with_prototype_applied P)).
Proof.
  intros HP. unfold load_pipeline in HP.
  destruct (lookup h self) as [[| | |p]|] eqn:E; try discriminate.
  split_fields HP. injection HP as <-.
  unfold load_steps in E4.
  destruct (lookup h (PipelineObj.steps p)) as [[items| | |]|] eqn:Es;
    try discriminate.
  unfold pipeline_with_prototype_applied.
  eapply returns_bind;
    [apply (returns_read_pipeline _ _ _ (fun x h1 => x = p /\ h1 = h) E); auto|].
  intros x h1 _ [-> ->].
  eapply returns_bind;
    [apply (returns_read_list _ _ _ (fun x h3 => x = items /\ h3 = h) Es); auto|].
  intros x h1 _ [-> ->].
  eapply returns_bind.
  { apply (mapM_steps _ (fun step => Step._with_prototype_applied step o0)
             (fun h0 => load_prototype h0 (PipelineObj.prototype p) = Some o0))
      with (l := l).
    - intros h0 h0' Hext0. now apply load_prototype_grown.
    - intros h0 v0 s0 Hc Hs0.
      now apply step_with_prototype_applied_refines.
    - exact E3.
    - exact E4. }
  intros steps' h3 Hext Hsteps. cbv beta in Hsteps. grow Hext. clear Hext.
  apply (returns_bind _ _ _
           (fun v h' => load_steps h' v
                        = Some (map (fun step => Step._with_prototype_applied step o0) l)));
    [apply returns_alloc; apply (load_steps_new _ _ _ Hsteps)|].
  intros steps_list h4 Hext Hlist. cbv beta in Hlist. grow Hext. clear Hext.
  apply returns_alloc.
  match goal with |- load_pipeline (?h1 ++ [?o1]) _ = _ =>
    assert (Hext : extends h1 (h1 ++ [o1])) by (now eexists) end.
  grow Hext. unfold load_pipeline. rewrite lookup_new.
  cbn [PipelineObj.version PipelineObj.description PipelineObj.args
       PipelineObj.prototype PipelineObj.steps].
  use_fields. reflexivity.
Qed.

(** With fuel for the three levels of a step (the volumes, a volume's
    detail, its strings), the amendment on the store returns, and the pipeline
    it returns is the amendment of the original. *)
Lemma amend_refines fuel h original args P G :
  load_pipeline h original = Some P -> load_env h args = Some G ->
  returns (Store.amend (S (S (S fuel))) original args) h
          (fun v h' => load_pipeline h' v = Some (Pipeline.amend P G)).
Proof.
  intros HP HG. unfold Store.amend.
  eapply returns_bind;
    [apply (pipeline_with_args_applied_refines _ _ _ _ _ _ HP HG)|].
  intros amended h1 _ Ham. cbv beta in Ham.
  now apply pipeline_with_prototype_applied_refines.
Qed.

End StoreRefines.

(** C6: the amendment changes no object of the store: when it returns, the
    store is the store before, with new objects after it; the amended
    pipeline is one of the new objects; so the original pipeline, with every
    step, mapping and list that can be reached from it, has the value it had,
    and so have the runtime args. And it does return, for a pipeline and args
    of the types of [model.py]: the new pipeline it returns has the value that
    the amendment computes from the value of the original. *)
Theorem amend_leaves_original (fuel : nat) (original args : Store.val)
    (h : Store.heap) :
  (forall amended h',
      Store.amend fuel original args h = Some (amended, h') ->
      (exists added, h' = h ++ added)
      /\ View.fresh (length h) amended
      /\ (forall P, View.load_pipeline h original = Some P ->
                    View.load_pipeline h' original = Some P)
      /\ (forall A, View.load_env h args = Some A ->
                    View.load_env h' args = Some A))
  /\ (forall P A,
         3 <= fuel ->
         View.load_pipeline h original = Some P ->
         View.load_env h args = Some A ->
         exists amended h',
           Store.amend fuel original args h = Some (amended, h')
           /\ View.load_pipeline h' amended = Some (Pipeline.amend P A)).
Proof.
  split.
  - intros amended h' Hrun.
    destruct (StoreFacts.preserves_amend (length h) fuel original args
                h amended h' (le_n _) Hrun) as (Hlen & Hfirst & Hfresh).
    rewrite firstn_all in Hfirst.
    assert (Hadd : h' = h ++ skipn (length h) h')
      by (now rewrite <- Hfirst at 1; rewrite firstn_skipn).
    split; [now exists (skipn (length h) h')|]. split; [assumption|].
    rewrite Hadd. split.
    + intros P. apply ViewFacts.load_pipeline_extends.
    + intros A. apply ViewFacts.load_env_extends.
  - intros P A Hfuel HP HA.
    destruct fuel as [|[|[|fuel]]]; try lia.
    destruct (StoreRefines.amend_refines fuel h original args P A HP HA)
      as (amended & h' & Hrun & _ & Hload).
    now exists amended, h'.
Qed.

Lemma amend_leaves_original_witness :
  exists amended h',
    Store.amend 3 (Store.VRef 10) (Store.VRef 11) example_heap
    = Some (amended, h')
    /\ (exists added, h' = example_heap ++ added)
    /\ View.fresh (length example_heap) amended
    /\ View.load_pipeline h' (Store.VRef 10)
       = View.load_pipeline example_heap (Store.VRef 10)
    /\ map Step.command
         (match View.load_pipeline h' amended with
          | Some P => Pipeline.steps P
          | None => []
          end)
       = [["echo"; "hello world in /custom"]; ["echo"; "hello world in /custom"]].
Proof.
  destruct (View.load_pipeline example_heap (Store.VRef 10)) as [P|] eqn:HP;
    [|vm_compute in HP; discriminate].
  destruct (View.load_env example_heap (Store.VRef 11)) as [A|] eqn:HA;
    [|vm_compute in HA; discriminate].
  destruct (amend_leaves_original 3 (Store.VRef 10) (Store.VRef 11) example_heap)
    as [Hframe Hreturns].
  destruct (Hreturns P A (le_n 3) HP HA) as (amended & h' & Hrun & Hload).
  destruct (Hframe _ _ Hrun) as (Hadd & Hfresh & Hsame & _).
  exists amended, h'. split; [exact Hrun|].
  split; [exact Hadd|]. split; [exact Hfresh|].
  split; [now rewrite (Hsame _ HP)|].
  rewrite Hload. vm_compute in HP, HA.
  injection HP as <-. injection HA as <-. reflexivity.
Defined.

(* ===================================================================== *)
(** * Part III. More of the code                                          *)
(* ===================================================================== *)

(** ** [Pipeline._combine_args] *)

Section CombineArgsFacts.

Lemma fold_set_fresh_keys {V} (g : string -> V) (ks : list string) :
  forall acc : dict V,
    NoDup (keys acc ++ ks) ->
    fold_left (fun a k => dict_set a k (g k)) ks acc
    = acc ++ map (fun k => (k, g k)) ks.
Proof.
  induction ks as [|k ks IH]; intros acc Hnd; simpl.
  - now rewrite app_nil_r.
  - assert (Hk : ~ In k (keys acc)).
    { apply NoDup_remove_2 in Hnd. intros Hin. apply Hnd.
      apply in_or_app. now left. }
    rewrite (dict_set_fresh acc k (g k) Hk), IH.
    + now rewrite <- app_assoc.
    + unfold keys in *. rewrite map_app. simpl. now rewrite <- app_assoc.
Qed.

(** The accepted args, entry by entry. *)
Lemma combine_args_entries (P : Pipeline.t) (A : dict string) :
  dict_wf (Pipeline.args P) = true ->
  Pipeline._combine_args P A
  = map (fun k => (k, accepted_value (Pipeline.args P) A k))
        (keys (Pipeline.args P)).
Proof.
  intros Hwf. unfold Pipeline._combine_args.
  transitivity (fold_left
                  (fun a k => dict_set a k (accepted_value (Pipeline.args P) A k))
                  (keys (Pipeline.args P)) []).
  - generalize (@nil (string * string)).
    induction (keys (Pipeline.args P)) as [|k ks IH]; intros acc; simpl;
      [reflexivity|].
    rewrite IH. f_equal. unfold dict_has, accepted_value.
    now destruct (dict_get A k).
  - apply (fold_set_fresh_keys _ _ []). simpl. now apply distinct_NoDup.
Qed.

Lemma dict_get_map_keys {V} (g : string -> V) (ks : list string) k :
  dict_get (map (fun k => (k, g k)) ks) k
  = if existsb (String.eqb k) ks then Some (g k) else None.
Proof.
  induction ks as [|k0 ks IH]; simpl; [reflexivity|].
  destruct (String.eqb k k0) eqn:E; simpl; [|exact IH].
  apply String.eqb_eq in E. now subst.
Qed.

Lemma dict_get_keys {V} (d : dict V) k :
  existsb (String.eqb k) (keys d) = dict_has d k.
Proof.
  unfold dict_has. induction d as [|[k0 v0] d IH]; simpl; [reflexivity|].
  destruct (String.eqb k k0); simpl; [reflexivity | exact IH].
Qed.

Lemma combine_args_keys (P : Pipeline.t) (A : dict string) :
  dict_wf (Pipeline.args P) = true ->
  keys (Pipeline._combine_args P A) = keys (Pipeline.args P).
Proof.
  intros Hwf. rewrite (combine_args_entries P A Hwf).
  unfold keys. rewrite map_map. simpl. apply map_id.
Qed.

End CombineArgsFacts.

(** X1: the args of the amended pipeline have the declared keys, in the
    declared order, and each has the runtime value when one is given and the
    declared default otherwise; a runtime arg that is not declared is not
    there. *)
Theorem amended_args_are_the_declared_ones (P : Pipeline.t) (A : dict string) :
  dict_wf (Pipeline.args P) = true ->
  keys (Pipeline.args (Pipeline.amend P A)) = keys (Pipeline.args P)
  /\ forall k,
      dict_get (Pipeline.args (Pipeline.amend P A)) k
      = match dict_get (Pipeline.args P) k with
        | Some default => Some (match dict_get A k with
                                | Some v => v
                                | None => default
                                end)
        | None => None
        end.
Proof.
  intros Hwf.
  change (Pipeline.args (Pipeline.amend P A)) with (Pipeline._combine_args P A).
  split; [now apply combine_args_keys|].
  rewrite (combine_args_entries P A Hwf).
  intros k. rewrite dict_get_map_keys, dict_get_keys.
    unfold dict_has, accepted_value.
    destruct (dict_get (Pipeline.args P) k); [|reflexivity].
    now destruct (dict_get A k).
Qed.

Lemma amended_args_are_the_declared_ones_witness :
  Pipeline.args (Pipeline.amend two_args_pipeline [("a", "9"); ("c", "5")])
  = [("a", "9"); ("b", "2")]
  /\ dict_get (Pipeline.args
                 (Pipeline.amend two_args_pipeline [("a", "9"); ("c", "5")])) "c"
     = None.
Proof.
  split; [reflexivity|].
  rewrite (proj2 (amended_args_are_the_declared_ones two_args_pipeline
                    [("a", "9"); ("c", "5")] eq_refl) "c").
  reflexivity.
Defined.

(** X2: when no declared arg is given a runtime value, and in particular
    with no runtime args at all, the accepted args are the declared ones. *)
Theorem combine_args_without_runtime_values (P : Pipeline.t) (A : dict string) :
  dict_wf (Pipeline.args P) = true ->
  no_runtime_value (Pipeline.args P) A = true ->
  Pipeline._combine_args P A = Pipeline.args P.
Proof.
  intros Hwf Hno. rewrite (combine_args_entries P A Hwf).
  unfold no_runtime_value in Hno. rewrite forallb_forall in Hno.
  apply distinct_NoDup in Hwf.
  induction (Pipeline.args P) as [|[k v] d IH]; simpl; [reflexivity|].
  inversion Hwf as [|? ? Hk Hd]; subst. f_equal.
  - f_equal. unfold accepted_value. simpl. rewrite String.eqb_refl.
    specialize (Hno k (or_introl eq_refl)). unfold dict_has in Hno.
    now destruct (dict_get A k).
  - rewrite <- IH at 2; [|assumption | intros x Hx; apply Hno; now right].
    apply map_ext_in. intros x Hx. f_equal. unfold accepted_value. simpl.
    destruct (String.eqb x k) eqn:E; [|reflexivity].
    apply String.eqb_eq in E. subst. contradiction.
Qed.

Lemma combine_args_without_runtime_values_witness :
  Pipeline._combine_args two_args_pipeline [("c", "5")]
  = [("a", "1"); ("b", "2")].
Proof.
  apply (combine_args_without_runtime_values two_args_pipeline [("c", "5")]);
    reflexivity.
Defined.

(** X3: amending the amended pipeline again with the same runtime args gives
    the same args. *)
Theorem amended_args_are_stable (P : Pipeline.t) (A : dict string) :
  dict_wf (Pipeline.args P) = true ->
  Pipeline.args (Pipeline.amend (Pipeline.amend P A) A)
  = Pipeline.args (Pipeline.amend P A).
Proof.
  intros Hwf.
  change (Pipeline.args (Pipeline.amend (Pipeline.amend P A) A))
    with (Pipeline._combine_args (Pipeline.amend P A) A).
  assert (Hwf' : dict_wf (Pipeline.args (Pipeline.amend P A)) = true).
  { unfold dict_wf.
    change (Pipeline.args (Pipeline.amend P A))
      with (Pipeline._combine_args P A).
    now rewrite (combine_args_keys P A Hwf). }
  rewrite (combine_args_entries _ A Hwf').
  change (Pipeline.args (Pipeline.amend P A)) with (Pipeline._combine_args P A).
  rewrite (combine_args_keys P A Hwf).
  rewrite (combine_args_entries P A Hwf) at 1.
  apply map_ext. intros k. f_equal.
  unfold accepted_value at 1. destruct (dict_get A k) eqn:E.
  - unfold accepted_value. now rewrite E.
  - rewrite (combine_args_entries P A Hwf), dict_get_map_keys, dict_get_keys.
    unfold dict_has, accepted_value. rewrite E.
    now destruct (dict_get (Pipeline.args P) k).
Qed.

Lemma amended_args_are_stable_witness :
  Pipeline.args (Pipeline.amend
                   (Pipeline.amend two_args_pipeline [("a", "9"); ("c", "5")])
                   [("a", "9"); ("c", "5")])
  = [("a", "9"); ("b", "2")].
Proof.
  rewrite (amended_args_are_stable two_args_pipeline [("a", "9"); ("c", "5")]
             eq_refl).
  reflexivity.
Defined.

(** X4: text without [$] before the rest of a template is copied as it is,
    and the rest is resolved as if it stood alone. *)
Theorem safe_substitute_copies_plain_text (args : dict string) (p s : string) :
  str_dollar_free p = true ->
  safe_substitute args (String.append p s)
  = String.append p (safe_substitute args s).
Proof.
  intros Hp. unfold safe_substitute.
  rewrite list_ascii_of_string_app, (sub_prefix args _ _ Hp),
    string_of_list_ascii_app.
  now rewrite string_of_list_ascii_of_string.
Qed.

Lemma safe_substitute_copies_plain_text_witness :
  safe_substitute [("who", "world")] (String.append "hello, " "$who")
  = String.append "hello, " "world".
Proof.
  refine (eq_trans (safe_substitute_copies_plain_text [("who", "world")] "hello, " "$who"
             eq_refl) _). reflexivity.
Defined.

(** X5: [$$] stands for one [$], whatever the args; what follows is resolved
    as if it stood alone, so that [$$name] gives [$name] and not the value of
    [name]. *)
Theorem safe_substitute_unescapes (args : dict string) (s : string) :
  safe_substitute args (String "$" (String "$" s))
  = String "$" (safe_substitute args s).
Proof.
  unfold safe_substitute. cbn [list_ascii_of_string].
  change "$"%char with dollar. now rewrite sub_at_dollar.
Qed.

(** X6: a placeholder [${name}] is replaced by the value of the arg [name],
    and is left as it is when there is no such arg; what follows is resolved
    as if it stood alone. *)
Theorem safe_substitute_braced (args : dict string) (name s : string) :
  is_identifier name = true ->
  safe_substitute args
    (String "$" (String "{" (String.append name (String "}" s))))
  = String.append
      (replacement args name
         (String "$" (String "{" (String.append name (String "}" "")))))
      (safe_substitute args s).
Proof.
  intros Hid. destruct (is_identifier_chars name Hid) as (c & r & Hn & Hc & Hr).
  unfold safe_substitute. cbn [list_ascii_of_string].
  rewrite list_ascii_of_string_app. cbn [list_ascii_of_string].
  change "$"%char with dollar. change "{"%char with lbrace.
  change "}"%char with rbrace.
  rewrite sub_at_dollar, (match_braced _ _ c r Hn Hc Hr). cbn [fst snd].
  replace (skipn (length (list_ascii_of_string name) + 2)
             (lbrace :: list_ascii_of_string name
              ++ rbrace :: list_ascii_of_string s))
    with (list_ascii_of_string s).
  2: { replace (length (list_ascii_of_string name) + 2)
         with (S (length (list_ascii_of_string name) + 1)) by lia.
       cbn [skipn]. rewrite skipn_app, skipn_all2 by lia.
       replace (length (list_ascii_of_string name) + 1
                - length (list_ascii_of_string name)) with 1 by lia.
       reflexivity. }
  rewrite string_of_list_ascii_app. f_equal.
  unfold convert, replacement. rewrite string_of_list_ascii_of_string.
  destruct (dict_get args name) as [v|].
  - apply string_of_list_ascii_of_string.
  - unfold group0. cbn [string_of_list_ascii].
    rewrite string_of_list_ascii_app, string_of_list_ascii_of_string.
    reflexivity.
Qed.

Lemma safe_substitute_braced_witness :
  safe_substitute [("data_file", "default_file")] "${data_file}.txt"
  = "default_file.txt"
  /\ safe_substitute [] "${data_file}.txt" = "${data_file}.txt".
Proof.
  split.
  - refine (eq_trans (safe_substitute_braced [("data_file", "default_file")]
                        "data_file" ".txt" eq_refl) _).
    reflexivity.
  - refine (eq_trans (safe_substitute_braced [] "data_file" ".txt" eq_refl) _).
    reflexivity.
Defined.

(** X7: a placeholder [$name], where the text does not go on with a
    character of an identifier, is replaced by the value of the arg [name],
    and is left as it is when there is no such arg; what follows is resolved
    as if it stood alone. *)
Theorem safe_substitute_named (args : dict string) (name s : string) :
  is_identifier name = true ->
  ends_identifier s = true ->
  safe_substitute args (String "$" (String.append name s))
  = String.append (replacement args name (String "$" name))
                  (safe_substitute args s).
Proof.
  intros Hid Hs. destruct (is_identifier_chars name Hid) as (c & r & Hn & Hc & Hr).
  unfold safe_substitute. cbn [list_ascii_of_string].
  rewrite list_ascii_of_string_app.
  change "$"%char with dollar.
  rewrite sub_at_dollar, (match_named _ _ c r Hn Hc Hr).
  2: { destruct s as [|x s]; simpl; [exact I|].
       simpl in Hs. now apply negb_true_iff in Hs. }
  cbn [fst snd].
  rewrite skipn_app, skipn_all, Nat.sub_diag. simpl skipn. simpl app.
  rewrite string_of_list_ascii_app. f_equal.
  unfold convert, replacement. rewrite string_of_list_ascii_of_string.
  destruct (dict_get args name) as [v|].
  - apply string_of_list_ascii_of_string.
  - unfold group0. cbn [string_of_list_ascii].
    now rewrite string_of_list_ascii_of_string.
Qed.

Lemma safe_substitute_named_witness :
  safe_substitute [("data_dir", "/custom")] "$data_dir/x" = "/custom/x"
  /\ safe_substitute [("data", "/custom")] "$data_dir/x" = "$data_dir/x".
Proof.
  split.
  - refine (eq_trans (safe_substitute_named [("data_dir", "/custom")] "data_dir" "/x"
               eq_refl eq_refl) _). reflexivity.
  - refine (eq_trans (safe_substitute_named [("data", "/custom")] "data_dir" "/x"
               eq_refl eq_refl) _). reflexivity.
Defined.

(** X8: a [$] at the end of the text, or before a character that is neither
    [$], nor the start of an identifier, nor a brace, is left as it is: it is
    no error. *)
Theorem safe_substitute_keeps_lone_dollar (args : dict string) (s : string) :
  plain_after_dollar s = true ->
  safe_substitute args (String "$" s) = String "$" (safe_substitute args s).
Proof.
  intros Hs. unfold safe_substitute. cbn [list_ascii_of_string].
  change "$"%char with dollar. rewrite sub_at_dollar.
  destruct s as [|c s]; [reflexivity|].
  simpl in Hs. apply andb_true_iff in Hs as [Hs Hb].
  apply andb_true_iff in Hs as [Hd Hi].
  apply negb_true_iff in Hd, Hi, Hb.
  cbn [list_ascii_of_string]. unfold match_after_dollar. rewrite Hd, Hi, Hb.
  reflexivity.
Qed.

Lemma safe_substitute_keeps_lone_dollar_witness :
  safe_substitute [("a", "X")] "$5 and $" = "$5 and $".
Proof.
  refine (eq_trans (safe_substitute_keeps_lone_dollar [("a", "X")] "5 and $" eq_refl) _). reflexivity.
Defined.

(** ** Steps without [$] *)

Section DollarFree.

Variable args : dict string.

Lemma apply_args_str_dollar_free (x : option string) :
  ostr_dollar_free x = true -> apply_args_str x args = x.
Proof.
  destruct x as [s|]; simpl; intros H; [|reflexivity].
  now rewrite safe_substitute_dollar_free.
Qed.

Lemma apply_args_strs_dollar_free (x : list string) :
  forallb str_dollar_free x = true -> apply_args_strs x args = x.
Proof.
  unfold apply_args_strs. induction x as [|s x IH]; simpl; [reflexivity|].
  intros H. apply andb_true_iff in H as [Hs Hx].
  now rewrite safe_substitute_dollar_free, IH.
Qed.

Lemma apply_args_env_dollar_free (x : dict string) :
  dict_wf x = true -> env_dollar_free x = true -> apply_args_env x args = x.
Proof.
  intros Hw He. unfold apply_args_env.
  rewrite <- (dict_of_items_id x Hw) at 2. f_equal.
  rewrite <- (map_id x) at 2. apply map_ext_in. intros [k v] Hin.
  unfold env_dollar_free in He. rewrite forallb_forall in He.
  specialize (He _ Hin). apply andb_true_iff in He as [Hk Hv]. simpl in *.
  now rewrite !safe_substitute_dollar_free.
Qed.

Lemma apply_args_volume_dollar_free (v : volume) :
  volume_wf v = true -> volume_dollar_free v = true ->
  apply_args_volume v args = v.
Proof.
  destruct v as [s|d]; simpl; intros Hw He.
  - now rewrite safe_substitute_dollar_free.
  - now rewrite apply_args_env_dollar_free.
Qed.

Lemma apply_args_volumes_dollar_free (x : dict volume) :
  dict_wf x = true ->
  forallb (fun kv => volume_wf (snd kv)) x = true ->
  forallb (fun kv => str_dollar_free (fst kv) && volume_dollar_free (snd kv)) x
  = true ->
  apply_args_volumes x args = x.
Proof.
  intros Hw Hv He. unfold apply_args_volumes.
  rewrite <- (dict_of_items_id x Hw) at 2. f_equal.
  rewrite <- (map_id x) at 2. apply map_ext_in. intros [k v] Hin.
  rewrite forallb_forall in Hv, He.
  specialize (Hv _ Hin). specialize (He _ Hin).
  apply andb_true_iff in He as [Hk He]. simpl in *.
  now rewrite safe_substitute_dollar_free, apply_args_volume_dollar_free.
Qed.

Lemma apply_args_user_dollar_free (x : option user_t) :
  user_dollar_free x = true -> apply_args_user x args = x.
Proof.
  destruct x as [[s|uid]|]; simpl; intros H; try reflexivity.
  now rewrite safe_substitute_dollar_free.
Qed.

(** A step without [$] is amended to itself, whatever the args. *)
Lemma step_dollar_free_with_args_applied (s : Step.t) :
  step_wf s = true -> step_dollar_free s = true ->
  Step._with_args_applied s args = s.
Proof.
  unfold step_wf, step_dollar_free. intros Hw He.
  repeat (apply andb_true_iff in Hw as [Hw ?]).
  repeat (apply andb_true_iff in He as [He ?]).
  destruct s; unfold Step._with_args_applied; simpl in *.
  rewrite !apply_args_str_dollar_free, !apply_args_strs_dollar_free,
    apply_args_volumes_dollar_free, apply_args_env_dollar_free,
    apply_args_user_dollar_free by assumption.
  reflexivity.
Qed.

End DollarFree.

(** X9: the steps of a pipeline without prototype whose steps hold no [$]
    are left as they are by the amendment, whatever args the pipeline
    declares and whatever args are given at runtime. *)
Theorem amend_keeps_steps_without_dollar (P : Pipeline.t) (A : dict string) :
  Pipeline.prototype P = None ->
  forallb step_wf (Pipeline.steps P) = true ->
  forallb step_dollar_free (Pipeline.steps P) = true ->
  Pipeline.steps (Pipeline.amend P A) = Pipeline.steps P.
Proof.
  intros Hproto Hw He.
  unfold Pipeline.amend, Pipeline._with_prototype_applied,
    Pipeline._with_args_applied.
  simpl. rewrite Hproto. simpl. rewrite map_map.
  rewrite <- (map_id (Pipeline.steps P)) at 2. apply map_ext_in.
  intros s Hin. rewrite forallb_forall in Hw, He.
  now apply step_dollar_free_with_args_applied; [apply Hw | apply He].
Qed.

Lemma amend_keeps_steps_without_dollar_witness :
  Pipeline.steps (Pipeline.amend dollar_free_pipeline [("data_dir", "/custom")])
  = Pipeline.steps dollar_free_pipeline.
Proof. apply amend_keeps_steps_without_dollar; reflexivity. Defined.

(** ** More on the container run loop *)

Section RunContainerMore.

Variable env : Env.

Lemma retry_lines_succ (log_path : string) (m a n : nat) :
  retry_lines log_path m a (S n)
  = Append log_path (retry_log_message (a + 1) m)
    :: retry_lines log_path m (a + 1) n.
Proof.
  unfold retry_lines. cbn [seq map]. f_equal.
  rewrite <- seq_shift, map_map. apply map_ext. intros i.
  do 2 f_equal. lia.
Qed.

(** The loop when no attempt gets as far as opening the log file, each one
    ending with an error that is retried, and no append to the log is
    refused. *)
Lemma run_container_loop_gives_up (step : Step.t) (log_path : string)
    (max_attempts : nat) :
  forall remaining attempts retried st,
    (forall i, i < remaining ->
               fails_to_start (engine env (length (invocations st) + i) step)
               = true) ->
    (forall i, i < remaining ->
               can_append env (length (file_ops st) + i) log_path = true) ->
    exists st',
      run_container_loop env step log_path max_attempts remaining attempts
                         retried st
      = Some ((None, (-1)%Z,
               match remaining with
               | 0 => retried
               | S r => raised_at_start
                          (engine env (length (invocations st) + r) step)
               end), st')
      /\ clock_reads st' = clock_reads st
      /\ matcher_calls st' = matcher_calls st
      /\ invocations st' = invocations st ++ repeat step remaining
      /\ file_ops st'
         = file_ops st ++ retry_lines log_path max_attempts attempts remaining.
Proof.
  induction remaining as [|r IH]; intros attempts retried st Hfail Hcan.
  - exists st. cbn [run_container_loop repeat]. unfold retry_lines. simpl.
    rewrite !app_nil_r. repeat split.
  - pose proof (Hfail 0 ltac:(lia)) as H0. rewrite Nat.add_0_r in H0.
    pose proof (Hcan 0 ltac:(lia)) as Hcan0. rewrite Nat.add_0_r in Hcan0.
    unfold fails_to_start in H0.
    destruct (engine env (length (invocations st)) step) as [e|] eqn:He;
      [|discriminate].
    simpl in H0.
    set (st2 := {| clock_reads := clock_reads st;
                   matcher_calls := matcher_calls st;
                   invocations := invocations st ++ [step];
                   files := dict_set (files st) log_path
                              (String.append
                                 (match dict_get (files st) log_path with
                                  | Some content => content
                                  | None => ""
                                  end)
                                 (retry_log_message (attempts + 1) max_attempts));
                   file_ops := file_ops st
                               ++ [Append log_path
                                     (retry_log_message (attempts + 1)
                                        max_attempts)] |}).
    assert (Hstep :
              run_container_loop env step log_path max_attempts (S r) attempts
                                 retried st
              = run_container_loop env step log_path max_attempts r
                                   (attempts + 1) (Some e) st2).
    { cbn [run_container_loop]. unfold bind at 1, containers_run at 1.
      rewrite He. unfold retried_error in H0.
      destruct (Docker.cls e) as [[|]| |]; try discriminate;
        unfold bind at 1, append at 1; cbn [file_ops]; rewrite Hcan0;
        reflexivity. }
    destruct (IH (attempts + 1) (Some e) st2) as (st' & Hrun & Hc & Hm & Hi & Hf).
    { intros i Hi. subst st2. cbn [invocations].
      rewrite length_app. cbn [length].
      replace (length (invocations st) + 1 + i)
        with (length (invocations st) + S i) by lia.
      apply Hfail. lia. }
    { intros i Hi. subst st2. cbn [file_ops].
      rewrite length_app. cbn [length].
      replace (length (file_ops st) + 1 + i)
        with (length (file_ops st) + S i) by lia.
      apply Hcan. lia. }
    exists st'. rewrite Hstep, Hrun. split; [|split; [|split; [|split]]].
    + do 3 f_equal. destruct r as [|r'].
      * now rewrite Nat.add_0_r, He.
      * subst st2. cbn [invocations]. rewrite length_app. cbn [length].
        do 2 f_equal. lia.
    + exact Hc.
    + exact Hm.
    + rewrite Hi. subst st2. cbn [invocations repeat].
      now rewrite <- app_assoc.
    + rewrite Hf, retry_lines_succ. subst st2. cbn [file_ops].
      now rewrite <- app_assoc.
Qed.

End RunContainerMore.

(** X10: when every attempt ends, before the container starts, with an
    error that is retried (a server-side [APIError] or an exception that is no
    [DockerException]), and the log can be appended to each time,
    [run_container] calls the engine exactly [max_attempts] times, appends one
    line to the log after each attempt, the last one included, and returns no
    container, the exit code [-1] and the error of the last attempt. *)
Theorem run_container_gives_up (env : Env) (step : Step.t)
    (log_path : string) (max_attempts : nat) (st : State) :
  (forall i, i < max_attempts ->
             fails_to_start (engine env (length (invocations st) + i) step)
             = true) ->
  (forall i, i < max_attempts ->
             can_append env (length (file_ops st) + i) log_path = true) ->
  exists st',
    run_container env step log_path max_attempts st
    = Some ((None, (-1)%Z,
             match max_attempts with
             | 0 => None
             | S m => raised_at_start
                        (engine env (length (invocations st) + m) step)
             end), st')
    /\ invocations st' = invocations st ++ repeat step max_attempts
    /\ file_ops st'
       = file_ops st
         ++ map (fun i => Append log_path
                            (retry_log_message (S i) max_attempts))
                (seq 0 max_attempts).
Proof.
  intros Hfail Hcan. unfold run_container.
  destruct (run_container_loop_gives_up env step log_path max_attempts
              max_attempts 0 None st Hfail Hcan)
    as (st' & Hrun & _ & _ & Hi & Hf).
  exists st'. split; [exact Hrun|]. split; [exact Hi|exact Hf].
Qed.

Lemma run_container_gives_up_witness :
  exists st',
    run_container (example_env nothing_found down_engine)
                  (example_step "a step") "out/a_step.log" 3 example_state
    = Some ((None, (-1)%Z, Some server_error), st')
    /\ invocations st' = repeat (example_step "a step") 3
    /\ file_ops st'
       = [Append "out/a_step.log" (retry_log_message 1 3);
          Append "out/a_step.log" (retry_log_message 2 3);
          Append "out/a_step.log" (retry_log_message 3 3)].
Proof.
  destruct (run_container_gives_up (example_env nothing_found down_engine)
              (example_step "a step") "out/a_step.log" 3 example_state)
    as (st' & Hrun & Hi & Hf).
  - intros i _. reflexivity.
  - intros i _. reflexivity.
  - exists st'. split; [exact Hrun|]. split; [exact Hi|exact Hf].
Defined.

(** ** What a run writes *)

Section TextFacts.

Lemma str_app_nil_r (s : string) : String.append s "" = s.
Proof. induction s as [|c s IH]; simpl; [reflexivity | now rewrite IH]. Qed.

Lemma str_app_assoc (a b c : string) :
  String.append (String.append a b) c = String.append a (String.append b c).
Proof. induction a as [|x a IH]; simpl; [reflexivity | now rewrite IH]. Qed.

Lemma concat_cons (e : string) (r : list string) :
  String.concat "" (e :: r) = String.append e (String.concat "" r).
Proof. destruct r as [|y r]; simpl; [now rewrite str_app_nil_r | reflexivity]. Qed.

Lemma dict_set_same {V} (d : dict V) k v :
  dict_get d k = Some v -> dict_set d k v = d.
Proof.
  induction d as [|[k0 v0] d IH]; simpl; [discriminate|].
  destruct (String.eqb k k0) eqn:E.
  - intros [= ->]. reflexivity.
  - intros H. now rewrite (IH H).
Qed.

Lemma dict_set_set {V} (d : dict V) k v w :
  dict_set (dict_set d k v) k w = dict_set d k w.
Proof.
  induction d as [|[k0 v0] d IH]; simpl.
  - now rewrite String.eqb_refl.
  - destruct (String.eqb k k0) eqn:E; simpl; rewrite E; [reflexivity|].
    now rewrite IH.
Qed.

End TextFacts.

Section WritesWithin.

Lemma writes_within_refl paths st : writes_within paths st st.
Proof.
  split; [|reflexivity]. exists []. split; [now rewrite app_nil_r | constructor].
Qed.

Lemma writes_within_same paths st st' :
  files st' = files st -> file_ops st' = file_ops st ->
  writes_within paths st st'.
Proof.
  intros Hf Ho. split.
  - exists []. split; [now rewrite app_nil_r | constructor].
  - intros p _. now rewrite Hf.
Qed.

Lemma writes_within_trans paths st1 st2 st3 :
  writes_within paths st1 st2 -> writes_within paths st2 st3 ->
  writes_within paths st1 st3.
Proof.
  intros [(o1 & E1 & F1) G1] [(o2 & E2 & F2) G2]. split.
  - exists (o1 ++ o2). split.
    + now rewrite E2, E1, app_assoc.
    + apply Forall_app. now split.
  - intros p Hp. now rewrite (G2 p Hp), (G1 p Hp).
Qed.

Lemma writes_within_mono paths paths' st st' :
  incl paths paths' -> writes_within paths st st' ->
  writes_within paths' st st'.
Proof.
  intros Hincl [(o & E & F) G]. split.
  - exists o. split; [exact E|].
    eapply Forall_impl; [|exact F]. intros op. apply Hincl.
  - intros p Hp. apply G. intros Hin. apply Hp. now apply Hincl.
Qed.

Lemma writes_within_set paths st st' path text op :
  In path paths -> op_path op = path ->
  files st' = dict_set (files st) path text ->
  file_ops st' = file_ops st ++ [op] ->
  writes_within paths st st'.
Proof.
  intros Hin Hop Hf Ho. split.
  - exists [op]. split; [exact Ho|]. constructor; [now rewrite Hop | constructor].
  - intros p Hp. rewrite Hf, dict_get_set.
    destruct (String.eqb p path) eqn:E; [|reflexivity].
    apply String.eqb_eq in E. subst p. contradiction.
Qed.

Lemma write_writes_within paths path text st :
  In path paths ->
  exists st', write path text st = Some (tt, st')
              /\ writes_within paths st st'
              /\ invocations st' = invocations st
              /\ clock_reads st' = clock_reads st
              /\ matcher_calls st' = matcher_calls st.
Proof.
  intros Hin. eexists. split; [reflexivity|]. split; [|repeat split].
  eapply (writes_within_set paths st _ path _ (Append path text) Hin);
    reflexivity.
Qed.

Lemma write_all_writes_within paths path entries :
  In path paths ->
  forall st,
  exists st', write_all path entries st = Some (tt, st')
              /\ writes_within paths st st'
              /\ invocations st' = invocations st
              /\ clock_reads st' = clock_reads st
              /\ matcher_calls st' = matcher_calls st.
Proof.
  intros Hin. induction entries as [|e r IH]; intros st.
  - exists st. split; [reflexivity|]. split; [apply writes_within_refl|].
    repeat split.
  - cbn [write_all]. unfold bind.
    destruct (write_writes_within paths path e st Hin)
      as (st1 & -> & Hw1 & Hi1 & Hc1 & Hm1).
    destruct (IH st1) as (st2 & -> & Hw2 & Hi2 & Hc2 & Hm2).
    exists st2. split; [reflexivity|].
    split; [now apply (writes_within_trans paths st st1 st2)|].
    repeat split; congruence.
Qed.

(** The state after the entries of a log are written to a file that is
    there. *)
Lemma write_all_after (path : string) (entries : list string) :
  forall st content,
    dict_get (files st) path = Some content ->
    write_all path entries st
    = Some (tt, {| clock_reads := clock_reads st;
                   matcher_calls := matcher_calls st;
                   invocations := invocations st;
                   files := dict_set (files st) path
                              (String.append content (String.concat "" entries));
                   file_ops := file_ops st ++ map (Append path) entries |}).
Proof.
  induction entries as [|e r IH]; intros st content Hc.
  - cbn [write_all map String.concat]. unfold ret.
    rewrite str_app_nil_r, app_nil_r, (dict_set_same _ _ _ Hc).
    now destruct st.
  - cbn [write_all]. unfold bind at 1, write at 1. rewrite Hc.
    rewrite (IH _ (String.append content e)).
    2: { cbn [files]. now rewrite dict_get_set, String.eqb_refl. }
    cbn [clock_reads matcher_calls invocations files file_ops map].
    rewrite dict_set_set, concat_cons, str_app_assoc, <- app_assoc.
    reflexivity.
Qed.

End WritesWithin.

Section RunContainerFrame.

Variable env : Env.

(** Whatever the loop does, it writes to the log file only, and with
    attempts left it calls the engine at least once. *)
Lemma run_container_loop_frame (step : Step.t) (log_path : string)
    (max_attempts : nat) :
  forall remaining attempts retried st res st',
    run_container_loop env step log_path max_attempts remaining attempts
                       retried st = Some (res, st') ->
    writes_within [log_path] st st'
    /\ length (invocations st) + Nat.min 1 remaining
       <= length (invocations st').
Proof.
  assert (Hin : In log_path [log_path]) by now left.
  induction remaining as [|r IH]; intros attempts retried st res st'.
  - cbn [run_container_loop]. unfold ret. intros H.
    assert (st' = st) as -> by congruence.
    split; [apply writes_within_refl | simpl; lia].
  - assert (Hhandle : forall e st1,
               writes_within [log_path] st st1 ->
               length (invocations st1) = S (length (invocations st)) ->
               (match Docker.cls e with
                | Docker.APIError true => ret (None, (-1)%Z, Some e)
                | Docker.APIError false =>
                    append env log_path (retry_log_message (attempts + 1) max_attempts) ;;;
                    run_container_loop env step log_path max_attempts r
                                       (attempts + 1) (Some e)
                | Docker.DockerException => ret (None, (-1)%Z, Some e)
                | Docker.OtherException =>
                    append env log_path (retry_log_message (attempts + 1) max_attempts) ;;;
                    run_container_loop env step log_path max_attempts r
                                       (attempts + 1) (Some e)
                end) st1 = Some (res, st') ->
               writes_within [log_path] st st'
               /\ length (invocations st) + 1 <= length (invocations st')).
    { intros e st1 Hw1 Hl1 Hrun.
      assert (Hretry :
                (append env log_path (retry_log_message (attempts + 1) max_attempts) ;;;
                 run_container_loop env step log_path max_attempts r
                                    (attempts + 1) (Some e)) st1
                = Some (res, st') ->
                writes_within [log_path] st st'
                /\ length (invocations st) + 1 <= length (invocations st')).
      { unfold bind, append.
        destruct (can_append env (length (file_ops st1)) log_path);
          [|discriminate].
        destruct (write_writes_within [log_path] log_path
                    (retry_log_message (attempts + 1) max_attempts) st1 Hin)
          as (st2 & -> & Hw2 & Hi2 & _).
        intros H. apply IH in H as [Hw3 Hl3]. split.
        - apply (writes_within_trans _ st st1 st'); [exact Hw1|].
          now apply (writes_within_trans _ st1 st2 st').
        - rewrite Hi2 in Hl3. lia. }
      assert (Hret : forall x,
                 @ret State (option string * Z * option Docker.exn) x st1
                 = Some (res, st') ->
                 writes_within [log_path] st st'
                 /\ length (invocations st) + 1 <= length (invocations st')).
      { unfold ret. intros x H.
        assert (st' = st1) as -> by congruence.
        split; [exact Hw1 | lia]. }
      destruct (Docker.cls e) as [[|]| |];
        [exact (Hret _ Hrun) | exact (Hretry Hrun) | exact (Hret _ Hrun)
        | exact (Hretry Hrun)]. }
    cbn [run_container_loop]. unfold bind at 1, containers_run at 1.
    change (Nat.min 1 (S r)) with 1.
    destruct (engine env (length (invocations st)) step) as [e | entries fin].
    + apply Hhandle.
      * now apply writes_within_same.
      * cbn [invocations]. rewrite length_app. simpl. lia.
    + unfold bind at 1, open_w at 1. unfold bind at 1.
      match goal with |- context [write_all log_path entries ?s] =>
        set (st1 := s);
        destruct (write_all_writes_within [log_path] log_path entries Hin st1)
          as (st2 & -> & Hw2 & Hi2 & _) end.
      assert (Hw : writes_within [log_path] st st2).
      { apply (writes_within_trans _ st st1 st2); [|exact Hw2].
        apply (writes_within_set [log_path] st st1 log_path ""
                 (Truncate log_path) Hin); reflexivity. }
      assert (Hl : length (invocations st2) = S (length (invocations st))).
      { rewrite Hi2. subst st1. cbn [invocations]. rewrite length_app. simpl. lia. }
      destruct fin as [status_code image_id | e].
      * unfold ret. intros H. assert (st' = st2) as -> by congruence.
        split; [exact Hw | lia].
      * now apply Hhandle.
Qed.

End RunContainerFrame.



(** ** More on one step *)

Section RunStepMore.

Variable env : Env.

(** What a call of [run_step] leaves behind. *)
Lemma run_step_trace (step : Step.t) (log_path : string)
    (force_rerun : bool) (st : State) (r : StepResult.t) (st' : State) :
  run_step env step log_path force_rerun st = Some (r, st') ->
  StepResult.name r = Step.name step
  /\ StepResult.skipped r = negb (goes_on env step force_rerun st)
  /\ writes_within [log_path] st st'
  /\ exists k,
      k <= 3
      /\ invocations st' = invocations st ++ repeat step k
      /\ (StepResult.skipped r = false ->
          1 <= k /\ StepResult.log_file r = Some log_path
          /\ StepResult.exit_code r <> None)
      /\ (StepResult.skipped r = true ->
          k = 0 /\ files st' = files st /\ file_ops st' = file_ops st
          /\ StepResult.log_file r = None /\ StepResult.exit_code r = None
          /\ StepResult.image_id r = None
          /\ StepResult.files_done r = done_files env step st).
Proof.
  assert (Hin : In log_path [log_path]) by now left.
  unfold goes_on, done_files, run_step. rewrite negb_involutive.
  unfold bind at 1, now at 1. unfold bind at 1, match_patterns_in_dirs at 1.
  cbn [matcher_calls].
  destruct (truthy_dict _ && negb force_rerun) eqn:Hskip.
  - unfold ret. intros H.
    injection H as <- <-. cbn.
    split; [reflexivity|]. split; [reflexivity|].
    split; [now apply writes_within_same|].
    exists 0. rewrite app_nil_r. split; [lia|]. split; [reflexivity|].
    split; [discriminate|]. intros _. repeat split.
  - unfold bind at 1, match_patterns_in_dirs at 1. unfold bind at 1.
    unfold run_container.
    match goal with |- context [run_container_loop env step log_path 3 3 0 None ?s] =>
      set (st0 := s);
      destruct (run_container_loop env step log_path 3 3 0 None st0)
        as [[[[c code] ex] st1]|] eqn:Hrun end; [|discriminate].
    destruct (run_container_loop_returns env _ _ _ _ _ _ _ _ _ _ _ Hrun)
      as (Hnone & k & Hk & Hi & _).
    destruct (run_container_loop_frame env step log_path 3 _ _ _ _ _ _ Hrun)
      as [Hw Hl].
    assert (Hw0 : writes_within [log_path] st st1).
    { apply (writes_within_trans _ st st0 st1); [|exact Hw].
      now apply writes_within_same. }
    assert (Hi0 : invocations st1 = invocations st ++ repeat step k) by exact Hi.
    assert (Hk1 : 1 <= k).
    { rewrite Hi, length_app, repeat_length in Hl. simpl in Hl. lia. }
    destruct ex as [e|].
    + unfold bind at 1, append at 1.
      destruct (can_append env (length (file_ops st1)) log_path);
        [|discriminate].
      destruct (write_writes_within [log_path] log_path (error_message e) st1 Hin)
        as (st2 & -> & Hw2 & Hi2 & _).
      unfold ret. intros H.
      assert (Hst : st' = st2) by congruence. subst st'.
      assert (Hr : r = {| StepResult.name := Step.name step;
                          StepResult.image_id := None;
                          StepResult.exit_code := Some code;
                          StepResult.log_file := Some log_path;
                          StepResult.timing :=
                            Some (Timing.mk (Some (clock env (clock_reads st)))
                                            None None);
                          StepResult.files_done := [];
                          StepResult.files_in := [];
                          StepResult.files_out := [];
                          StepResult.files_summary := [];
                          StepResult.skipped := false |}) by congruence.
      subst r. cbn.
      split; [reflexivity|]. split; [reflexivity|].
      split; [now apply (writes_within_trans _ st st1 st2)|].
      exists k. split; [exact Hk|]. split; [congruence|].
      split; [|discriminate]. intros _. repeat split; [exact Hk1 | discriminate].
    + unfold bind at 1, match_patterns_in_dirs at 1.
      unfold bind at 1, match_patterns_in_dirs at 1.
      unfold bind at 1, now at 1.
      destruct c as [image_id|]; [|destruct (Hnone eq_refl eq_refl) as [[=] _]].
      unfold ret. intros H.
      injection H as <- <-. cbn.
      split; [reflexivity|]. split; [reflexivity|].
      split; [apply (writes_within_trans _ st st1); [exact Hw0|];
              now apply writes_within_same|].
      exists k. split; [exact Hk|]. split; [exact Hi0|].
      split; [|discriminate]. intros _. repeat split; [exact Hk1 | discriminate].
Qed.

End RunStepMore.

(** X12: a step that goes on to its container, whose first attempt starts
    the container and sees it exit, gives a result with that status code,
    zero or not, after one call of the engine: the log file holds what the
    container printed and nothing of what it held before, and the files found
    for the four kinds of patterns and the three fields of the timing are
    recorded. *)
Theorem exited_container_is_recorded (env : Env) (step : Step.t)
    (log_path : string) (force_rerun : bool) (st : State)
    (entries : list string) (status_code : Z) (image_id : string) :
  goes_on env step force_rerun st = true ->
  engine env (length (invocations st)) step
  = Docker.Streamed entries (Docker.Exited status_code image_id) ->
  run_step env step log_path force_rerun st
  = Some ({| StepResult.name := Step.name step;
             StepResult.image_id := Some image_id;
             StepResult.exit_code := Some status_code;
             StepResult.log_file := Some log_path;
             StepResult.timing :=
               Some (Timing.mk
                       (Some (clock env (clock_reads st)))
                       (Some (clock env (S (clock_reads st))))
                       (Some (clock env (S (clock_reads st))
                              - clock env (clock_reads st))%Z));
             StepResult.files_done := done_files env step st;
             StepResult.files_in :=
               file_matcher env (1 + matcher_calls st)
                            (keys (Step.volumes step)) (Step.match_in step);
             StepResult.files_out :=
               file_matcher env (2 + matcher_calls st)
                            (keys (Step.volumes step)) (Step.match_out step);
             StepResult.files_summary :=
               file_matcher env (3 + matcher_calls st)
                            (keys (Step.volumes step)) (Step.match_summary step);
             StepResult.skipped := false |},
          {| clock_reads := 2 + clock_reads st;
             matcher_calls := 4 + matcher_calls st;
             invocations := invocations st ++ [step];
             files := dict_set (files st) log_path (String.concat "" entries);
             file_ops := file_ops st
                         ++ Truncate log_path :: map (Append log_path) entries |}).
Proof.
  unfold goes_on, done_files. intros Hgo Hengine.
  apply negb_true_iff in Hgo.
  unfold run_step. unfold bind at 1, now at 1.
  unfold bind at 1, match_patterns_in_dirs at 1. cbn [matcher_calls].
  rewrite Hgo.
  unfold bind at 1, match_patterns_in_dirs at 1. unfold bind at 1.
  unfold run_container. cbn [run_container_loop].
  unfold bind at 1, containers_run at 1. cbn [invocations]. rewrite Hengine.
  unfold bind at 1, open_w at 1. unfold bind at 1.
  rewrite (write_all_after log_path entries _ "").
  2: { cbn [files]. now rewrite dict_get_set, String.eqb_refl. }
  cbn [clock_reads matcher_calls invocations files file_ops].
  rewrite dict_set_set. cbn. rewrite <- app_assoc. reflexivity.
Qed.

Lemma exited_container_is_recorded_witness :
  exists r st',
    run_step (example_env nothing_found failing_container_engine)
             (example_step "a step") "out/a_step.log" false example_state
    = Some (r, st')
    /\ StepResult.exit_code r = Some 7%Z
    /\ StepResult.skipped r = false
    /\ invocations st' = [example_step "a step"]
    /\ files st' = [("out/a_step.log", "one" ++ nl ++ "two" ++ nl)%string].
Proof.
  eexists _, _. split.
  - apply (exited_container_is_recorded
             (example_env nothing_found failing_container_engine)
             (example_step "a step") "out/a_step.log" false example_state
             ["one" ++ nl; "two" ++ nl]%string 7%Z "sha256:2a");
      reflexivity.
  - repeat split.
Defined.

(** X13: a step that goes on to its container, whose first request the
    engine refuses with an error that is not retried (a client-side
    [APIError], or a [DockerException] that is no [APIError]), gives, when
    the log can be appended to, a result with the exit code [-1], the log
    file and the start time only, after one call of the engine: the log file
    is not emptied, the message of the error is appended to what it held
    before. When the log cannot be appended to, [run_step] returns no result:
    the error of [open] escapes. *)
Theorem refused_step_appends_to_old_log (env : Env) (step : Step.t)
    (log_path : string) (force_rerun : bool) (st : State) (e : Docker.exn) :
  goes_on env step force_rerun st = true ->
  engine env (length (invocations st)) step = Docker.RunRaises e ->
  retried_error e = false ->
  (can_append env (length (file_ops st)) log_path = true ->
   run_step env step log_path force_rerun st
   = Some ({| StepResult.name := Step.name step;
              StepResult.image_id := None;
              StepResult.exit_code := Some (-1)%Z;
              StepResult.log_file := Some log_path;
              StepResult.timing :=
                Some (Timing.mk (Some (clock env (clock_reads st))) None None);
              StepResult.files_done := [];
              StepResult.files_in := [];
              StepResult.files_out := [];
              StepResult.files_summary := [];
              StepResult.skipped := false |},
           {| clock_reads := 1 + clock_reads st;
              matcher_calls := 2 + matcher_calls st;
              invocations := invocations st ++ [step];
              files := dict_set (files st) log_path
                         (String.append (content_of (files st) log_path)
                                        (error_message e));
              file_ops := file_ops st ++ [Append log_path (error_message e)] |}))
  /\ (can_append env (length (file_ops st)) log_path = false ->
      run_step env step log_path force_rerun st = None).
Proof.
  unfold goes_on, done_files, content_of. intros Hgo Hengine Hcls.
  apply negb_true_iff in Hgo. unfold retried_error in Hcls.
  split; intros Hcan;
    unfold run_step; unfold bind at 1, now at 1;
    unfold bind at 1, match_patterns_in_dirs at 1; cbn [matcher_calls];
    rewrite Hgo;
    unfold bind at 1, match_patterns_in_dirs at 1; unfold bind at 1;
    unfold run_container; cbn [run_container_loop];
    unfold bind at 1, containers_run at 1; cbn [invocations];
    rewrite Hengine;
    (destruct (Docker.cls e) as [[|]| |]; try discriminate;
     unfold ret; cbv beta iota; unfold bind at 1, append at 1;
     cbn [file_ops]; rewrite Hcan; reflexivity).
Qed.

Lemma refused_step_appends_to_old_log_witness :
  exists r st',
    run_step (example_env nothing_found refusing_engine)
             (example_step "a step") "out/a_step.log" false example_state
    = Some (r, st')
    /\ StepResult.exit_code r = Some (-1)%Z
    /\ files st'
       = [("out/a_step.log",
           "an older run" ++ nl ++ error_message client_error)%string]
    /\ file_ops st' = [Append "out/a_step.log" (error_message client_error)].
Proof.
  eexists _, _. split.
  - apply (proj1 (refused_step_appends_to_old_log
                    (example_env nothing_found refusing_engine)
                    (example_step "a step") "out/a_step.log" false
                    example_state client_error eq_refl eq_refl eq_refl)).
    reflexivity.
  - repeat split.
Defined.

(** X14: a step is skipped exactly when files were found for its
    [match_done] patterns and [force_rerun] is off (so never with
    [force_rerun]); a skipped result has no log file, no exit code and no
    image id, carries the files found, and nothing was asked of the engine
    and no file was written. *)
Theorem step_is_skipped_iff_done (env : Env) (step : Step.t)
    (log_path : string) (force_rerun : bool) (st : State)
    (r : StepResult.t) (st' : State) :
  run_step env step log_path force_rerun st = Some (r, st') ->
  StepResult.skipped r
  = truthy_dict (done_files env step st) && negb force_rerun
  /\ (StepResult.skipped r = true ->
      StepResult.log_file r = None /\ StepResult.exit_code r = None
      /\ StepResult.image_id r = None
      /\ StepResult.files_done r = done_files env step st
      /\ invocations st' = invocations st
      /\ files st' = files st /\ file_ops st' = file_ops st).
Proof.
  intros Hrun.
  destruct (run_step_trace env step log_path force_rerun st r st' Hrun)
    as (_ & Hskip & _ & k & _ & Hi & _ & Hyes).
  split.
  - rewrite Hskip. unfold goes_on. apply negb_involutive.
  - intros Hs. destruct (Hyes Hs) as (-> & Hf & Ho & Hl & He & Him & Hd).
    simpl in Hi. rewrite app_nil_r in Hi. repeat split; assumption.
Qed.

Lemma step_is_skipped_iff_done_witness :
  exists r st',
    run_step (example_env done_found refusing_engine) (example_step "a step")
             "out/a_step.log" false example_state = Some (r, st')
    /\ StepResult.skipped r = true
    /\ StepResult.log_file r = None
    /\ files st' = files example_state
    /\ file_ops st' = [].
Proof.
  eexists _, _. split; [vm_compute; reflexivity|].
  match goal with |- ?s = true /\ _ =>
    match s with StepResult.skipped ?r =>
      destruct (step_is_skipped_iff_done
                  (example_env done_found refusing_engine)
                  (example_step "a step") "out/a_step.log" false example_state
                  r _ eq_refl) as [Hs Hall]
    end
  end.
  destruct (Hall eq_refl) as (Hl & _ & _ & _ & _ & Hf & Ho).
  repeat split; assumption.
Defined.

(** X15: a result that is not skipped names the log file of the step and
    has an exit code; the engine was called for this step only, at least once
    and at most three times, and no file but the log file of the step was
    written to. *)
Theorem run_step_writes_its_log_only (env : Env) (step : Step.t)
    (log_path : string) (force_rerun : bool) (st : State)
    (r : StepResult.t) (st' : State) :
  run_step env step log_path force_rerun st = Some (r, st') ->
  StepResult.skipped r = false ->
  StepResult.log_file r = Some log_path
  /\ StepResult.exit_code r <> None
  /\ (exists k, 1 <= k /\ k <= 3
                /\ invocations st' = invocations st ++ repeat step k)
  /\ Forall (fun op => op_path op = log_path)
            (skipn (length (file_ops st)) (file_ops st'))
  /\ (forall p, p <> log_path -> dict_get (files st') p = dict_get (files st) p).
Proof.
  intros Hrun Hs.
  destruct (run_step_trace env step log_path force_rerun st r st' Hrun)
    as (_ & _ & [(ops & Ho & Hops) Hfiles] & k & Hk & Hi & Hno & _).
  destruct (Hno Hs) as (Hk1 & Hl & He).
  split; [exact Hl|]. split; [exact He|].
  split; [now exists k|]. split.
  - rewrite Ho, skipn_app, skipn_all, Nat.sub_diag. simpl.
    eapply Forall_impl; [|exact Hops].
    intros op [H|[]]. now symmetry.
  - intros p Hp. apply Hfiles. intros [H|[]]. now apply Hp.
Qed.

Lemma run_step_writes_its_log_only_witness :
  exists r st',
    run_step (example_env nothing_found flaky_engine) (example_step "a step")
             "out/a_step.log" false example_state = Some (r, st')
    /\ StepResult.log_file r = Some "out/a_step.log"
    /\ Forall (fun op => op_path op = "out/a_step.log") (file_ops st').
Proof.
  eexists _, _. split; [vm_compute; reflexivity|].
  match goal with |- StepResult.log_file ?r = _ /\ Forall _ (file_ops ?s) =>
    destruct (run_step_writes_its_log_only
                (example_env nothing_found flaky_engine)
                (example_step "a step") "out/a_step.log" false example_state
                r s eq_refl eq_refl) as (Hl & _ & _ & Hops & _)
  end.
  split; [exact Hl | exact Hops].
Defined.

(** X16: the timing of a result of [run_step] is one [Timing._is_complete]
    answers on without raising, and the answer is [False] for a result without
    image id, that is, for a step that was skipped or whose container did not
    run to its end. *)
Theorem step_timing_can_be_checked (env : Env) (step : Step.t)
    (log_path : string) (force_rerun : bool) (st : State)
    (r : StepResult.t) (st' : State) :
  run_step env step log_path force_rerun st = Some (r, st') ->
  exists tm,
    StepResult.timing r = Some tm
    /\ Timing._is_complete tm <> None
    /\ (StepResult.image_id r = None -> Timing._is_complete tm = Some false).
Proof.
  intros Hrun.
  assert (Honly : forall t, timing_only_start t = true ->
                    exists tm, t = Some tm
                               /\ Timing._is_complete tm = Some false).
  { intros [[[s|] [f|] [d|]]|]; try discriminate. intros _.
    eexists. split; reflexivity. }
  destruct (run_step_cases env step log_path force_rerun st r st' Hrun)
    as [(_ & _ & _ & Ht & _) | [(_ & _ & _ & Ht & _) | (_ & Him & Ht & _)]].
  - destruct (Honly _ Ht) as (tm & Htm & Hc). exists tm.
    split; [exact Htm|]. rewrite Hc. split; [discriminate | reflexivity].
  - destruct (Honly _ Ht) as (tm & Htm & Hc). exists tm.
    split; [exact Htm|]. rewrite Hc. split; [discriminate | reflexivity].
  - destruct (StepResult.timing r) as [[[s|] [f|] [d|]]|]; try discriminate.
    eexists. split; [reflexivity|]. split; [discriminate|].
    intros H. now destruct Him.
Qed.

Lemma step_timing_can_be_checked_witness :
  exists r st' tm,
    run_step (example_env nothing_found refusing_engine)
             (example_step "a step") "out/a_step.log" false example_state
    = Some (r, st')
    /\ StepResult.timing r = Some tm
    /\ Timing._is_complete tm = Some false.
Proof.
  eexists _, _, _. split; [vm_compute; reflexivity|].
  match goal with |- StepResult.timing ?r = _ /\ _ =>
    destruct (step_timing_can_be_checked
                (example_env nothing_found refusing_engine)
                (example_step "a step") "out/a_step.log" false example_state
                r _ eq_refl) as (tm & Htm & _ & Hc)
  end.
  split; [reflexivity|]. reflexivity.
Defined.

(** ** More on the loop over the steps *)

Section RunStepsMore.

Variable env : Env.

Lemma repeat_each_cons (s : Step.t) (ss : list Step.t) (k : nat) (ks : list nat) :
  repeat_each (s :: ss) (k :: ks) = repeat s k ++ repeat_each ss ks.
Proof. reflexivity. Qed.

(** What the loop over the steps leaves behind: results for the first of
    the steps that are not left out, in their order, all of them when no
    result stops the run; calls of the engine for these steps, in their
    order, at most three for each; and writes to their log files only. *)
Lemma run_steps_trace (execution_path : string) (force_rerun : bool)
    (step_names : option (list string)) (steps : list Step.t) :
  forall results st results' st',
    run_steps env execution_path force_rerun step_names steps results st
    = Some (results', st') ->
    exists new ks,
      results' = results ++ new
      /\ map StepResult.name new
         = map Step.name (firstn (length new) (selected step_names steps))
      /\ (ok_so_far new -> length new = length (selected step_names steps))
      /\ length ks = length new
      /\ Forall (fun k => k <= 3) ks
      /\ invocations st'
         = invocations st
           ++ repeat_each (firstn (length new) (selected step_names steps)) ks
      /\ writes_within
           (log_paths env execution_path (selected step_names steps)) st st'.
Proof.
  induction steps as [|step rest IH]; intros results st results' st'.
  - cbn [run_steps]. unfold ret. intros H.
    assert (results' = results) as -> by congruence.
    assert (st' = st) as -> by congruence.
    exists [], []. rewrite !app_nil_r. repeat split.
    + constructor.
    + apply writes_within_refl.
  - cbn [run_steps]. unfold selected. cbn [filter].
    destruct (left_out step_names step) eqn:Hout; cbn [negb]; [apply IH|].
    fold (selected step_names rest).
    destruct (Step.name step) as [name|] eqn:Hname; [|discriminate].
    unfold bind at 1.
    set (log_path := path_of env execution_path
                       (String.append (replace_spaces name) ".log")).
    destruct (run_step env step log_path force_rerun st) as [[r st1]|] eqn:Hrun;
      [|discriminate].
    destruct (run_step_trace env step log_path force_rerun st r st1 Hrun)
      as (Hn & _ & Hw & k & Hk & Hi & _).
    assert (Hpaths : log_paths env execution_path (step :: selected step_names rest)
                     = log_path :: log_paths env execution_path
                                     (selected step_names rest)).
    { unfold log_paths. cbn [flat_map]. now rewrite Hname. }
    rewrite Hpaths.
    assert (Hw1 : writes_within
                    (log_path :: log_paths env execution_path
                                   (selected step_names rest)) st st1).
    { apply (writes_within_mono [log_path]); [|exact Hw].
      intros p [<-|[]]. now left. }
    destruct (truthy_int (StepResult.exit_code r)) eqn:Hr.
    + unfold ret. intros H.
      assert (results' = results ++ [r]) as -> by congruence.
      assert (st' = st1) as -> by congruence.
      exists [r], [k]. cbn [length firstn map].
      split; [reflexivity|]. split; [now rewrite Hn|].
      split; [intros Hok; inversion Hok; congruence|].
      split; [reflexivity|]. split; [constructor; [exact Hk | constructor]|].
      split; [|exact Hw1].
      rewrite Hi. unfold repeat_each. cbn. now rewrite app_nil_r.
    + intros H. apply IH in H
        as (new & ks & Hres & Hnames & Hall & Hlen & Hks & Hinv & Hw2).
      exists (r :: new), (k :: ks). cbn [length firstn map].
      split; [now rewrite Hres, <- app_assoc|].
      split; [now rewrite Hn, Hnames|].
      split; [intros Hok; inversion Hok; subst; f_equal; now apply Hall|].
      split; [now rewrite Hlen|]. split; [now constructor|].
      split.
      * rewrite Hinv, Hi, repeat_each_cons, <- app_assoc. reflexivity.
      * apply (writes_within_trans _ st st1 st'); [exact Hw1|].
        apply (writes_within_mono
                 (log_paths env execution_path (selected step_names rest)));
          [|exact Hw2].
        intros p Hp. now right.
Qed.

(** The same for a run of the pipeline. *)
Lemma run_pipeline_trace (original : Pipeline.t) (execution_path : string)
    (args : dict string) (force_rerun : bool)
    (step_names : option (list string)) (st : State)
    (record : ExecutionRecord.t) (st' : State) :
  run_pipeline env original execution_path args force_rerun step_names st
  = Some (record, st') ->
  let results := ExecutionRecord.step_results record in
  let chosen := selected step_names (Pipeline.steps (Pipeline.amend original args)) in
  ExecutionRecord.amended record = Some (Pipeline.amend original args)
  /\ ExecutionRecord.original record = Some original
  /\ map StepResult.name results
     = map Step.name (firstn (length results) chosen)
  /\ (ok_so_far results -> length results = length chosen)
  /\ (exists ks,
        length ks = length results
        /\ Forall (fun k => k <= 3) ks
        /\ invocations st'
           = invocations st ++ repeat_each (firstn (length results) chosen) ks)
  /\ writes_within (log_paths env execution_path chosen) st st'.
Proof.
  unfold run_pipeline. unfold bind at 1, now at 1. unfold bind at 1.
  fold (Pipeline.amend original args).
  destruct (run_steps _ _ _ _ _ _ _) as [[results st1]|] eqn:Hrun; [|discriminate].
  unfold bind at 1, now at 1. unfold ret. intros H.
  injection H as <- <-. cbn.
  apply run_steps_trace in Hrun
    as (new & ks & Hres & Hnames & Hall & Hlen & Hks & Hinv & Hw).
  simpl in Hres. subst results.
  split; [reflexivity|]. split; [reflexivity|].
  split; [exact Hnames|]. split; [exact Hall|].
  split; [exists ks; repeat split; assumption|].
  destruct Hw as [Hops Hfiles]. split; assumption.
Qed.

End RunStepsMore.

Section StepNames.

Variable env : Env.

Lemma run_steps_empty_names (execution_path : string) (force_rerun : bool)
    (steps : list Step.t) :
  forall results st,
    run_steps env execution_path force_rerun (Some []) steps results st
    = run_steps env execution_path force_rerun None steps results st.
Proof.
  induction steps as [|step rest IH]; intros results st; [reflexivity|].
  cbn [run_steps left_out].
  destruct (Step.name step) as [name|]; [|reflexivity].
  unfold bind.
  destruct (run_step env step _ force_rerun st) as [[r st1]|]; [|reflexivity].
  destruct (truthy_int (StepResult.exit_code r)); [reflexivity | apply IH].
Qed.

Lemma selected_named (n : string) (names : list string) (steps : list Step.t)
    (step : Step.t) :
  In step (selected (Some (n :: names)) steps) ->
  name_in (Step.name step) (n :: names) = true.
Proof.
  unfold selected. rewrite filter_In. intros [_ H].
  apply negb_true_iff in H. unfold left_out in H.
  now apply negb_false_iff in H.
Qed.

End StepNames.

(** X17: an empty list of step names selects every step, as no list does:
    the run is the same. *)
Theorem empty_step_names_select_all (env : Env) (original : Pipeline.t)
    (execution_path : string) (args : dict string) (force_rerun : bool)
    (st : State) :
  run_pipeline env original execution_path args force_rerun (Some []) st
  = run_pipeline env original execution_path args force_rerun None st.
Proof.
  unfold run_pipeline, bind, now.
  now rewrite run_steps_empty_names.
Qed.

(** X18: the results of a run are, in the order of the pipeline, for the
    first of the amended steps that are not left out, one result for each;
    when no result has a nonzero exit code there is a result for every such
    step. *)
Theorem results_follow_the_selected_steps (env : Env) (original : Pipeline.t)
    (execution_path : string) (args : dict string) (force_rerun : bool)
    (step_names : option (list string)) (st : State)
    (record : ExecutionRecord.t) (st' : State) :
  run_pipeline env original execution_path args force_rerun step_names st
  = Some (record, st') ->
  map StepResult.name (ExecutionRecord.step_results record)
  = map Step.name
        (firstn (length (ExecutionRecord.step_results record))
                (selected step_names
                          (Pipeline.steps (Pipeline.amend original args))))
  /\ (ok_so_far (ExecutionRecord.step_results record) ->
      map StepResult.name (ExecutionRecord.step_results record)
      = map Step.name
            (selected step_names
                      (Pipeline.steps (Pipeline.amend original args)))).
Proof.
  intros Hrun.
  destruct (run_pipeline_trace env _ _ _ _ _ _ _ _ Hrun)
    as (_ & _ & Hnames & Hall & _).
  split; [exact Hnames|].
  intros Hok. rewrite Hnames, (Hall Hok). now rewrite firstn_all.
Qed.

Lemma results_follow_the_selected_steps_witness :
  exists record st',
    run_pipeline (example_env nothing_found working_engine) abc_pipeline
                 "out" [] false (Some ["c"; "a"]) example_state
    = Some (record, st')
    /\ map StepResult.name (ExecutionRecord.step_results record)
       = [Some "a"; Some "c"].
Proof.
  assert (Hrun : exists record st',
             run_pipeline (example_env nothing_found working_engine)
                          abc_pipeline "out" [] false (Some ["c"; "a"])
                          example_state
             = Some (record, st')
             /\ ok_so_far (ExecutionRecord.step_results record)).
  { eexists _, _. split; [vm_compute; reflexivity | repeat constructor]. }
  destruct Hrun as (record & st' & Hrun & Hok).
  destruct (results_follow_the_selected_steps _ _ _ _ _ _ _ _ _ Hrun)
    as [_ Hall].
  exists record, st'. split; [exact Hrun|].
  rewrite (Hall Hok). reflexivity.
Defined.

(** X19: in a run, the engine is asked to run the amended steps that have
    a result, in their order, at most three times each, and nothing else:
    never a step that is left out, and never a step after one that has
    failed. *)
Theorem engine_runs_the_steps_with_results (env : Env) (original : Pipeline.t)
    (execution_path : string) (args : dict string) (force_rerun : bool)
    (step_names : option (list string)) (st : State)
    (record : ExecutionRecord.t) (st' : State) :
  run_pipeline env original execution_path args force_rerun step_names st
  = Some (record, st') ->
  exists ks,
    length ks = length (ExecutionRecord.step_results record)
    /\ Forall (fun k => k <= 3) ks
    /\ invocations st'
       = invocations st
         ++ repeat_each
              (firstn (length (ExecutionRecord.step_results record))
                      (selected step_names
                                (Pipeline.steps (Pipeline.amend original args))))
              ks.
Proof.
  intros Hrun.
  now destruct (run_pipeline_trace env _ _ _ _ _ _ _ _ Hrun)
    as (_ & _ & _ & _ & Hks & _).
Qed.

Lemma engine_runs_the_steps_with_results_witness :
  exists record st' ks,
    run_pipeline (example_env nothing_found second_fails_engine) abc_pipeline
                 "out" [] false (Some ["b"; "c"]) example_state
    = Some (record, st')
    /\ length (ExecutionRecord.step_results record) = 2
    /\ invocations st'
       = repeat_each [example_step "b"; example_step "c"] ks.
Proof.
  assert (Hrun : exists record st',
             run_pipeline (example_env nothing_found second_fails_engine)
                          abc_pipeline "out" [] false (Some ["b"; "c"])
                          example_state
             = Some (record, st')
             /\ length (ExecutionRecord.step_results record) = 2).
  { eexists _, _. split; [vm_compute; reflexivity | reflexivity]. }
  destruct Hrun as (record & st' & Hrun & Hlen).
  destruct (engine_runs_the_steps_with_results _ _ _ _ _ _ _ _ _ Hrun)
    as (ks & _ & _ & Hinv).
  exists record, st', ks. split; [exact Hrun|]. split; [exact Hlen|].
  rewrite Hinv, Hlen. reflexivity.
Defined.

(** X20: a run writes to no file but the log files of the amended steps
    that are not left out: every file operation is on one of them, and every
    other file holds after the run what it held before. *)
Theorem run_writes_step_logs_only (env : Env) (original : Pipeline.t)
    (execution_path : string) (args : dict string) (force_rerun : bool)
    (step_names : option (list string)) (st : State)
    (record : ExecutionRecord.t) (st' : State) :
  run_pipeline env original execution_path args force_rerun step_names st
  = Some (record, st') ->
  let logs :=
    log_paths env execution_path
      (selected step_names (Pipeline.steps (Pipeline.amend original args))) in
  Forall (fun op => In (op_path op) logs)
         (skipn (length (file_ops st)) (file_ops st'))
  /\ (forall p, ~ In p logs -> dict_get (files st') p = dict_get (files st) p).
Proof.
  intros Hrun.
  destruct (run_pipeline_trace env _ _ _ _ _ _ _ _ Hrun)
    as (_ & _ & _ & _ & _ & [(ops & Ho & Hops) Hfiles]).
  split; [|exact Hfiles].
  now rewrite Ho, skipn_app, skipn_all, Nat.sub_diag.
Qed.

Lemma run_writes_step_logs_only_witness :
  exists record st',
    run_pipeline (example_env nothing_found down_engine) abc_pipeline
                 "out" [] false (Some ["b"]) example_state
    = Some (record, st')
    /\ Forall (fun op => In (op_path op) ["out/b.log"]) (file_ops st')
    /\ dict_get (files st') "out/a_step.log" = Some ("an older run" ++ nl)%string.
Proof.
  assert (Hrun : exists record st',
             run_pipeline (example_env nothing_found down_engine)
                          abc_pipeline "out" [] false (Some ["b"])
                          example_state
             = Some (record, st')).
  { eexists _, _. vm_compute. reflexivity. }
  destruct Hrun as (record & st' & Hrun).
  destruct (run_writes_step_logs_only _ _ _ _ _ _ _ _ _ Hrun) as [Hops Hfiles].
  exists record, st'. split; [exact Hrun|]. split; [exact Hops|].
  rewrite Hfiles; [reflexivity|].
  intros [H|[]]. discriminate.
Defined.

(** X21: when a non-empty list of step names is given, every result of the
    run is for a step whose name is in the list. *)
Theorem results_are_for_named_steps (env : Env) (original : Pipeline.t)
    (execution_path : string) (args : dict string) (force_rerun : bool)
    (n : string) (names : list string) (st : State)
    (record : ExecutionRecord.t) (st' : State) :
  run_pipeline env original execution_path args force_rerun
               (Some (n :: names)) st
  = Some (record, st') ->
  Forall (fun r => name_in (StepResult.name r) (n :: names) = true)
         (ExecutionRecord.step_results record).
Proof.
  intros Hrun.
  destruct (run_pipeline_trace env _ _ _ _ _ _ _ _ Hrun)
    as (_ & _ & Hnames & _).
  apply Forall_forall. intros r Hr.
  apply (in_map StepResult.name) in Hr. rewrite Hnames in Hr.
  apply in_map_iff in Hr as (step & <- & Hstep).
  apply (selected_named n names
           (Pipeline.steps (Pipeline.amend original args))).
  rewrite <- (firstn_skipn (length (ExecutionRecord.step_results record))).
  apply in_or_app. now left.
Qed.

Lemma results_are_for_named_steps_witness :
  exists record st',
    run_pipeline (example_env nothing_found working_engine) abc_pipeline
                 "out" [] false (Some ["b"; "no such step"]) example_state
    = Some (record, st')
    /\ Forall (fun r => name_in (StepResult.name r) ["b"; "no such step"] = true)
              (ExecutionRecord.step_results record).
Proof.
  assert (Hrun : exists record st',
             run_pipeline (example_env nothing_found working_engine)
                          abc_pipeline "out" [] false
                          (Some ["b"; "no such step"]) example_state
             = Some (record, st')).
  { eexists _, _. vm_compute. reflexivity. }
  destruct Hrun as (record & st' & Hrun).
  exists record, st'. split; [exact Hrun|].
  exact (results_are_for_named_steps _ _ _ _ _ _ _ _ _ _ Hrun).
Defined.

(** ** The volumes passed to the engine, and dicts built from items *)

Section BuiltDicts.

Context {V W : Type}.

(** In a dict built from items, a key has the value of the last item with
    that key. *)
Lemma dict_get_fold_last (kf : string -> string) (vf : V -> W)
    (items : dict V) (p : string) :
  forall acc : dict W,
    dict_get (fold_left (fun acc kv => dict_set acc (fst kv) (snd kv))
                        (map (fun kv => (kf (fst kv), vf (snd kv))) items)
                        acc) p
    = fold_left (fun found kv =>
                   if String.eqb (kf (fst kv)) p then Some (vf (snd kv))
                   else found)
                items (dict_get acc p).
Proof.
  induction items as [|[k v] items IH]; intros acc; [reflexivity|].
  cbn [map fold_left fst snd]. rewrite IH, dict_get_set.
  now rewrite (String.eqb_sym p (kf k)).
Qed.

Lemma dict_get_of_items_last (kf : string -> string) (vf : V -> W)
    (items : dict V) (p : string) :
  dict_get (dict_of_items (map (fun kv => (kf (fst kv), vf (snd kv))) items)) p
  = last_entry kf vf items p.
Proof. apply dict_get_fold_last. Qed.

End BuiltDicts.

Lemma volumes_to_dictionaries_items (volumes : dict volume) (default_mode : string) :
  volumes_to_dictionaries volumes default_mode
  = dict_of_items (map_values (volume_detail default_mode) volumes).
Proof.
  unfold volumes_to_dictionaries, dict_of_items, map_values.
  assert (H : forall acc : dict (dict string),
             fold_left
               (fun normalized kv =>
                  match snd kv with
                  | VolBind v =>
                      dict_set normalized (fst kv)
                               [("bind", v); ("mode", default_mode)]
                  | VolDetail v => dict_set normalized (fst kv) v
                  end) volumes acc
             = fold_left (fun acc kv => dict_set acc (fst kv) (snd kv))
                 (map (fun kv => (fst kv, volume_detail default_mode (snd kv)))
                      volumes) acc).
  { induction volumes as [|[k v] volumes IH]; intros acc; [reflexivity|].
    cbn [fold_left map fst snd]. rewrite <- IH. now destruct v. }
  apply H.
Qed.

Lemma keys_map_values {V W} (g : V -> W) (d : dict V) :
  keys (map_values g d) = keys d.
Proof. unfold keys, map_values. rewrite map_map. now apply map_ext. Qed.

Lemma dict_get_map_values {V W} (g : V -> W) (d : dict V) k :
  dict_get (map_values g d) k = option_map g (dict_get d k).
Proof.
  induction d as [|[k0 v0] d IH]; simpl; [reflexivity|].
  now destruct (String.eqb k k0).
Qed.

Lemma volumes_to_dictionaries_wf (volumes : dict volume) (default_mode : string) :
  dict_wf volumes = true ->
  volumes_to_dictionaries volumes default_mode
  = map_values (volume_detail default_mode) volumes.
Proof.
  intros Hwf. rewrite volumes_to_dictionaries_items. apply dict_of_items_id.
  unfold dict_wf. now rewrite keys_map_values.
Qed.

(** X22: [volumes_to_dictionaries] keeps the host paths and their order; a
    volume given as a container path becomes the mapping with that path as
    [bind] and the default mode as [mode], and a volume given as a mapping is
    passed on as it is. *)
Theorem volumes_to_dictionaries_normalizes (volumes : dict volume)
    (default_mode : string) :
  dict_wf volumes = true ->
  keys (volumes_to_dictionaries volumes default_mode) = keys volumes
  /\ (forall k container_path,
         dict_get volumes k = Some (VolBind container_path) ->
         dict_get (volumes_to_dictionaries volumes default_mode) k
         = Some [("bind", container_path); ("mode", default_mode)])
  /\ (forall k detail,
         dict_get volumes k = Some (VolDetail detail) ->
         dict_get (volumes_to_dictionaries volumes default_mode) k = Some detail)
  /\ (forall k,
         dict_get volumes k = None ->
         dict_get (volumes_to_dictionaries volumes default_mode) k = None).
Proof.
  intros Hwf. rewrite (volumes_to_dictionaries_wf _ _ Hwf).
  split; [apply keys_map_values|].
  split; [|split]; intros k; [intros c | intros d |]; intros H;
    now rewrite dict_get_map_values, H.
Qed.

Lemma volumes_to_dictionaries_normalizes_witness :
  volumes_to_dictionaries example_volumes "rw"
  = [("data", [("bind", "/data"); ("mode", "rw")]);
     ("/ref", [("bind", "/ref"); ("mode", "ro")]);
     ("/home/me/data", [("bind", "/other"); ("mode", "rw")])]
  /\ keys (volumes_to_dictionaries example_volumes "rw") = keys example_volumes.
Proof.
  split; [reflexivity|].
  exact (proj1 (volumes_to_dictionaries_normalizes example_volumes "rw" eq_refl)).
Defined.

(** X23: volumes that are normalized already are left as they are by
    [volumes_to_dictionaries], whatever the default mode: the default mode is
    given to the volumes that come as a container path, and to them only. *)
Theorem volumes_to_dictionaries_settles (volumes : dict volume)
    (default_mode other_mode : string) :
  dict_wf volumes = true ->
  volumes_to_dictionaries
    (map_values VolDetail (volumes_to_dictionaries volumes default_mode))
    other_mode
  = volumes_to_dictionaries volumes default_mode.
Proof.
  intros Hwf. rewrite (volumes_to_dictionaries_wf volumes _ Hwf).
  rewrite volumes_to_dictionaries_wf.
  - unfold map_values. rewrite !map_map. apply map_ext. now intros [k v].
  - unfold dict_wf. now rewrite !keys_map_values.
Qed.

Lemma volumes_to_dictionaries_settles_witness :
  volumes_to_dictionaries
    (map_values VolDetail (volumes_to_dictionaries example_volumes "rw")) "ro"
  = volumes_to_dictionaries example_volumes "rw".
Proof. exact (volumes_to_dictionaries_settles example_volumes "rw" "ro" eq_refl). Defined.

(** X24: in the volumes [volumes_to_absolute_host] gives, an absolute host
    path has the detail of the last volume whose host path denotes it, and a
    path that no host path denotes has none: of two host paths for the same
    directory, the later one wins. *)
Theorem volumes_to_absolute_host_last_wins (absolute_posix : string -> string)
    (volumes : dict (dict string)) (p : string) :
  dict_get (volumes_to_absolute_host absolute_posix volumes) p
  = last_entry absolute_posix (fun detail => detail) volumes p.
Proof.
  unfold volumes_to_absolute_host.
  apply (dict_get_of_items_last absolute_posix (fun detail => detail)).
Qed.

(** X25: when no two host paths denote the same absolute path,
    [volumes_to_absolute_host] replaces every host path by its absolute
    path and changes nothing else: the order and the details are kept. *)
Theorem volumes_to_absolute_host_renames (absolute_posix : string -> string)
    (volumes : dict (dict string)) :
  distinct (map absolute_posix (keys volumes)) = true ->
  volumes_to_absolute_host absolute_posix volumes
  = map (fun kv => (absolute_posix (fst kv), snd kv)) volumes.
Proof.
  intros Hd. unfold volumes_to_absolute_host. apply dict_of_items_id.
  unfold dict_wf, keys in *. rewrite map_map in *. exact Hd.
Qed.

Lemma volumes_to_absolute_host_renames_witness :
  volumes_to_absolute_host absolute_in_home
    [("data", [("bind", "/data")]); ("/ref", [("bind", "/ref")])]
  = [("/home/me/data", [("bind", "/data")]); ("/ref", [("bind", "/ref")])].
Proof.
  exact (volumes_to_absolute_host_renames absolute_in_home
           [("data", [("bind", "/data")]); ("/ref", [("bind", "/ref")])]
           eq_refl).
Defined.

(** X26: in an environment (or any mapping of strings) with args applied,
    a key has the resolved value of the last entry whose key resolves to it:
    when two keys resolve to the same text, one entry is left, with the value
    of the later one. *)
Theorem apply_args_env_last_wins (x : dict string) (args : dict string)
    (k : string) :
  dict_get (apply_args_env x args) k
  = last_entry (safe_substitute args) (safe_substitute args) x k.
Proof.
  unfold apply_args_env.
  apply (dict_get_of_items_last (safe_substitute args) (safe_substitute args)).
Qed.
